(** * Tangram Play: the YAML tag-address helpers, the key-line fix, the
    scene loader and the API-key injection, embedded and verified.

    Sources: the common functions of the YAML mode ([getLineTag],
    [getParentLine], [getInverseTags], [getTags], [getYAMLContent],
    [tagsToAddress], [getColorBlockShader]), [src/js/core/editor.js]
    ([updateContent], [fixKeyLines]) and [src/js/tangram-play.js]
    ([determineScene], [load]). *)

From Stdlib Require Import ZArith Lia Ascii String List Bool.
From stdpp Require Import base option list strings gmap.

Local Open Scope Z_scope.

(** ** JavaScript strings

    A string is a sequence of code units; the embedding uses Rocq's
    [string], one [ascii] per code unit, so a document is a text whose code
    units are below 256. *)

Definition code (c : ascii) : N := N_of_ascii c.

Definition in_range (lo hi : N) (c : ascii) : bool :=
  ((lo <=? code c) && (code c <=? hi))%N.

(** [\s] of a JavaScript regular expression, on code units below 256:
    TAB, LF, VT, FF, CR, SPACE and NBSP. *)
Definition isSpace (c : ascii) : bool :=
  in_range 9 13 c || (code c =? 32)%N || (code c =? 160)%N.

(** [\w]: [[A-Za-z0-9_]]. *)
Definition isWord (c : ascii) : bool :=
  in_range 97 122 c || in_range 65 90 c || in_range 48 57 c || (code c =? 95)%N.

(** Line terminators: what [^] and [$] look at under the [m] flag and what
    [.] refuses. *)
Definition isLineTerminator (c : ascii) : bool :=
  (code c =? 10)%N || (code c =? 13)%N.

Definition isChar (a : ascii) (c : ascii) : bool := Ascii.eqb a c.

Arguments isSpace : simpl never.
Arguments isWord : simpl never.
Arguments isLineTerminator : simpl never.
Arguments isChar : simpl never.

Fixpoint str_drop (n : nat) (s : string) : string :=
  match n, s with
  | S n', String _ s' => str_drop n' s'
  | _, _ => s
  end.

Fixpoint str_take (n : nat) (s : string) : string :=
  match n, s with
  | S n', String c s' => String c (str_take n' s')
  | _, _ => ""
  end.

(** ** A backtracking matcher for the regular expressions of the sources

    The two regular expressions of the sources use anchors, literals,
    character classes, greedy repetition of a class, alternation and one
    capture group that matters (group 1). *)

Inductive regex : Type :=
| Eps
| Bol                                  (* ^ with the m flag *)
| Eol                                  (* $ with the m flag *)
| Chr (p : ascii -> bool)              (* one code unit of a class *)
| StarC (p : ascii -> bool)            (* class*, greedy *)
| Seq (r1 r2 : regex)
| Alt (r1 r2 : regex)
| Group (r : regex).                   (* capture group 1 *)

(** class+, greedy *)
Definition PlusC (p : ascii -> bool) : regex := Seq (Chr p) (StarC p).

Fixpoint Lit (s : string) : regex :=
  match s with
  | EmptyString => Eps
  | String c s' => Seq (Chr (isChar c)) (Lit s')
  end.

(** a code unit that is not a line terminator *)
Definition notTerm (c : ascii) : bool := negb (isLineTerminator c).

(** [.] without the [s] flag *)
Definition Dot : regex := Chr notTerm.

(** A position in the subject: the code unit before it (none at the start),
    the text from it on, and the text captured by group 1 so far. *)
Record cursor : Type := mkCursor {
  before : option ascii;
  rest : string;
  group1 : option string
}.

Definition at_bol (p : cursor) : bool :=
  match before p with
  | None => true
  | Some c => isLineTerminator c
  end.

(** the end of a line: the end of the text or a line terminator *)
Definition lineEnd (s : string) : bool :=
  match s with
  | EmptyString => true
  | String c _ => isLineTerminator c
  end.

Definition at_eol (p : cursor) : bool := lineEnd (rest p).

(** what lies between two positions of the same subject *)
Definition consumed (from to : string) : string :=
  str_take (String.length from - String.length to) from.

Definition orElse {A} (x y : option A) : option A :=
  match x with
  | Some a => Some a
  | None => y
  end.

Section Matcher.
Context {A : Type}.

(** [star p k] at a position: take one more code unit of the class and go
    on, and only when that fails leave the repetition (greedy, with
    backtracking). *)
Fixpoint star (p : ascii -> bool) (k : cursor -> option A)
    (b : option ascii) (s : string) (g : option string) : option A :=
  match s with
  | String c s' =>
      if p c then orElse (star p k (Some c) s' g) (k (mkCursor b s g))
      else k (mkCursor b s g)
  | EmptyString => k (mkCursor b s g)
  end.

(** [bt r x k]: match [r] at [x] and hand the end position to the
    continuation [k]; the first success in priority order wins. *)
Fixpoint bt (r : regex) (x : cursor) (k : cursor -> option A) : option A :=
  match r with
  | Eps => k x
  | Bol => if at_bol x then k x else None
  | Eol => if at_eol x then k x else None
  | Chr p =>
      match rest x with
      | String c s' => if p c then k (mkCursor (Some c) s' (group1 x)) else None
      | EmptyString => None
      end
  | StarC p => star p k (before x) (rest x) (group1 x)
  | Seq r1 r2 => bt r1 x (fun y => bt r2 y k)
  | Alt r1 r2 => orElse (bt r1 x k) (bt r2 x k)
  | Group r1 =>
      bt r1 x (fun y =>
        k (mkCursor (before y) (rest y) (Some (consumed (rest x) (rest y)))))
  end.
End Matcher.

(** A successful match: where it ends and what group 1 holds. *)
Definition matchAt (r : regex) (x : cursor) : option cursor :=
  bt r (mkCursor (before x) (rest x) None) Some.

(** [regex.exec(text)] on a regular expression whose [lastIndex] is 0: the
    leftmost position at which the expression matches. The result keeps the
    index of the match, the matched text and group 1. *)
Record matchResult : Type := mkMatch {
  m_index : nat;
  m_text : string;
  m_group1 : option string
}.

Fixpoint exec_from (r : regex) (i : nat) (b : option ascii) (s : string)
  : option matchResult :=
  match matchAt r (mkCursor b s None) with
  | Some y => Some (mkMatch i (consumed s (rest y)) (group1 y))
  | None =>
      match s with
      | String c s' => exec_from r (S i) (Some c) s'
      | EmptyString => None
      end
  end.

Definition exec (r : regex) (text : string) : option matchResult :=
  exec_from r 0 None text.

(** ** Results of JavaScript code *)

Inductive JsError : Type :=
| TypeError
| Error (message : string).

Inductive result (A : Type) : Type :=
| Ok (a : A)
| Throw (e : JsError)
| Diverge.
Arguments Ok {A} a.
Arguments Throw {A} e.
Arguments Diverge {A}.

#[global] Instance result_ret : MRet result := fun A a => Ok a.

#[global] Instance result_bind : MBind result := fun A B f m =>
  match m with
  | Ok a => f a
  | Throw e => Throw e
  | Diverge => Diverge
  end.

#[global] Instance result_fmap : FMap result := fun A B f m =>
  match m with
  | Ok a => Ok (f a)
  | Throw e => Throw e
  | Diverge => Diverge
  end.

(** ** JavaScript values

    The data a YAML scene holds (objects, arrays and primitives; numbers
    are integers here), and the built-in objects of the realm, which a read
    reaches through the prototype of a value: [Object.prototype], the
    functions it holds, and so on. A built-in object is known by a name
    only. *)

#[warnings="-register-all"]
Inductive value : Type :=
| VUndefined
| VNull
| VBool (b : bool)
| VNum (n : Z)
| VStr (s : string)
| VArr (items : list value)
| VObj (fields : gmap string value)
| VBuiltin (name : string).

(** ToBoolean *)
Definition truthy (v : value) : bool :=
  match v with
  | VUndefined | VNull => false
  | VBool b => b
  | VNum n => negb (n =? 0)%Z
  | VStr s => negb (String.eqb s "")
  | VArr _ | VObj _ | VBuiltin _ => true
  end.

Definition isDigit (c : ascii) : bool := in_range 48 57 c.

Fixpoint digits_value (acc : nat) (s : string) : option nat :=
  match s with
  | EmptyString => Some acc
  | String c s' =>
      if isDigit c
      then digits_value (10 * acc + (N.to_nat (code c) - 48))%nat s'
      else None
  end.

(** An array index as a property key: a canonical decimal numeral. *)
Definition arrayIndex (k : string) : option nat :=
  match k with
  | EmptyString => None
  | String "0" EmptyString => Some 0%nat
  | String "0" _ => None
  | _ => digits_value 0 k
  end.

(** [undefined] and [null], whose properties cannot be read *)
Definition nullish (v : value) : bool :=
  match v with
  | VUndefined | VNull => true
  | _ => false
  end.

(** The own property [k] of a value, when the value has one. The own
    properties of a built-in object are left to the realm. *)
Definition own (v : value) (k : string) : option value :=
  match v with
  | VObj o => o !! k
  | VArr l =>
      if String.eqb k "length" then Some (VNum (Z.of_nat (length l)))
      else match arrayIndex k with
           | Some i => l !! i
           | None => None
           end
  | VStr s =>
      if String.eqb k "length" then Some (VNum (Z.of_nat (String.length s)))
      else match arrayIndex k with
           | Some i => (fun c => VStr (String c "")) <$> String.get i s
           | None => None
           end
  | _ => None
  end.

(** the own property [k] of a value, [undefined] when it has none *)
Definition getOwn (v : value) (k : string) : value :=
  default VUndefined (own v k).

(** The built-in objects are not among the sources. What a read finds along
    the prototype chain of a value, for a key the value does not own, is a
    parameter: a value, [undefined] when no prototype has such a member, or
    an error, which the accessors of some built-in objects throw. *)
Class Realm : Type := {
  inherited : value -> string -> result value
}.

(** [v[k]]: reading a property of [undefined] or [null] is a TypeError; the
    own property is found first, then the prototype chain. *)
Definition getProp `{Realm} (v : value) (k : string) : result value :=
  if nullish v then Throw TypeError
  else match own v k with
       | Some x => Ok x
       | None => inherited v k
       end.

(** The key an array element gives when it indexes an object: an index out
    of range reads [undefined], whose property key is ["undefined"]. *)
Definition propKey (k : option string) : string := default "undefined" k.

(** ** The editor document *)

(** The lines of the document held by the CodeMirror instance. *)
Record CodeMirror : Type := mkCM {
  cm_lines : list string
}.

Definition lineCount (cm : CodeMirror) : Z := Z.of_nat (length (cm_lines cm)).

(** [cm.lineInfo(n)]: [null] when [n] is not a line of the document;
    otherwise only the [text] field is read. *)
Definition lineInfo (cm : CodeMirror) (n : Z) : option string :=
  if (0 <=? n) && (n <? lineCount cm) then cm_lines cm !! Z.to_nat n else None.

(** [getIndLevel] and [isEmpty] are called by the common functions and
    defined in a file that is not among the sources: they are parameters of
    the development. They are read at lines of the document only. *)
Class LineTools : Type := {
  getIndLevel : CodeMirror -> Z -> Z;
  isEmpty : CodeMirror -> Z -> bool
}.

Module YamlTangram.

(** [/^\s*(\w+):/gm] *)
Definition tagRegex : regex :=
  Seq Bol (Seq (StarC isSpace) (Seq (Group (PlusC isWord)) (Chr (isChar ":")))).

(** [{ 'line': nLine, 'name': tags[1] }] *)
Record Tag : Type := mkTag {
  line : Z;
  name : option string
}.

(** [getLineTag]: the recursion goes down one line at a time and stops below
    line 0, where the function falls off its end and yields [undefined]
    ([None] here). The regular expression is a fresh object at every call,
    so [exec] starts at index 0. *)
Fixpoint getLineTag_rec (fuel : nat) (cm : CodeMirror) (nLine : Z)
  : result (option Tag) :=
  if 0 <=? nLine then
    match lineInfo cm nLine with
    | None => Throw TypeError
    | Some text =>
        match exec tagRegex text with
        | Some m => Ok (Some (mkTag nLine (m_group1 m)))
        | None =>
            match fuel with
            | S fuel' => getLineTag_rec fuel' cm (nLine - 1)
            | O => Diverge
            end
        end
    end
  else Ok None.

Definition getLineTag (cm : CodeMirror) (nLine : Z) : result (option Tag) :=
  getLineTag_rec (Z.to_nat (nLine + 1)) cm nLine.

(** truth value of [tags[1]]: a string or [undefined] *)
Definition truthyName (n : option string) : bool :=
  match n with
  | Some s => negb (String.eqb s "")
  | None => false
  end.

Section CommonFunctions.
Context `{LineTools}.

(** The [for] loop of [getParentLine]: [k] is [i + 1], so the loop runs
    for [i = k - 1] down to [0]. *)
Fixpoint getParentLine_loop (cm : CodeMirror) (level : Z) (nLine : Z)
    (k : nat) : Z :=
  match k with
  | O => nLine
  | S i =>
      if negb (isEmpty cm (Z.of_nat i))
         && (getIndLevel cm (Z.of_nat i) =? level - 1)%Z
      then Z.of_nat i
      else getParentLine_loop cm level nLine i
  end.

Definition getParentLine (cm : CodeMirror) (nLine : Z) : Z :=
  let level := getIndLevel cm nLine in
  getParentLine_loop cm level nLine (Z.to_nat nLine).

(** The [while] loop of [getInverseTags]; one unit of fuel per turn. *)
Fixpoint getInverseTags_loop (fuel : nat) (cm : CodeMirror)
    (tags : list string) (line : Z) (level : Z) : result (list string) :=
  if level >? 0 then
    match fuel with
    | O => Diverge
    | S fuel' =>
        tag ← getLineTag cm line;
        match tag with
        | None => Throw TypeError        (* [tag.name] of [undefined] *)
        | Some tag =>
            if truthyName (name tag) then
              let tags := tags ++ [propKey (name tag)] in
              let level := getIndLevel cm (YamlTangram.line tag) in
              let parentLine := getParentLine cm (YamlTangram.line tag) in
              getInverseTags_loop fuel' cm tags parentLine level
            else Ok tags
        end
    end
  else Ok tags.

Definition getInverseTags (fuel : nat) (cm : CodeMirror) (nLine : Z)
  : result (list string) :=
  getInverseTags_loop fuel cm [] nLine 1.

(** The [for] loop of [getTags]: [k] is [i + 1]. *)
Fixpoint getTags_loop (invTags : list string) (tags : list string)
    (k : nat) : list string :=
  match k with
  | O => tags
  | S i => getTags_loop invTags (tags ++ [propKey (invTags !! i)]) i
  end.

Definition getTags (fuel : nat) (cm : CodeMirror) (nLine : Z)
  : result (list string) :=
  invTags ← getInverseTags fuel cm nLine;
  Ok (getTags_loop invTags [] (length invTags)).
End CommonFunctions.

Section YamlContent.
Context `{Realm}.

(** The [for] loop of [getYAMLContent], from index [i] on; [n] counts the
    turns left. *)
Fixpoint getYAMLContent_loop (tags : list string) (tmp : value) (i : nat)
    (n : nat) : result value :=
  match n with
  | O => Ok tmp
  | S n' =>
      next ← getProp tmp (propKey (tags !! i));
      if truthy next then getYAMLContent_loop tags next (S i) n'
      else Ok tmp
  end.

Definition getYAMLContent (sceneConfig : value) (tags : list string)
  : result value :=
  tmp ← getProp sceneConfig (propKey (tags !! 0%nat));
  getYAMLContent_loop tags tmp 1 (length tags - 1).
End YamlContent.

(** The [for] loop of [tagsToAddress], from index [i] on. *)
Fixpoint tagsToAddress_loop (tags : list string) (address : string)
    (i : nat) (n : nat) : string :=
  match n with
  | O => address
  | S n' =>
      tagsToAddress_loop tags (address +:+ ("/" +:+ propKey (tags !! i))) (S i) n'
  end.

Definition tagsToAddress (tags : list string) : string :=
  tagsToAddress_loop tags "" 0 (length tags).

(** [str.indexOf(needle)]: the first index at which [needle] occurs, or -1. *)
Fixpoint indexOf_from (i : Z) (str needle : string) : Z :=
  if String.prefix needle str then i
  else match str with
       | EmptyString => -1
       | String _ str' => indexOf_from (i + 1) str' needle
       end.

Definition indexOf (str needle : string) : Z := indexOf_from 0 str needle.

(** [str.indexOf(needle, position)]: the search starts at [position],
    brought into the range from 0 to the length of [str]. *)
Definition indexOfAt (str needle : string) (position : Z) : Z :=
  let start := Z.min (Z.max position 0) (Z.of_nat (String.length str)) in
  indexOf_from start (str_drop (Z.to_nat start) str) needle.

Definition endsWith (str suffix : string) : bool :=
  negb (indexOfAt str suffix
          (Z.of_nat (String.length str) - Z.of_nat (String.length suffix))
        =? -1).

Section ColorBlock.
Context `{LineTools} `{Realm}.

(** [styles] is the object [scene.styles] of the global [scene]. *)
Definition getColorBlockShader (styles : gmap string value) (fuel : nat)
    (cm : CodeMirror) (nLine : Z) : result value :=
  invTags ← getInverseTags fuel cm nLine;
  let address := tagsToAddress invTags in
  if (indexOf address "/color/blocks/shaders/" =? 0)%Z then
    let styleName := propKey (invTags !! 3%nat) in
    style ← getProp (VObj styles) styleName;
    if truthy style then getProp style "shaders"
    else Ok (VObj ∅)
  else Ok (VObj ∅).
End ColorBlock.

End YamlTangram.

(** ** The editor ([src/js/core/editor.js]) *)

Module Editor.

(** *** [fixKeyLines]

    A key pair is an object of the YAML mode; its [pos] field refers to a
    position object [{ line, ch }]. The position objects live in a store, so
    that two key pairs, or the key pairs of two lines, can hold the same
    one. *)

Record Position : Type := mkPosition {
  pos_line : Z;
  pos_ch : Z
}.

Record KeyPair : Type := mkKeyPair {
  kp_address : string;
  kp_key : string;
  kp_value : string;
  pos : nat                        (* reference to a position object *)
}.

Abbreviation store := (gmap nat Position).

(** [getKeyPairs] is imported from the YAML mode, which is not among the
    sources: a parameter. It hands out the key pair objects the mode keeps
    for a line, and does not depend on what their positions record. *)
Class KeyPairs : Type := {
  getKeyPairs : CodeMirror -> Z -> list KeyPair
}.

(** [p.line = line] *)
Definition setLine (line : Z) (p : Position) : Position :=
  mkPosition line (pos_ch p).

Section FixKeyLines.
Context `{KeyPairs}.

(** the inner loop: [keys[i].pos.line = line] for every [i] *)
Definition fixKeys (line : Z) (keys : list KeyPair) (h : store) : store :=
  foldl (fun h k => alter (setLine line) (pos k) h) h keys.

(** the outer loop, from [line] on; [n] counts the turns left *)
Fixpoint fixKeyLines_loop (cm : CodeMirror) (line : Z) (n : nat) (h : store)
  : store :=
  match n with
  | O => h
  | S n' =>
      let keys := getKeyPairs cm line in
      fixKeyLines_loop cm (line + 1) n' (fixKeys line keys h)
  end.

(** [cm.doc.size] is the number of lines of the document. *)
Definition fixKeyLines (cm : CodeMirror) (h : store) : store :=
  fixKeyLines_loop cm 0 (length (cm_lines cm)) h.

(** The invariant of the key lines: every key pair of every line records
    that line. *)
Definition KeyLinesFixed (cm : CodeMirror) (h : store) : Prop :=
  forall (line : Z) (k : KeyPair),
    0 <= line < lineCount cm ->
    k ∈ getKeyPairs cm line ->
    pos_line <$> (h !! pos k) = Some line.
End FixKeyLines.

(** *** [updateContent] *)

(** One repetition of
    [([a-z]|[A-Z]|[0-9]|\/|\{|\}|\.|\:)]: a code unit of the union of
    the alternatives. The groups 2 to 4 of the pattern are not read by the
    replacement. *)
Definition urlChar (c : ascii) : bool :=
  in_range 97 122 c || in_range 65 90 c || in_range 48 57 c
  || isChar "/" c || isChar "{" c || isChar "}" c || isChar "." c
  || isChar ":" c.

Arguments urlChar : simpl never.

Definition extension : regex :=
  Alt (Lit "topojson") (Alt (Lit "geojson") (Lit "mvt")).

(** [(...)+mapzen.com(...)+(topojson|geojson|mvt)] *)
Definition endpointText : regex :=
  Seq (PlusC urlChar)
    (Seq (Lit "mapzen") (Seq Dot (Seq (Lit "com")
      (Seq (PlusC urlChar) extension)))).

Definition endpoint : regex := Seq endpointText Eol.

(** [/(^\s+url:\s+(...)+mapzen.com(...)+(topojson|geojson|mvt)$)/gm] *)
Definition pattern : regex :=
  Group (Seq Bol (Seq (PlusC isSpace) (Seq (Lit "url:")
    (Seq (PlusC isSpace) endpoint)))).

Definition apiKey : string := "??api_key=vector-tiles-x4i7gmA".

Arguments apiKey : simpl never.

(** the replacement ["$1??api_key=vector-tiles-x4i7gmA"] *)
Definition result_ (g : option string) : string := default "" g +:+ apiKey.

(** [str.replace(regex, replacement)] with a global regular expression: the
    matches are looked for from left to right, each one from the end of the
    one before; what lies between matches is kept. After an empty match the
    search moves one code unit on. *)
Fixpoint replace_from (fuel : nat) (r : regex) (repl : option string -> string)
    (b : option ascii) (s : string) : string :=
  match fuel with
  | O => s
  | S fuel' =>
      match matchAt r (mkCursor b s None) with
      | Some y =>
          if (String.length (rest y) <? String.length s)%nat
          then repl (group1 y) +:+ replace_from fuel' r repl (before y) (rest y)
          else match s with
               | String c s' =>
                   repl (group1 y) +:+ String c (replace_from fuel' r repl (Some c) s')
               | EmptyString => repl (group1 y)
               end
      | None =>
          match s with
          | String c s' => String c (replace_from fuel' r repl (Some c) s')
          | EmptyString => EmptyString
          end
      end
  end.

Definition replace (r : regex) (repl : option string -> string) (s : string)
  : string :=
  replace_from (S (String.length s)) r repl None s.

Definition newline : ascii := ascii_of_nat 10.

(** [cm.getValue()]: the lines joined by the line separator *)
Fixpoint joinLines (ls : list string) : string :=
  match ls with
  | [] => ""
  | [l] => l
  | l :: ls' => l +:+ String newline (joinLines ls')
  end.

Definition getValue (cm : CodeMirror) : string := joinLines (cm_lines cm).

(** The function wrapped by [debounce]: it yields the content whose blob
    URL is given to [scene.reload], or nothing when no scene is there. The
    document of the editor is read, not written. *)
Definition updateContent (scene : bool) (cm : CodeMirror) : option string :=
  let content := getValue cm in
  let content := replace pattern result_ content in
  if scene then Some content else None.

End Editor.

(** ** The scene loader ([src/js/tangram-play.js]) *)

Module TangramPlay.

Definition DEFAULT_SCENE : string := "data/scenes/default.yaml".

(** A scene object: each property is a string or is absent. The record of
    the last editor content kept in the browser has the same [contents]
    property. *)
Record Scene : Type := mkScene {
  url : option string;
  contents : option string;
  filename : option string
}.

(** truth value of a property that is a string or [undefined] *)
Definition truthyStr (o : option string) : bool :=
  match o with
  | Some s => negb (String.eqb s "")
  | None => false
  end.

(** A promise, by the way it settles. *)
Inductive promise (A : Type) : Type :=
| Fulfilled (a : A)
| Rejected (e : JsError).
Arguments Fulfilled {A} a.
Arguments Rejected {A} e.

Fixpoint trimStart (s : string) : string :=
  match s with
  | String c s' => if isSpace c then trimStart s' else s
  | EmptyString => EmptyString
  end.

Fixpoint trimEnd (s : string) : string :=
  match s with
  | String c s' =>
      match trimEnd s' with
      | EmptyString => if isSpace c then EmptyString else String c EmptyString
      | t => String c t
      end
  | EmptyString => EmptyString
  end.

(** [str.trim()] *)
Definition trim (s : string) : string := trimEnd (trimStart s).

(** [determineScene]: [query_scene] is [getQueryStringObject().scene] and
    [stored] is how [localforage.getItem(STORAGE_LAST_EDITOR_CONTENT)]
    settles, [None] standing for [null]. *)
Definition determineScene (query_scene : option string)
    (stored : promise (option Scene)) : promise Scene :=
  if truthyStr query_scene then
    Fulfilled (mkScene query_scene None None)
  else
    match stored with
    | Rejected e => Rejected e
    | Fulfilled sceneData =>
        match sceneData with
        | Some sd =>
            if truthyStr (contents sd)
               && (0 <? String.length (trim (default "" (contents sd))))%nat
            then Fulfilled sd
            else Fulfilled (mkScene (Some DEFAULT_SCENE) None None)
        | None => Fulfilled (mkScene (Some DEFAULT_SCENE) None None)
        end
    end.

(** What the loader does to the rest of the application. *)
Inductive Event : Type :=
| Emit (name : string)                   (* EventEmitter.dispatch *)
| ShowSceneLoadingIndicator
| HideSceneLoadingIndicator
| FetchUrl (u : string)                  (* window.fetch *)
| MapLoadScene (fromUrl : option string) (* loadScene: a url, or a blob *)
| OpenScene (sc : Scene)                 (* dispatch of OPEN_SCENE *)
| PushHistoryState (u : option string)
| ErrorModal (e : JsError)               (* the modal renders error.message *)
| MarkClean.

Record App : Type := mkApp {
  initialized : bool;
  mapNotLoaded : bool;
  initialScene : option Scene;
  events : list Event
}.

Definition emit (e : Event) (a : App) : App :=
  mkApp (initialized a) (mapNotLoaded a) (initialScene a) (events a ++ [e]).

Record Response : Type := mkResponse {
  ok : bool;
  status : Z;
  text : promise string
}.

(** The last element of [url.split('/')]. *)
Fixpoint lastPart (acc : string) (s : string) : string :=
  match s with
  | EmptyString => acc
  | String c s' =>
      if isChar "/" c then lastPart "" s' else lastPart (acc +:+ String c "") s'
  end.

(** How a call ends: it throws, or it returns a promise. *)
Inductive completion : Type :=
| Thrown (e : JsError)
| Returned (p : promise unit).

(** The helpers of [tools/], the network and the map are not among the
    sources. [loadScene] stands for the call [loadScene(url, ...)] that
    [doLoadProcess] makes for a scene: it throws, or it returns and leaves
    the promise [tangramLayer.scene.initializing], given here by the way it
    settles. The calls that only record something (the event emitter, the
    store, the history, the loading indicator, the modal) return. *)
Class Web : Type := {
  prependProtocolToUrl : string -> string;
  isGistURL : string -> bool;
  getSceneURLFromGistAPI : string -> promise string;
  fetch : string -> promise Response;
  loadScene : Scene -> completion
}.

Definition onLoadError (error : JsError) (a : App) : App :=
  let a := emit (ErrorModal error) a in
  let a := emit HideSceneLoadingIndicator a in
  if negb (initialized a)
  then emit MarkClean (mkApp (initialized a) true (initialScene a) (events a))
  else a.

Section Load.
Context `{Web}.

(** [doLoadProcess]: how the call ends and the application it leaves. It
    ends with what [loadScene] throws, or it returns the promise
    [tangramLayer.scene.initializing]. *)
Definition doLoadProcess (scene : Scene) (a : App) : completion * App :=
  let a := mkApp (initialized a) (mapNotLoaded a) (Some scene) (events a) in
  let a := emit (MapLoadScene (if truthyStr (url scene) then url scene else None)) a in
  match loadScene scene with
  | Thrown e => (Thrown e, a)
  | Returned initializing =>
      let a := emit (OpenScene scene) a in
      let a :=
        if initialized a
        then emit (PushHistoryState (if truthyStr (url scene) then url scene else None)) a
        else mkApp true (mapNotLoaded a) (initialScene a) (events a) in
      let a := mkApp (initialized a) false (initialScene a) (events a) in
      (Returned initializing, emit (Emit "tangram:sceneload") a)
  end.

(** the first [then] of the fetch chain *)
Definition checkResponse (response : Response) : promise string :=
  if negb (ok response) then
    if (status response =? 404)%Z
    then Rejected (Error "The scene you requested could not be found.")
    else Rejected (Error "Something went wrong loading the scene!")
  else text response.

(** The request of the scene file: the scene url in the end (a Gist url
    is replaced by the url of the raw file), the application after the
    request went out, and how the fetch settles. *)
Definition request (sceneUrl : string) (a : App)
  : string * App * promise Response :=
  if isGistURL sceneUrl then
    match getSceneURLFromGistAPI sceneUrl with
    | Fulfilled u => (u, emit (FetchUrl u) a, fetch u)
    | Rejected e => (sceneUrl, a, Rejected e)
    end
  else (sceneUrl, emit (FetchUrl sceneUrl) a, fetch sceneUrl).

(** [load]. In the url branch the promise of [doLoadProcess] is part of the
    chain that ends in [catch]: what [doLoadProcess] throws and what its
    promise is rejected with reach [onLoadError], after the steps that
    [doLoadProcess] made. In the contents branch [doLoadProcess] runs in
    the executor of a new promise, which is rejected with what it throws
    and is resolved without regard to the promise it returns. *)
Definition load (scene : Scene) (a : App) : completion * App :=
  let a := emit (Emit "tangram:clear-palette") a in
  let a := emit ShowSceneLoadingIndicator a in
  if truthyStr (url scene) then
    let sceneUrl := prependProtocolToUrl (default "" (url scene)) in
    let filename := lastPart "" sceneUrl in
    let '(sceneUrl, a, fetchPromise) := request sceneUrl a in
    let fetched :=
      match fetchPromise with
      | Fulfilled response => checkResponse response
      | Rejected e => Rejected e
      end in
    match fetched with
    | Fulfilled contents =>
        let '(c, a) :=
          doLoadProcess
            (mkScene (Some sceneUrl) (Some contents) (Some filename)) a in
        match c with
        | Thrown error | Returned (Rejected error) =>
            (Returned (Fulfilled tt), onLoadError error a)
        | Returned (Fulfilled _) => (Returned (Fulfilled tt), a)
        end
    | Rejected error => (Returned (Fulfilled tt), onLoadError error a)
    end
  else if truthyStr (contents scene) then
    let '(c, a) := doLoadProcess scene a in
    match c with
    | Thrown error => (Returned (Rejected error), a)
    | Returned _ => (Returned (Fulfilled tt), a)
    end
  else
    (Thrown (Error "no scene url or contents provided"), a).
End Load.



(** the application when the request of a scene goes out *)
Definition started (a : App) : App :=
  emit ShowSceneLoadingIndicator (emit (Emit "tangram:clear-palette") a).

End TangramPlay.

(** ** An instance for the examples *)

Fixpoint leadingSpaces (s : string) : nat :=
  match s with
  | String c s' => if isSpace c then S (leadingSpaces s') else O
  | EmptyString => O
  end.

Fixpoint allSpaces (s : string) : bool :=
  match s with
  | String c s' => isSpace c && allSpaces s'
  | EmptyString => true
  end.

(** Modelled from the spec: [getIndLevel] and [isEmpty] are missing from the
    sources; the spec speaks of the indentation levels of the lines of the
    document. This instance, which only the examples use, takes the number
    of leading blanks of the line over the indent unit 4 of the editor (the
    examples indent by multiples of 4) and calls a line empty when it holds
    white space only. *)
#[local] Instance exampleTools : LineTools := {|
  getIndLevel cm n :=
    Z.of_nat (leadingSpaces (default "" (lineInfo cm n))) / 4;
  isEmpty cm n := allSpaces (default "" (lineInfo cm n))
|}.

Definition shaderDoc : CodeMirror := mkCM [
  "styles:";
  "    mystyle:";
  "        shaders:";
  "            blocks:";
  "                color: |";
  "                    color.rgb = vec3(1.0);";
  "";
  "sources:";
  "    osm:";
  "        type: TopoJSON"
].

(** a shader block of a style named as a member that objects inherit *)
Definition constructorDoc : CodeMirror := mkCM [
  "styles:";
  "    constructor:";
  "        shaders:";
  "            blocks:";
  "                color: |"
].

(** a document without any key: the text the editor is created with *)
Definition noKeyDoc : CodeMirror := mkCM ["Loading..."].

(** a document whose only key is indented under nothing *)
Definition orphanDoc : CodeMirror := mkCM ["    a:"].

(** A realm for the examples: of the members that values inherit it has
    [constructor] and [toString] only. *)
#[local] Instance exampleRealm : Realm := {|
  inherited v k :=
    if String.eqb k "constructor" then Ok (VBuiltin "Object")
    else if String.eqb k "toString"
         then Ok (VBuiltin "Object.prototype.toString")
         else Ok VUndefined
|}.

(** [scene.styles] of the examples *)
Definition exampleStyles : gmap string value :=
  {[ "mystyle" := VObj {[ "shaders" := VObj {[ "blocks" := VStr "x" ]} ]} ]}.

(** key pairs for the examples: the blank second line of a document keeps
    the key pair objects of its first line *)
Definition sharedKey : Editor.KeyPair := Editor.mkKeyPair "/a" "a" "1" 0.

#[local] Instance sharedKeys : Editor.KeyPairs := {|
  Editor.getKeyPairs cm line :=
    if (line =? 0) || (line =? 1) then [sharedKey] else []
|}.


Definition twoLines : CodeMirror := mkCM ["a: 1"; ""].

Definition staleStore : gmap nat Editor.Position :=
  {[ 0%nat := Editor.mkPosition 7 0; 1%nat := Editor.mkPosition 7 3 ]}.

(** ** Runs of a character class *)

(** the longest prefix of [s] in the class, and what follows it *)
Fixpoint run (p : ascii -> bool) (s : string) : string :=
  match s with
  | String c s' => if p c then String c (run p s') else EmptyString
  | EmptyString => EmptyString
  end.

Fixpoint skip (p : ascii -> bool) (s : string) : string :=
  match s with
  | String c s' => if p c then skip p s' else s
  | EmptyString => EmptyString
  end.

(** the code unit before the position reached after reading [t] *)
Fixpoint lastOf (b : option ascii) (t : string) : option ascii :=
  match t with
  | EmptyString => b
  | String c t' => lastOf (Some c) t'
  end.

(** [dropLit lit s]: [s] without its prefix [lit] *)
Fixpoint dropLit (lit s : string) : option string :=
  match lit with
  | EmptyString => Some s
  | String a lit' =>
      match s with
      | String c s' => if isChar a c then dropLit lit' s' else None
      | EmptyString => None
      end
  end.

Fixpoint allOf (p : ascii -> bool) (s : string) : bool :=
  match s with
  | String c s' => p c && allOf p s'
  | EmptyString => true
  end.

(** An expression that reads within a line: no anchor at a line start, no
    group, and no class that holds a line terminator. *)
Fixpoint lineLocal (r : regex) : bool :=
  match r with
  | Eps | Eol => true
  | Bol | Group _ => false
  | Chr p | StarC p => negb (p "010"%char) && negb (p "013"%char)
  | Seq r1 r2 | Alt r1 r2 => lineLocal r1 && lineLocal r2
  end.

(** [reads r t rem]: the expression [r], without group and without anchor
    at a line start, can read the text [t] when [rem] follows. *)
Fixpoint reads (r : regex) (t rem : string) : Prop :=
  match r with
  | Eps => t = ""
  | Eol => t = "" /\ lineEnd rem = true
  | Chr p => exists c, t = String c "" /\ p c = true
  | StarC p => allOf p t = true
  | Seq r1 r2 =>
      exists t1 t2, t = t1 +:+ t2 /\ reads r1 t1 (t2 +:+ rem) /\ reads r2 t2 rem
  | Alt r1 r2 => reads r1 t rem \/ reads r2 t rem
  | Bol | Group _ => False
  end.

(** [y] is reached from [x] by reading [t], groups apart *)
Definition reaches (x y : cursor) : Prop :=
  exists t, rest x = t +:+ rest y
    /\ before y = lastOf (before x) t /\ group1 y = group1 x.

(** what the tag expression matches at a position: white space, a name, a
    colon *)
Definition tagAt (b : option ascii) (s : string) : option cursor :=
  if at_bol (mkCursor b s None) then
    let r := skip isSpace s in
    match run isWord r, skip isWord r with
    | String _ _ as w, String c r' =>
        if isChar ":" c then Some (mkCursor (Some c) r' (Some w)) else None
    | _, _ => None
    end
  else None.

(** a key name: one or more code units of [\w] *)
Definition isKeyName (w : string) : bool :=
  negb (String.eqb w "") && allOf isWord w.

(** a document whose [url:] entry is not indented and follows a blank
    line *)
Definition blankThenUrl : CodeMirror := mkCM [
  "sources:";
  "    osm:";
  "        type: MVT";
  "";
  "url: https://tile.mapzen.com/mapzen/vector/v1/all/{z}/{x}/{y}.mvt"
].

(** a document with an indented [url:] entry *)
Definition sourceDoc : CodeMirror := mkCM [
  "sources:";
  "    osm:";
  "        type: TopoJSON";
  "        url: https://tile.mapzen.com/mapzen/vector/v1/all/{z}/{x}/{y}.topojson";
  "cameras:"
].

(** a document whose [url:] entry points at another host: the text has
    [mapzen-com], not [mapzen.com] *)
Definition otherHostDoc : CodeMirror := mkCM [
  "sources:";
  "    osm:";
  "        url: https://mapzen-com.example.org/all/{z}/{x}/{y}.mvt"
].

(** the text [s] occurs in [t] *)
Fixpoint occursIn (s t : string) : bool :=
  bool_decide (is_Some (dropLit s t))
  || match t with
     | String _ t' => occursIn s t'
     | EmptyString => false
     end.

(** a network for the examples: every request is answered with status 404 *)
Definition notFound : TangramPlay.Response :=
  TangramPlay.mkResponse false 404 (TangramPlay.Fulfilled "Not Found").

#[local] Instance notFoundWeb : TangramPlay.Web := {|
  TangramPlay.prependProtocolToUrl u := u;
  TangramPlay.isGistURL u := false;
  TangramPlay.getSceneURLFromGistAPI u := TangramPlay.Fulfilled u;
  TangramPlay.fetch u := TangramPlay.Fulfilled notFound;
  TangramPlay.loadScene sc := TangramPlay.Returned (TangramPlay.Fulfilled tt)
|}.

(** a network for the examples: every request is answered with a scene *)
#[local] Instance servedWeb : TangramPlay.Web := {|
  TangramPlay.prependProtocolToUrl u := u;
  TangramPlay.isGistURL u := false;
  TangramPlay.getSceneURLFromGistAPI u := TangramPlay.Fulfilled u;
  TangramPlay.fetch u :=
    TangramPlay.Fulfilled
      (TangramPlay.mkResponse true 200 (TangramPlay.Fulfilled "sources:"));
  TangramPlay.loadScene sc := TangramPlay.Returned (TangramPlay.Fulfilled tt)
|}.

(** the application before its first scene is loaded *)
Definition freshApp : TangramPlay.App := TangramPlay.mkApp false false None [].

(** ** The loop of [getInverseTags], replayed on its result *)

Section LoopPath.
Context `{LineTools}.

(** [loopPath cm n path]: started at line [n], the loop of [getInverseTags]
    pushes the names of [path], one at each turn, and ends. This replays
    the code, with its own [getLineTag] and [getParentLine]; it is a tool
    of the proofs and says nothing of what a key path is. *)
Fixpoint loopPath (cm : CodeMirror) (n : Z) (path : list string) : bool :=
  match path with
  | [] => false
  | t :: path' =>
      match YamlTangram.getLineTag cm n with
      | Ok (Some tag) =>
          bool_decide (YamlTangram.name tag = Some t)
          && (if getIndLevel cm (YamlTangram.line tag) >? 0
              then loopPath cm
                     (YamlTangram.getParentLine cm (YamlTangram.line tag))
                     path'
              else bool_decide (path' = []))
      | _ => false
      end
  end.
End LoopPath.

(** ** What the specification says, and the notions the proofs use *)

Module Spec.
Import YamlTangram.

(** The address of a tag list: every tag prefixed with ["/"], in list
    order. *)
Definition address (tags : list string) : string :=
  String.concat "" (map (String.append "/") tags).

(** the line holds the key [w]: white space, the name and a colon, then
    anything *)
Definition holdsKey (text w : string) : Prop :=
  exists ws more,
    text = ws +:+ w +:+ String ":" more
    /\ allOf isSpace ws = true /\ isKeyName w = true.

Section KeyPath.
Context `{LineTools}.

(** [l] is the line nearest at or above [n] that holds a key, and [w] is
    the name of the key *)
Definition nearestKey (cm : CodeMirror) (n l : Z) (w : string) : Prop :=
  0 <= l <= n
  /\ (exists text m,
        lineInfo cm l = Some text /\ exec tagRegex text = Some m
        /\ m_group1 m = Some w)
  /\ forall i text, l < i <= n -> lineInfo cm i = Some text ->
       exec tagRegex text = None.

(** the lines above [n] that can be its parent: not empty and one
    indentation level less *)
Definition parentCandidate (cm : CodeMirror) (n i : Z) : Prop :=
  0 <= i < n /\ isEmpty cm i = false
  /\ getIndLevel cm i = getIndLevel cm n - 1.

(** line [l] of the document holds the key [w] *)
Definition keyAt (cm : CodeMirror) (l : Z) (w : string) : Prop :=
  exists text, lineInfo cm l = Some text /\ holdsKey text w.

(** [l] is the line nearest at or above line [n] of the document that
    holds a key, and the key is [w] *)
Definition nearestKeyAt (cm : CodeMirror) (n l : Z) (w : string) : Prop :=
  0 <= l <= n /\ n < lineCount cm /\ keyAt cm l w
  /\ forall i w', l < i <= n -> ~ keyAt cm i w'.

(** the parent line of line [l]: the nearest line above it that is not
    empty and is indented one level less *)
Definition parentOf (cm : CodeMirror) (l p : Z) : Prop :=
  parentCandidate cm l p /\ forall j, p < j -> ~ parentCandidate cm l j.

(** [KeyPath cm n path]: the keys that enclose line [n], from the inside
    out. The first is the key nearest at or above the line. When that key
    is not indented it is the outermost one; when it is, the path goes on
    with the keys that enclose the parent line of its line. *)
Inductive KeyPath (cm : CodeMirror) : Z -> list string -> Prop :=
| KeyPath_outer (n l : Z) (w : string) :
    nearestKeyAt cm n l w -> getIndLevel cm l <= 0 ->
    KeyPath cm n [w]
| KeyPath_inner (n l p : Z) (w : string) (path : list string) :
    nearestKeyAt cm n l w -> 0 < getIndLevel cm l ->
    parentOf cm l p -> KeyPath cm p path ->
    KeyPath cm n (w :: path).
End KeyPath.

(** the key names no member that a value inherits: a read of it finds the
    own data or nothing *)
Definition dataKey `{Realm} (k : string) : Prop :=
  forall v, inherited v k = Ok VUndefined.

(** The content nearest to a tag path: walk along the tags and stop before
    the first tag whose key is absent or holds a falsy value. *)
Fixpoint nearestContent (v : value) (tags : list string) : value :=
  match tags with
  | [] => v
  | t :: tags' =>
      let next := getOwn v t in
      if truthy next then nearestContent next tags' else v
  end.

(** the matcher on a whole text, with the part
    [(...)+mapzen.com(...)+(topojson|geojson|mvt)$] of the pattern; its
    dot is the one of the pattern, which any character of a line
    matches *)
Definition isEndpoint (body : string) : bool :=
  match bt Editor.endpoint (mkCursor None body None) (fun _ => Some tt) with
  | Some _ => true
  | None => false
  end.

(** An entry of the pattern at the start of [s]: white space, [url:], white
    space, and an endpoint up to the end of its line. The result is what
    follows the entry. *)
Definition entryEnd (s : string) : option string :=
  if String.eqb (run isSpace s) "" then None else
  match dropLit "url:" (skip isSpace s) with
  | None => None
  | Some r2 =>
      if String.eqb (run isSpace r2) "" then None else
      let r3 := skip isSpace r2 in
      if isEndpoint (run notTerm r3) then Some (skip notTerm r3) else None
  end.

(** the search of [replace] with the pattern of [updateContent], from a
    position on *)
Definition scan (b : option ascii) (s : string) : string :=
  Editor.replace_from (S (String.length s)) Editor.pattern Editor.result_ b s.

(** what follows a line in the joined text: nothing after the last line,
    else a newline and the lines that remain *)
Definition tailOf (ls : list string) : string :=
  match ls with
  | [] => ""
  | _ => String Editor.newline (Editor.joinLines ls)
  end.

(** lines, each one with its newline *)
Fixpoint linesText (ls : list string) : string :=
  match ls with
  | [] => ""
  | l :: ls' => l +:+ String Editor.newline (linesText ls')
  end.

(** the number of code units that are not white space *)
Fixpoint nonSpaces (s : string) : nat :=
  match s with
  | String c s' => ((if isSpace c then 0 else 1) + nonSpaces s')%nat
  | EmptyString => 0%nat
  end.

(** a line of the document holds no line terminator *)
Definition isLine (l : string) : bool := allOf notTerm l.

(** a text without a slash *)
Definition noSlash (t : string) : bool :=
  allOf (fun c => negb (isChar "/" c)) t.

(** a line that ends with the name of a tile format *)
Definition tileFormat (l : string) : bool :=
  YamlTangram.endsWith l "topojson" || YamlTangram.endsWith l "geojson"
  || YamlTangram.endsWith l "mvt".

(** the line matches the pattern *)
Definition matchesPattern (l : string) : bool :=
  match exec Editor.pattern l with
  | Some _ => true
  | None => false
  end.

(** the line ends in a text that the matcher takes for an endpoint *)
Definition endsInEndpoint (l : string) : Prop :=
  exists pre body, l = pre +:+ body /\ isEndpoint body = true.

(** A bound on what becomes of a line [l] of the editor in the content
    given to the scene, used for documents without tile formats: it is
    kept or gets the key appended; it gets the key when it matches the
    pattern, and only when it ends in what the matcher takes for an
    endpoint. The lines that get the key are given by [keyed]. *)
Definition lineResult (l l' : string) : Prop :=
  (l' = l \/ l' = l +:+ Editor.apiKey)
  /\ (matchesPattern l = true -> l' = l +:+ Editor.apiKey)
  /\ (l' = l +:+ Editor.apiKey -> endsInEndpoint l).

(** The content in which the key is appended to the lines that match the
    pattern by themselves, and to no other. *)
Definition statedContent (cm : CodeMirror) : string :=
  Editor.joinLines
    (map (fun l => if matchesPattern l then l +:+ Editor.apiKey else l)
       (cm_lines cm)).

(** a text that is not empty once the white space around it is removed *)
Definition hasText (s : string) : bool := negb (allOf isSpace s).

(** saved scene data whose contents are such a text *)
Definition savedContents (sceneData : option TangramPlay.Scene) : bool :=
  match sceneData with
  | Some sd =>
      match TangramPlay.contents sd with
      | Some c => hasText c
      | None => false
      end
  | None => false
  end.

(** the message of the error for a response that is not ok *)
Definition responseMessage (status : Z) : string :=
  if status =? 404 then "The scene you requested could not be found."
  else "Something went wrong loading the scene!".

(** white space, and not empty; a line end is white space *)
Definition blanks (w : string) : Prop := w <> "" /\ allOf isSpace w = true.

(** url characters (letters, digits and [/ { } . :]), at least one *)
Definition urlText (u : string) : Prop :=
  u <> "" /\ allOf Editor.urlChar u = true.

(** the name of a tile format *)
Definition tileExt (ext : string) : Prop :=
  ext = "topojson" \/ ext = "geojson" \/ ext = "mvt".

(** An endpoint: url characters, [mapzen], one character of the class
    [dot], [com], url characters, and the name of a tile format. With the
    class that holds the dot alone this is a mapzen.com endpoint. *)
Definition tileEndpoint (dot : ascii -> bool) (body : string) : Prop :=
  exists u1 c u2 ext,
    body = u1 +:+ "mapzen" +:+ String c ("com" +:+ u2 +:+ ext)
    /\ urlText u1 /\ dot c = true /\ urlText u2 /\ tileExt ext.

(** An entry: white space, [url:], white space, an endpoint. *)
Definition urlEntry (dot : ascii -> bool) (t : string) : Prop :=
  exists w1 w2 body,
    t = w1 +:+ "url:" +:+ w2 +:+ body
    /\ blanks w1 /\ blanks w2 /\ tileEndpoint dot body.

(** the lines [i] to [j] of the document, read as one text from the start
    of line [i] to the end of line [j], are an entry *)
Definition entryLines (dot : ascii -> bool) (lines : list string)
    (i j : nat) : Prop :=
  (i <= j < length lines)%nat
  /\ urlEntry dot (Editor.joinLines (take (S j - i) (drop i lines))).

(** line [j] ends an entry, which begins with it or with a line before
    it *)
Definition endsEntry (dot : ascii -> bool) (lines : list string)
    (j : nat) : Prop :=
  exists i, entryLines dot lines i j.

(** [out] is [lines] with the key appended to the lines that end an entry,
    and to no other *)
Definition keyed (dot : ascii -> bool) (lines out : list string) : Prop :=
  length out = length lines
  /\ forall j l, lines !! j = Some l ->
       (endsEntry dot lines j /\ out !! j = Some (l +:+ Editor.apiKey))
       \/ (~ endsEntry dot lines j /\ out !! j = Some l).

(** the application when the answer to the request of a scene is there:
    the request may have left a fetch in the log *)
Definition requested (a a1 : TangramPlay.App) : Prop :=
  exists sent,
    a1 = TangramPlay.mkApp (TangramPlay.initialized a)
           (TangramPlay.mapNotLoaded a) (TangramPlay.initialScene a)
           (TangramPlay.events (TangramPlay.started a) ++ sent)
    /\ (sent = [] \/ exists u, sent = [TangramPlay.FetchUrl u]).

End Spec.

(** * Properties *)

(** ** Strings *)

#[local] Arguments String.append !_ _ / : simpl nomatch.

Lemma append_nil_r (s : string) : s +:+ "" = s.
Proof. induction s as [|c s IH]; simpl; [done | by rewrite IH]. Qed.

Lemma append_assoc (s t u : string) : (s +:+ t) +:+ u = s +:+ (t +:+ u).
Proof. induction s as [|c s IH]; simpl; [done | by rewrite IH]. Qed.

Lemma length_append (s t : string) :
  String.length (s +:+ t) = (String.length s + String.length t)%nat.
Proof. induction s as [|c s IH]; simpl; [done | by rewrite IH]. Qed.

Lemma prefix_append (s t : string) : String.prefix s (s +:+ t) = true.
Proof.
  induction s as [|c s IH]; simpl; [by destruct t |].
  destruct (ascii_dec c c); [done | congruence].
Qed.

Lemma prefix_cons (a b : ascii) (s t : string) :
  String.prefix (String a s) (String b t)
  = bool_decide (a = b) && String.prefix s t.
Proof.
  simpl. destruct (ascii_dec a b) as [Hab | Hab].
  - by rewrite bool_decide_eq_true_2.
  - by rewrite bool_decide_eq_false_2.
Qed.

Lemma prefix_cons_nil (a : ascii) (s : string) :
  String.prefix (String a s) "" = false.
Proof. done. Qed.

#[local] Arguments String.prefix : simpl never.

Lemma append_eq_append (a b c d : string) :
  a +:+ b = c +:+ d ->
  (exists e, c = a +:+ e /\ b = e +:+ d)
  \/ (exists e, a = c +:+ e /\ d = e +:+ b).
Proof.
  revert c. induction a as [|x a IH]; intros c; simpl.
  - intros ->. left. by exists c.
  - destruct c as [|y c]; simpl.
    + intros <-. right. by exists (String x a).
    + intros [= -> Heq]. destruct (IH c Heq) as [(e & -> & ->) | (e & -> & ->)].
      * left. by exists e.
      * right. by exists e.
Qed.

Lemma append_inv_head (a b c : string) : a +:+ b = a +:+ c -> b = c.
Proof. induction a as [|x a IH]; simpl; [done |]. intros [= Heq]. by apply IH. Qed.

Lemma append_eq_nil (a b : string) : a +:+ b = "" -> a = "" /\ b = "".
Proof. by destruct a. Qed.

Lemma concat_cons (x : string) (l : list string) :
  String.concat "" (x :: l) = x +:+ String.concat "" l.
Proof. destruct l; simpl; [by rewrite append_nil_r | done]. Qed.

Lemma run_skip (p : ascii -> bool) (s : string) : run p s +:+ skip p s = s.
Proof.
  induction s as [|c s IH]; simpl; [done |].
  destruct (p c); simpl; [by rewrite IH | done].
Qed.

Lemma allOf_run (p : ascii -> bool) (s : string) : allOf p (run p s) = true.
Proof.
  induction s as [|c s IH]; simpl; [done |].
  destruct (p c) eqn:Hc; simpl; [by rewrite Hc | done].
Qed.

Lemma allOf_append (p : ascii -> bool) (s t : string) :
  allOf p (s +:+ t) = allOf p s && allOf p t.
Proof.
  induction s as [|c s IH]; simpl; [done |]. by rewrite IH, andb_assoc.
Qed.

Lemma run_all (p : ascii -> bool) (s : string) :
  allOf p s = true -> run p s = s /\ skip p s = "".
Proof.
  induction s as [|c s IH]; simpl; [done |].
  intros [-> Hs]%andb_prop. destruct (IH Hs) as [-> ->]. done.
Qed.

(** a run goes through a text that is wholly in the class *)
Lemma run_append_all (p : ascii -> bool) (s t : string) :
  allOf p s = true ->
  run p (s +:+ t) = s +:+ run p t /\ skip p (s +:+ t) = skip p t.
Proof.
  induction s as [|c s IH]; simpl; [done |].
  intros [-> Hs]%andb_prop. destruct (IH Hs) as [-> ->]. done.
Qed.

(** a run that stops within a text does not see what follows the text *)
Lemma run_append_stop (p : ascii -> bool) (s t : string) :
  skip p s <> "" ->
  run p (s +:+ t) = run p s /\ skip p (s +:+ t) = skip p s +:+ t.
Proof.
  induction s as [|c s IH]; simpl; [done |].
  destruct (p c); [| done]. intros Hs. destruct (IH Hs) as [-> ->]. done.
Qed.

Lemma skip_head (p : ascii -> bool) (s : string) :
  match skip p s with
  | String c _ => p c = false
  | EmptyString => True
  end.
Proof.
  induction s as [|c s IH]; simpl; [done |].
  destruct (p c) eqn:Hc; [done | by simpl].
Qed.

Lemma allOf_skip (p q : ascii -> bool) (s : string) :
  allOf q s = true -> allOf q (skip p s) = true.
Proof.
  induction s as [|c s IH]; simpl; [done |].
  intros [Hc Hs]%andb_prop. destruct (p c); [by apply IH |].
  simpl. by rewrite Hc, Hs.
Qed.

Lemma run_lineEnd (t : string) : lineEnd t = true -> run notTerm t = "".
Proof.
  destruct t as [|c t]; simpl; [done |]. unfold notTerm. by intros ->.
Qed.

Lemma skip_lineEnd (t : string) : lineEnd t = true -> skip notTerm t = t.
Proof.
  destruct t as [|c t]; simpl; [done |]. unfold notTerm. by intros ->.
Qed.

Lemma dropLit_split (lit s s' : string) :
  dropLit lit s = Some s' -> s = lit +:+ s'.
Proof.
  revert s. induction lit as [|a lit IH]; intros s; simpl; [by intros [= ->] |].
  destruct s as [|c s]; [done |]. destruct (isChar a c) eqn:Hc; [| done].
  apply Ascii.eqb_eq in Hc as ->. intros Hs. by rewrite (IH s Hs).
Qed.

Lemma dropLit_append (lit s s' t : string) :
  dropLit lit s = Some s' -> dropLit lit (s +:+ t) = Some (s' +:+ t).
Proof.
  revert s. induction lit as [|a lit IH]; intros s; simpl; [by intros [= ->] |].
  destruct s as [|c s]; [done |]. simpl. destruct (isChar a c); [| done].
  apply IH.
Qed.

Lemma str_take_append (s t : string) : str_take (String.length s) (s +:+ t) = s.
Proof. induction s as [|c s IH]; simpl; [by destruct t | by rewrite IH]. Qed.

Lemma consumed_append (s t : string) : consumed (s +:+ t) t = s.
Proof.
  unfold consumed. rewrite length_append.
  replace (String.length s + String.length t - String.length t)%nat
    with (String.length s) by lia.
  apply str_take_append.
Qed.

Lemma consumed_skip (p : ascii -> bool) (s : string) :
  consumed s (skip p s) = run p s.
Proof. rewrite <- (run_skip p s) at 1. apply consumed_append. Qed.

(** ** The matcher *)

Lemma orElse_None_r {A} (x : option A) : orElse x None = x.
Proof. by destruct x. Qed.

(** A greedy repetition whose continuation refuses every position that
    still begins with a code unit of the class takes the whole run. *)
Lemma star_run {A} (p : ascii -> bool) (k : cursor -> option A) :
  (forall b c s g, p c = true -> k (mkCursor b (String c s) g) = None) ->
  forall s b g,
    star p k b s g = k (mkCursor (lastOf b (run p s)) (skip p s) g).
Proof.
  intros Hk. induction s as [|c s IH]; intros b g; simpl; [done |].
  destruct (p c) eqn:Hc; simpl; [| done].
  by rewrite IH, Hk, orElse_None_r.
Qed.

Lemma isLineTerminator_cases (c : ascii) :
  isLineTerminator c = true -> c = "010"%char \/ c = "013"%char.
Proof. destruct c as [[] [] [] [] [] [] [] []]; vm_compute; auto; congruence. Qed.

Section MatcherProofs.
Context {A : Type}.
Implicit Types (r : regex) (k : cursor -> option A) (x y : cursor).

Lemma star_ext (p : ascii -> bool) k k' :
  (forall y, k y = k' y) ->
  forall s b g, star p k b s g = star p k' b s g.
Proof.
  intros Hk. induction s as [|c s IH]; intros b g; simpl; [apply Hk |].
  by rewrite IH, Hk.
Qed.

(** the continuation matters by its values only *)
Lemma bt_ext r : forall x k k',
  (forall y, k y = k' y) -> bt r x k = bt r x k'.
Proof.
  induction r as [| | |p|p|r1 IH1 r2 IH2|r1 IH1 r2 IH2|r1 IH1];
    intros x k k' Hk; simpl; rewrite ?Hk; try done.
  - destruct (rest x) as [|c s]; [done |]. by rewrite Hk.
  - by apply star_ext.
  - apply IH1. intros y. by apply IH2.
  - by rewrite (IH1 x k k' Hk), (IH2 x k k' Hk).
  - apply IH1. intros y. apply Hk.
Qed.

Lemma lineLocal_class (p : ascii -> bool) (c : ascii) :
  negb (p "010"%char) && negb (p "013"%char) = true ->
  isLineTerminator c = true -> p c = false.
Proof.
  intros [H10 H13]%andb_prop Hc.
  destruct (isLineTerminator_cases c Hc) as [-> | ->].
  - by destruct (p "010"%char).
  - by destruct (p "013"%char).
Qed.

(** An expression that reads within a line does not see what follows the
    line. *)
Lemma bt_line r (post : string) :
  lineLocal r = true -> lineEnd post = true ->
  forall s b g k,
    bt r (mkCursor b (s +:+ post) g) k
    = bt r (mkCursor b s g)
        (fun y => k (mkCursor (before y) (rest y +:+ post) (group1 y))).
Proof.
  intros Hr Hpost. induction r as [| | |p|p|r1 IH1 r2 IH2|r1 IH1 r2 IH2|r1 IH1];
    intros s b g k; simpl in *; try done.
  - unfold at_eol. simpl. destruct s as [|c s]; simpl; [| done].
    by rewrite Hpost.
  - destruct s as [|c s]; simpl; [| done].
    destruct post as [|c post]; [done |]. simpl in Hpost.
    by rewrite (lineLocal_class p c Hr Hpost).
  - revert b. induction s as [|c s IHs]; intros b; simpl.
    + destruct post as [|c post]; [done |]. simpl in Hpost. simpl.
      by rewrite (lineLocal_class p c Hr Hpost).
    + by rewrite IHs.
  - apply andb_prop in Hr as [Hr1 Hr2]. rewrite IH1 by done.
    apply bt_ext. intros [b' s' g']. simpl. by apply IH2.
  - apply andb_prop in Hr as [Hr1 Hr2]. by rewrite IH1, IH2.
Qed.

Lemma reaches_refl x : reaches x x.
Proof. by exists "". Qed.

Lemma lastOf_append (b : option ascii) (t u : string) :
  lastOf b (t +:+ u) = lastOf (lastOf b t) u.
Proof. revert b. induction t as [|c t IH]; intros b; simpl; [done | apply IH]. Qed.

Lemma reaches_trans x y z : reaches x y -> reaches y z -> reaches x z.
Proof.
  intros (t & Ht & Hb & Hg) (u & Hu & Hb' & Hg'). exists (t +:+ u).
  rewrite append_assoc, <- Hu, Ht, lastOf_append, <- Hb. by rewrite Hg', Hg.
Qed.

Lemma reaches_step b c s g :
  reaches (mkCursor b (String c s) g) (mkCursor (Some c) s g).
Proof. by exists (String c ""). Qed.

Lemma star_ext_reach (p : ascii -> bool) k k' :
  forall s b g,
    (forall y, reaches (mkCursor b s g) y -> k y = k' y) ->
    star p k b s g = star p k' b s g.
Proof.
  induction s as [|c s IH]; intros b g Hk; simpl.
  - apply Hk, reaches_refl.
  - rewrite (Hk _ (reaches_refl _)). destruct (p c); [| done].
    rewrite IH; [done |]. intros y Hy. apply Hk.
    eapply reaches_trans; [apply reaches_step | done].
Qed.

(** Without groups the continuation matters only at the positions reached
    by reading on. *)
Lemma bt_ext_reach r : lineLocal r = true -> forall x k k',
  (forall y, reaches x y -> k y = k' y) -> bt r x k = bt r x k'.
Proof.
  induction r as [| | |p|p|r1 IH1 r2 IH2|r1 IH1 r2 IH2|r1 IH1];
    intros Hr x k k' Hk; simpl in *; try done.
  - apply Hk, reaches_refl.
  - by rewrite (Hk _ (reaches_refl _)).
  - destruct x as [b [|c s] g]; simpl; [done |].
    rewrite (Hk _ (reaches_step b c s g)). done.
  - destruct x as [b s g]. by apply star_ext_reach.
  - apply andb_prop in Hr as [Hr1 Hr2]. apply IH1; [done |].
    intros y Hy. apply IH2; [done |]. intros z Hz. apply Hk.
    by eapply reaches_trans.
  - apply andb_prop in Hr as [Hr1 Hr2].
    by rewrite (IH1 Hr1 x k k' Hk), (IH2 Hr2 x k k' Hk).
Qed.
End MatcherProofs.

Section MatcherAnswers.
Context {A : Type}.
Implicit Types (r : regex) (k : cursor -> option A) (x y : cursor).

Lemma star_const (p : ascii -> bool) (C : cursor -> bool) (c : option A) :
  forall s b g,
    star p (fun y => if C y then c else None) b s g
    = match star p (fun y => if C y then Some tt else None) b s g with
      | Some _ => c
      | None => None
      end.
Proof.
  induction s as [|c0 s IH]; intros b g; simpl.
  - by destruct (C _).
  - destruct (p c0); [| by destruct (C _)].
    rewrite IH. by destruct (star p _ (Some c0) s g), c, (C _).
Qed.

(** When the continuation gives one answer wherever it accepts, it is enough
    to know whether it accepts somewhere. *)
Lemma bt_const r : forall x (C : cursor -> bool) (c : option A),
  bt r x (fun y => if C y then c else None)
  = match bt r x (fun y => if C y then Some tt else None) with
    | Some _ => c
    | None => None
    end.
Proof.
  induction r as [| | |p|p|r1 IH1 r2 IH2|r1 IH1 r2 IH2|r1 IH1];
    intros x C c; simpl.
  - by destruct (C x).
  - destruct (at_bol x); [by destruct (C x) | done].
  - destruct (at_eol x); [by destruct (C x) | done].
  - destruct (rest x) as [|c0 s]; [done |].
    destruct (p c0); [by destruct (C _) | done].
  - apply star_const.
  - pose (C' := fun y =>
      match bt r2 y (fun z => if C z then Some tt else None) with
      | Some _ => true
      | None => false
      end).
    rewrite (bt_ext r1 x _ (fun y => if C' y then c else None)).
    2:{ intros y. rewrite IH2. unfold C'. by destruct (bt r2 y _). }
    rewrite IH1.
    rewrite (bt_ext r1 x _
               (fun y => bt r2 y (fun z => if C z then Some tt else None)));
      [done |].
    intros y. unfold C'. by destruct (bt r2 y _) as [[]|].
  - rewrite IH1, IH2.
    by destruct (bt r1 x _), c, (bt r2 x _).
  - apply (IH1 x (fun y => C (mkCursor (before y) (rest y) _))).
Qed.

Lemma star_rest (p : ascii -> bool) k :
  (forall y y', rest y = rest y' -> k y = k y') ->
  forall s b b' g g', star p k b s g = star p k b' s g'.
Proof.
  intros Hk. induction s as [|c s IH]; intros b b' g g'; simpl.
  - by apply Hk.
  - rewrite (IH (Some c) (Some c) g g').
    by rewrite (Hk (mkCursor b (String c s) g) (mkCursor b' (String c s) g')).
Qed.

(** An expression that reads within a line looks at the text only. *)
Lemma bt_rest r : lineLocal r = true -> forall k,
  (forall y y', rest y = rest y' -> k y = k y') ->
  forall x x', rest x = rest x' -> bt r x k = bt r x' k.
Proof.
  induction r as [| | |p|p|r1 IH1 r2 IH2|r1 IH1 r2 IH2|r1 IH1];
    intros Hr k Hk x x' Hx; simpl in *; try done.
  - by apply Hk.
  - unfold at_eol. rewrite Hx. destruct (lineEnd (rest x')); [by apply Hk | done].
  - rewrite Hx. destruct (rest x') as [|c s]; [done |].
    destruct (p c); [by apply Hk | done].
  - rewrite Hx. by apply star_rest.
  - apply andb_prop in Hr as [Hr1 Hr2]. apply IH1; [done | | done].
    intros y y' Hy. by apply IH2.
  - apply andb_prop in Hr as [Hr1 Hr2].
    by rewrite (IH1 Hr1 k Hk x x' Hx), (IH2 Hr2 k Hk x x' Hx).
Qed.

(** one or more of a class, before a continuation that refuses every
    position beginning in the class *)
Lemma plus_run (p : ascii -> bool) k :
  (forall b c s g, p c = true -> k (mkCursor b (String c s) g) = None) ->
  forall s b g,
    bt (PlusC p) (mkCursor b s g) k
    = if String.eqb (run p s) "" then None
      else k (mkCursor (lastOf b (run p s)) (skip p s) g).
Proof.
  intros Hk s b g. unfold PlusC. simpl. destruct s as [|c s]; simpl; [done |].
  destruct (p c); [| done]. simpl. by apply star_run.
Qed.

Lemma bt_Lit (lit : string) k : forall s b g,
  bt (Lit lit) (mkCursor b s g) k
  = match dropLit lit s with
    | Some s' => k (mkCursor (lastOf b lit) s' g)
    | None => None
    end.
Proof.
  induction lit as [|a lit IH]; intros s b g; simpl; [done |].
  destruct s as [|c s]; [done |]. destruct (isChar a c) eqn:Hc; [| done].
  apply Ascii.eqb_eq in Hc as ->. apply IH.
Qed.
End MatcherAnswers.

Lemma lineEnd_skip_notTerm (s : string) : lineEnd (skip notTerm s) = true.
Proof.
  induction s as [|c s IH]; simpl; [done |]. unfold notTerm at 1.
  destruct (isLineTerminator c) eqn:Hc; simpl; [done | apply IH].
Qed.

Lemma lastOf_line (b : option ascii) (body : string) :
  body <> "" -> allOf notTerm body = true ->
  match lastOf b body with
  | Some c => isLineTerminator c = false
  | None => False
  end.
Proof.
  revert b. induction body as [|c body IH]; intros b Hne Hall; [done |].
  simpl in *. apply andb_prop in Hall as [Hc Hall].
  destruct body as [|c' body]; simpl.
  - unfold notTerm in Hc. by destruct (isLineTerminator c).
  - by apply (IH (Some c)).
Qed.

(** On a line an expression that ends at the end of a line ends at the end
    of the text, so that its end position is known beforehand. *)
Lemma bt_line_end {A} (r : regex) (k : cursor -> option A)
    (b : option ascii) (body : string) (g : option string) :
  lineLocal r = true -> allOf notTerm body = true ->
  bt (Seq r Eol) (mkCursor b body g) k
  = match bt (Seq r Eol) (mkCursor None body None) (fun _ => Some tt) with
    | Some _ => k (mkCursor (lastOf b body) "" g)
    | None => None
    end.
Proof.
  intros Hr Hbody. simpl.
  rewrite (bt_ext_reach r Hr _ _
             (fun y => if at_eol y then k (mkCursor (lastOf b body) "" g) else None)).
  2:{ intros [b' s' g'] (t & Ht & Hb & Hg). simpl in *. unfold at_eol. simpl.
      destruct s' as [|c s']; simpl.
      - rewrite append_nil_r in Ht. by subst.
      - assert (Hc : isLineTerminator c = false); [| by rewrite Hc].
        subst body. clear -Hbody. induction t as [|c' t IH]; simpl in Hbody.
        + apply andb_prop in Hbody as [Hc _]. unfold notTerm in Hc.
          by destruct (isLineTerminator c).
        + apply andb_prop in Hbody as [_ Hbody]. by apply IH. }
  rewrite bt_const.
  assert (Hk : forall y y', rest y = rest y' ->
            (if at_eol y then Some tt else None)
            = (if at_eol y' then Some tt else None)).
  { intros y y' Hy. unfold at_eol. by rewrite Hy. }
  by rewrite (bt_rest r Hr _ Hk (mkCursor b body g) (mkCursor None body None) eq_refl).
Qed.

(** ** What an expression reads

    The matcher finds a match exactly where the expression can read a
    text, whatever the order in which it tries. *)

Section MatcherReads.
Context {A : Type}.
Implicit Types k : cursor -> option A.

Lemma star_zero (p : ascii -> bool) k (b : option ascii) (s : string)
    (g : option string) :
  star p k b s g = None -> k (mkCursor b s g) = None.
Proof.
  destruct s as [|c s]; simpl; [done |]. destruct (p c); [| done].
  by destruct (star p k (Some c) s g).
Qed.

Lemma star_reads_complete (p : ascii -> bool) k (rem : string)
    (g : option string) :
  forall (t : string) (b : option ascii),
    allOf p t = true ->
    k (mkCursor (lastOf b t) rem g) <> None ->
    star p k b (t +:+ rem) g <> None.
Proof.
  induction t as [|c t IH]; intros b Ht Hk; simpl in *.
  - intros Hnone. by apply star_zero in Hnone.
  - apply andb_prop in Ht as [-> Ht].
    specialize (IH (Some c) Ht Hk).
    by destruct (star p k (Some c) (t +:+ rem) g).
Qed.

Lemma star_reads_sound (p : ascii -> bool) k (g : option string) (a : A) :
  forall (s : string) (b : option ascii),
    star p k b s g = Some a ->
    exists t rem, s = t +:+ rem /\ allOf p t = true
      /\ k (mkCursor (lastOf b t) rem g) = Some a.
Proof.
  induction s as [|c s IH]; intros b; simpl.
  - intros Hk. by exists "", "".
  - destruct (p c) eqn:Hc.
    + destruct (star p k (Some c) s g) as [a'|] eqn:Hstar; simpl.
      * intros [= <-]. destruct (IH _ Hstar) as (t & rem & -> & Ht & Hk).
        exists (String c t), rem. simpl. by rewrite Hc.
      * intros Hk. by exists "", (String c s).
    + intros Hk. by exists "", (String c s).
Qed.

Lemma bt_reads_complete (r : regex) :
  lineLocal r = true ->
  forall (t rem : string) (b : option ascii) (g : option string) k,
    reads r t rem ->
    k (mkCursor (lastOf b t) rem g) <> None ->
    bt r (mkCursor b (t +:+ rem) g) k <> None.
Proof.
  induction r as [| | |p|p|r1 IH1 r2 IH2|r1 IH1 r2 IH2|r1 IH1];
    intros Hr t rem b g k; simpl in *; try done.
  - by intros ->.
  - intros [-> Hend]. simpl. unfold at_eol. simpl. by rewrite Hend.
  - intros (c & -> & Hc). simpl. by rewrite Hc.
  - apply star_reads_complete.
  - apply andb_prop in Hr as [Hr1 Hr2].
    intros (t1 & t2 & -> & H1 & H2) Hk. rewrite append_assoc.
    apply (IH1 Hr1 t1 (t2 +:+ rem) b g); [done |].
    apply (IH2 Hr2 t2 rem _ g); [done |]. by rewrite <- lastOf_append.
  - apply andb_prop in Hr as [Hr1 Hr2]. intros [H1 | H2] Hk.
    + specialize (IH1 Hr1 t rem b g k H1 Hk).
      by destruct (bt r1 (mkCursor b (t +:+ rem) g) k).
    + specialize (IH2 Hr2 t rem b g k H2 Hk).
      by destruct (bt r1 (mkCursor b (t +:+ rem) g) k).
Qed.

Lemma bt_reads_sound (r : regex) :
  lineLocal r = true ->
  forall (s : string) (b : option ascii) (g : option string) k (a : A),
    bt r (mkCursor b s g) k = Some a ->
    exists t rem, s = t +:+ rem /\ reads r t rem
      /\ k (mkCursor (lastOf b t) rem g) = Some a.
Proof.
  induction r as [| | |p|p|r1 IH1 r2 IH2|r1 IH1 r2 IH2|r1 IH1];
    intros Hr s b g k a; simpl in *; try done.
  - intros Hk. by exists "", s.
  - unfold at_eol. simpl. destruct (lineEnd s) eqn:Hend; [| done].
    intros Hk. by exists "", s.
  - destruct s as [|c s]; [done |]. destruct (p c) eqn:Hc; [| done].
    intros Hk. exists (String c ""), s. split; [done |]. split; [| done].
    by exists c.
  - apply star_reads_sound.
  - apply andb_prop in Hr as [Hr1 Hr2].
    intros (t1 & rem1 & -> & H1 & Hk1)%(IH1 Hr1).
    apply (IH2 Hr2) in Hk1 as (t2 & rem & -> & H2 & Hk).
    exists (t1 +:+ t2), rem. rewrite append_assoc, lastOf_append.
    split; [done |]. split; [| done]. by exists t1, t2.
  - apply andb_prop in Hr as [Hr1 Hr2].
    destruct (bt r1 (mkCursor b s g) k) as [a'|] eqn:Hbt; simpl.
    + intros [= <-].
      destruct (IH1 Hr1 _ _ _ _ _ Hbt) as (t & rem & -> & H1 & Hk).
      exists t, rem. by eauto.
    + intros (t & rem & -> & H2 & Hk)%(IH2 Hr2).
      exists t, rem. by eauto.
Qed.
End MatcherReads.

Lemma reads_Lit (lit t rem : string) : reads (Lit lit) t rem <-> t = lit.
Proof.
  revert t. induction lit as [|a lit IH]; intros t; simpl; [done |]. split.
  - intros (t1 & t2 & -> & (c & -> & Hc) & ->%IH).
    by apply Ascii.eqb_eq in Hc as ->.
  - intros ->. exists (String a ""), lit. split; [done |].
    split; [| by apply IH]. exists a. split; [done |]. apply Ascii.eqb_refl.
Qed.

Lemma reads_PlusC (p : ascii -> bool) (t rem : string) :
  reads (PlusC p) t rem <-> t <> "" /\ allOf p t = true.
Proof.
  simpl. split.
  - intros (t1 & t2 & -> & (c & -> & Hc) & Ht). simpl. by rewrite Hc, Ht.
  - intros [Hne Ht]. destruct t as [|c t]; [done |]. simpl in Ht.
    apply andb_prop in Ht as [Hc Ht].
    exists (String c ""), t. split; [done |]. split; [by exists c | done].
Qed.

Module YamlTangramProofs.
Import YamlTangram Spec.

(** *** The regular expression of [getLineTag] *)

Lemma isWord_not_space (c : ascii) : isSpace c = true -> isWord c = false.
Proof. destruct c as [[] [] [] [] [] [] [] []]; vm_compute; congruence. Qed.

Lemma isWord_not_colon (c : ascii) : isWord c = true -> isChar ":" c = false.
Proof. destruct c as [[] [] [] [] [] [] [] []]; vm_compute; congruence. Qed.

Lemma matchAt_tagRegex (x : cursor) :
  matchAt tagRegex x = tagAt (before x) (rest x).
Proof.
  unfold matchAt, tagAt, tagRegex. simpl.
  destruct (at_bol _); [| done].
  rewrite star_run.
  2:{ intros b c s g Hc. simpl. by rewrite (isWord_not_space c Hc). }
  simpl. destruct (skip isSpace (rest x)) as [|c r] eqn:Hr; simpl; [done |].
  destruct (isWord c) eqn:Hc; simpl; [| done].
  rewrite star_run.
  2:{ intros b' c' s' g' Hc'. simpl. by rewrite (isWord_not_colon c' Hc'). }
  simpl. destruct (skip isWord r) as [|c' r'] eqn:Hr'; simpl; [done |].
  destruct (isChar ":" c'); [| done].
  do 3 f_equal.
  change (String c r) with (String c "" +:+ r).
  rewrite <- (run_skip isWord r) at 1. rewrite Hr'.
  rewrite <- append_assoc. by rewrite consumed_append.
Qed.

Lemma tagAt_keyName (b : option ascii) (s : string) (y : cursor) :
  tagAt b s = Some y ->
  exists w, group1 y = Some w /\ isKeyName w = true.
Proof.
  unfold tagAt. destruct (at_bol _); [| done].
  destruct (run isWord (skip isSpace s)) as [|c w] eqn:Hw; [done |].
  destruct (skip isWord _) as [|c' r']; [done |].
  destruct (isChar ":" c'); [| done].
  intros [= <-]. exists (String c w). split; [done |].
  unfold isKeyName. simpl negb. rewrite <- Hw. by rewrite allOf_run.
Qed.

Lemma exec_from_tagRegex (s : string) :
  forall (i : nat) (b : option ascii) (m : matchResult),
    exec_from tagRegex i b s = Some m ->
    exists w, m_group1 m = Some w /\ isKeyName w = true.
Proof.
  induction s as [|c s IH]; intros i b m; simpl;
    rewrite matchAt_tagRegex; simpl.
  - destruct (tagAt b "") as [y|] eqn:Hy; [| done].
    intros [= <-]. simpl. by eapply tagAt_keyName.
  - destruct (tagAt b (String c s)) as [y|] eqn:Hy.
    + intros [= <-]. simpl. by eapply tagAt_keyName.
    + apply IH.
Qed.

(** [regex.exec] of [getLineTag] captures a key name. *)
Lemma exec_tagRegex (text : string) (m : matchResult) :
  exec tagRegex text = Some m ->
  exists w, m_group1 m = Some w /\ isKeyName w = true.
Proof. apply exec_from_tagRegex. Qed.

(** *** [getLineTag] *)

Lemma truthyName_keyName (w : string) :
  isKeyName w = true -> truthyName (Some w) = true.
Proof. unfold isKeyName, truthyName. by intros [? _]%andb_prop. Qed.

Lemma getLineTag_rec_spec (cm : CodeMirror) :
  forall (fuel : nat) (nLine : Z),
    nLine < Z.of_nat fuel ->
    match getLineTag_rec fuel cm nLine with
    | Ok None =>
        (* no line at or above [nLine] holds a key *)
        nLine < lineCount cm
        /\ forall i text, 0 <= i <= nLine -> lineInfo cm i = Some text ->
             exec tagRegex text = None
    | Ok (Some tag) =>
        (* the nearest line at or above [nLine] that holds a key *)
        0 <= line tag <= nLine
        /\ (exists text m w,
              lineInfo cm (line tag) = Some text
              /\ exec tagRegex text = Some m
              /\ name tag = Some w /\ m_group1 m = Some w
              /\ isKeyName w = true)
        /\ forall i text, line tag < i <= nLine -> lineInfo cm i = Some text ->
             exec tagRegex text = None
    | Throw e => e = TypeError /\ lineCount cm <= nLine
    | Diverge => False
    end.
Proof.
  induction fuel as [|fuel IH]; intros nLine Hfuel; simpl.
  - destruct (Z.leb_spec 0 nLine); [lia |]. unfold lineCount.
    split; [lia |]. intros i text Hi. lia.
  - destruct (Z.leb_spec 0 nLine) as [Hn | Hn].
    2:{ unfold lineCount. split; [lia |]. intros i text Hi. lia. }
    destruct (lineInfo cm nLine) as [text|] eqn:Htext.
    2:{ split; [done |]. unfold lineInfo in Htext.
        destruct (Z.ltb_spec nLine (lineCount cm)) as [Hlt | Hge]; [| lia].
        rewrite andb_true_r in Htext.
        destruct (Z.leb_spec 0 nLine); [| lia].
        apply lookup_ge_None in Htext. unfold lineCount in Hlt. lia. }
    assert (Hin : nLine < lineCount cm).
    { unfold lineInfo in Htext.
      destruct (Z.ltb_spec nLine (lineCount cm)); [done |].
      by rewrite andb_false_r in Htext. }
    destruct (exec tagRegex text) as [m|] eqn:Hm.
    + destruct (exec_tagRegex _ _ Hm) as (w & Hw & Hkey). simpl.
      split; [lia |]. split; [by exists text, m, w |].
      intros i text' Hi. lia.
    + specialize (IH (nLine - 1) ltac:(lia)).
      destruct (getLineTag_rec fuel cm (nLine - 1)) as [[tag|] | e |].
      * destruct IH as (Hr & Hex & Hnone). split; [lia |]. split; [done |].
        intros i text' Hi Hi'.
        destruct (decide (i = nLine)) as [-> | Hne]; [congruence |].
        eapply Hnone; [| done]. lia.
      * destruct IH as (Hr & Hnone). split; [done |].
        intros i text' Hi Hi'.
        destruct (decide (i = nLine)) as [-> | Hne]; [congruence |].
        eapply Hnone; [| done]. lia.
      * destruct IH as [-> Hge]. lia.
      * done.
Qed.

(** *** [tagsToAddress] *)

Lemma tagsToAddress_loop_spec (tags : list string) :
  forall (n i : nat) (acc : string),
    (i + n)%nat = length tags ->
    tagsToAddress_loop tags acc i n = acc +:+ address (drop i tags).
Proof.
  induction n as [|n IH]; intros i acc Hlen; simpl.
  - rewrite drop_ge by lia. simpl. by rewrite append_nil_r.
  - destruct (lookup_lt_is_Some_2 tags i) as [t Ht]; [lia |].
    rewrite IH by lia. rewrite Ht. simpl.
    rewrite (drop_S _ _ _ Ht). unfold address.
    rewrite fmap_cons, concat_cons. by rewrite !append_assoc.
Qed.

Lemma tagsToAddress_is_address (tags : list string) :
  tagsToAddress tags = address tags.
Proof.
  unfold tagsToAddress.
  rewrite tagsToAddress_loop_spec by done. by rewrite drop_0.
Qed.

(** C6: [tagsToAddress] prefixes every tag with ["/"] and concatenates the
    results in list order; the empty list gives the empty string, and the
    address of a list that is not empty begins with ["/"]. *)
Theorem tagsToAddress_address :
  (forall tags : list string, tagsToAddress tags = address tags)
  /\ tagsToAddress [] = ""
  /\ (forall (t : string) (tags : list string),
        String.prefix "/" (tagsToAddress (t :: tags)) = true).
Proof.
  split; [exact tagsToAddress_is_address | split; [done |]].
  intros t tags. rewrite tagsToAddress_is_address. unfold address.
  rewrite fmap_cons, concat_cons, append_assoc. apply (prefix_append "/").
Qed.

Lemma getLineTag_spec (cm : CodeMirror) (nLine : Z) :
  match getLineTag cm nLine with
  | Ok None =>
      nLine < lineCount cm
      /\ forall i text, 0 <= i <= nLine -> lineInfo cm i = Some text ->
           exec tagRegex text = None
  | Ok (Some tag) =>
      0 <= line tag <= nLine
      /\ (exists text m w,
            lineInfo cm (line tag) = Some text
            /\ exec tagRegex text = Some m
            /\ name tag = Some w /\ m_group1 m = Some w
            /\ isKeyName w = true)
      /\ forall i text, line tag < i <= nLine -> lineInfo cm i = Some text ->
           exec tagRegex text = None
  | Throw e => e = TypeError /\ lineCount cm <= nLine
  | Diverge => False
  end.
Proof. apply getLineTag_rec_spec. lia. Qed.

Lemma getLineTag_name (cm : CodeMirror) (nLine : Z) (tag : Tag) :
  getLineTag cm nLine = Ok (Some tag) ->
  exists w, name tag = Some w /\ isKeyName w = true.
Proof.
  intros Htag. pose proof (getLineTag_spec cm nLine) as Hspec.
  rewrite Htag in Hspec. destruct Hspec as (_ & (text & m & w & Hw) & _).
  exists w. tauto.
Qed.

(** *** [getInverseTags] and [getTags] *)

Section Tags.
Context `{LineTools}.

Lemma getInverseTags_loop_stop (fuel : nat) (cm : CodeMirror)
    (tags : list string) (n level : Z) :
  level <= 0 -> getInverseTags_loop fuel cm tags n level = Ok tags.
Proof.
  intros Hl. destruct fuel; simpl; by destruct (Z.gtb_spec level 0); [lia |].
Qed.

Lemma getInverseTags_loop_path (cm : CodeMirror) :
  forall (fuel : nat) (tags : list string) (n level : Z) (inv : list string),
    0 < level ->
    getInverseTags_loop fuel cm tags n level = Ok inv ->
    exists path, inv = tags ++ path /\ loopPath cm n path = true.
Proof.
  induction fuel as [|fuel IH]; intros tags n level inv Hl; simpl;
    destruct (Z.gtb_spec level 0); try lia; [done |].
  destruct (getLineTag cm n) as [[tag|] | e |] eqn:Htag; simpl; try done.
  destruct (getLineTag_name _ _ _ Htag) as (w & Hw & Hkey).
  rewrite Hw, (truthyName_keyName w Hkey). simpl.
  destruct (Z.le_gt_cases (getIndLevel cm (line tag)) 0) as [Hle | Hgt].
  - rewrite getInverseTags_loop_stop by done. intros [= <-].
    exists [w]. split; [done |]. simpl. rewrite Htag, Hw.
    destruct (Z.gtb_spec (getIndLevel cm (line tag)) 0); [lia |].
    by rewrite !bool_decide_eq_true_2.
  - intros Hinv. apply IH in Hinv as (path & -> & Hpath); [| lia].
    exists (w :: path). split; [by rewrite <- app_assoc |].
    simpl. rewrite Htag, Hw.
    destruct (Z.gtb_spec (getIndLevel cm (line tag)) 0); [| lia].
    by rewrite bool_decide_eq_true_2.
Qed.

Lemma loopPath_loop (cm : CodeMirror) :
  forall (path tags : list string) (n level : Z),
    0 < level ->
    loopPath cm n path = true ->
    getInverseTags_loop (length path) cm tags n level = Ok (tags ++ path).
Proof.
  induction path as [|t path IH]; intros tags n level Hl; simpl; [done |].
  destruct (Z.gtb_spec level 0); [| lia].
  destruct (getLineTag cm n) as [[tag|] | e |] eqn:Htag; simpl; try done.
  destruct (getLineTag_name _ _ _ Htag) as (w & Hw & Hkey).
  intros [Hname Hrest]%andb_prop. apply bool_decide_eq_true_1 in Hname.
  assert (w = t) as -> by congruence.
  rewrite Hw, (truthyName_keyName t Hkey). simpl.
  destruct (Z.gtb_spec (getIndLevel cm (line tag)) 0) as [Hgt | Hle].
  - rewrite IH by (done || lia). by rewrite <- app_assoc.
  - apply bool_decide_eq_true_1 in Hrest as ->.
    by rewrite getInverseTags_loop_stop.
Qed.

Lemma getInverseTags_keyNames (fuel : nat) (cm : CodeMirror) (nLine : Z)
    (inv : list string) :
  getInverseTags fuel cm nLine = Ok inv ->
  loopPath cm nLine inv = true.
Proof.
  intros Hinv. apply getInverseTags_loop_path in Hinv as (path & -> & Hp);
    [done | lia].
Qed.

Lemma getTags_loop_spec (invTags : list string) :
  forall (k : nat) (tags : list string),
    (k <= length invTags)%nat ->
    getTags_loop invTags tags k = tags ++ reverse (take k invTags).
Proof.
  induction k as [|i IH]; intros tags Hk; simpl.
  - by rewrite app_nil_r.
  - destruct (lookup_lt_is_Some_2 invTags i) as [t Ht]; [lia |].
    rewrite IH by lia. rewrite Ht. simpl.
    rewrite (take_S_r _ _ _ Ht), reverse_snoc. simpl.
    by rewrite <- app_assoc.
Qed.

Lemma getTags_rev (fuel : nat) (cm : CodeMirror) (nLine : Z) :
  getTags fuel cm nLine = reverse <$> getInverseTags fuel cm nLine.
Proof.
  unfold getTags. destruct (getInverseTags fuel cm nLine) as [inv | e |];
    simpl; [| done | done].
  rewrite getTags_loop_spec by done. by rewrite take_ge.
Qed.

Lemma loopPath_nearest (cm : CodeMirror) (n : Z) (path : list string) :
  loopPath cm n path = true ->
  exists l w, head path = Some w /\ nearestKey cm n l w.
Proof.
  destruct path as [|t path]; simpl; [done |].
  pose proof (getLineTag_spec cm n) as Hspec.
  destruct (getLineTag cm n) as [[tag|] | e |]; try done.
  destruct Hspec as (Hr & (text & m & w & Htext & Hm & Hname & Hg & _) & Hnone).
  intros [Ht _]%andb_prop. apply bool_decide_eq_true_1 in Ht.
  assert (w = t) as -> by congruence.
  exists (line tag), t. split; [done |]. split; [done |]. split; [| done].
  by exists text, m.
Qed.

(** C2, which the code does not meet: when no line at or above [nLine]
    holds a key, [getLineTag] yields [undefined] and [getInverseTags]
    raises a TypeError at [tag.name] instead of returning a list. *)
Theorem getInverseTags_without_key (cm : CodeMirror) (nLine : Z) (fuel : nat) :
  0 <= nLine < lineCount cm ->
  (forall i text, 0 <= i <= nLine -> lineInfo cm i = Some text ->
     exec tagRegex text = None) ->
  getLineTag cm nLine = Ok None
  /\ getInverseTags (S fuel) cm nLine = Throw TypeError.
Proof.
  intros Hn Hnone. pose proof (getLineTag_spec cm nLine) as Hspec.
  assert (Htag : getLineTag cm nLine = Ok None).
  { destruct (getLineTag cm nLine) as [[tag|] | e |]; [| done | | done].
    - destruct Hspec as (Hr & (text & m & w & Htext & Hm & _) & _).
      rewrite (Hnone (line tag) text) in Hm by (done || lia). done.
    - destruct Hspec as [_ Hge]. lia. }
  split; [done |]. unfold getInverseTags. simpl. by rewrite Htag.
Qed.

Lemma getInverseTags_no_key (cm : CodeMirror) (nLine : Z) (fuel : nat) :
  0 <= nLine < lineCount cm ->
  (forall i text, 0 <= i <= nLine -> lineInfo cm i = Some text ->
     exec tagRegex text = None) ->
  getInverseTags (S fuel) cm nLine = Throw TypeError.
Proof.
  intros Hn Hnone. pose proof (getLineTag_spec cm nLine) as Hspec.
  unfold getInverseTags. simpl.
  destruct (getLineTag cm nLine) as [[tag|] | e |]; [| done | | done].
  - destruct Hspec as (Hr & (text & m & w & Htext & Hm & _) & _).
    rewrite (Hnone (line tag) text) in Hm by (done || lia). done.
  - destruct Hspec as [_ Hge]. lia.
Qed.

(** C1, which the code does not meet: on a line with no key at or above
    it, where no key encloses the line, [getTags] raises the TypeError of
    [getInverseTags] instead of returning a path. *)
Theorem getTags_without_key (cm : CodeMirror) (nLine : Z) (fuel : nat) :
  0 <= nLine < lineCount cm ->
  (forall i text, 0 <= i <= nLine -> lineInfo cm i = Some text ->
     exec tagRegex text = None) ->
  getTags (S fuel) cm nLine = Throw TypeError.
Proof.
  intros Hn Hnone. unfold getTags.
  by rewrite (getInverseTags_no_key cm nLine fuel Hn Hnone).
Qed.
End Tags.

Example getTags_shaderDoc :
  getTags (H := exampleTools) 5 shaderDoc 5
  = Ok ["styles"; "mystyle"; "shaders"; "blocks"; "color"].
Proof. reflexivity. Qed.

Lemma getTags_without_key_witness :
  getTags (H := exampleTools) 1 noKeyDoc 0 = Throw TypeError.
Proof.
  apply (getTags_without_key (H := exampleTools) noKeyDoc 0 0).
  - vm_compute. split; [discriminate | reflexivity].
  - intros i text Hi. replace i with 0 by lia. vm_compute.
    intros [= <-]. reflexivity.
Defined.

Lemma getInverseTags_without_key_witness :
  getLineTag noKeyDoc 0 = Ok None
  /\ getInverseTags (H := exampleTools) 1 noKeyDoc 0 = Throw TypeError.
Proof.
  apply (getInverseTags_without_key (H := exampleTools) noKeyDoc 0 0).
  - vm_compute. split; [discriminate | reflexivity].
  - intros i text Hi. replace i with 0 by lia. vm_compute.
    intros [= <-]. reflexivity.
Defined.

(** The loop of [getInverseTags] also runs for ever when a key is indented
    and no line above it is one level less: [getParentLine] gives the line
    back, and every turn pushes the same name. *)
Lemma getInverseTags_orphan (fuel : nat) :
  getInverseTags (H := exampleTools) fuel orphanDoc 0 = Diverge.
Proof.
  unfold getInverseTags. generalize (@nil string).
  induction fuel as [|fuel IH]; intros tags; [done |].
  exact (IH (tags ++ ["a"])).
Qed.

(** *** [getColorBlockShader] *)

Lemma indexOf_from_range (needle : string) :
  forall (str : string) (i : Z),
    indexOf_from i str needle = -1 \/ i <= indexOf_from i str needle.
Proof.
  induction str as [|c str IH]; intros i; cbn [indexOf_from].
  - destruct (String.prefix needle ""); [right; lia | by left].
  - destruct (String.prefix needle (String c str)); [right; lia |].
    destruct (IH (i + 1)) as [-> | Hge]; [by left | right; lia].
Qed.

(** [str.indexOf(needle) === 0] says that [str] starts with [needle]. *)
Lemma indexOf_zero (str needle : string) :
  (indexOf str needle =? 0) = String.prefix needle str.
Proof.
  unfold indexOf. destruct str as [|c str]; cbn [indexOf_from].
  - by destruct (String.prefix needle "").
  - destruct (String.prefix needle (String c str)); [done |].
    destruct (indexOf_from_range needle str (0 + 1)) as [-> | Hge]; [done |].
    apply Z.eqb_neq. lia.
Qed.

Lemma isWord_not_slash (c : ascii) : isWord c = true -> c <> "/"%char.
Proof. destruct c as [[] [] [] [] [] [] [] []]; vm_compute; congruence. Qed.

(** A key name followed by nothing or by a slash, against a segment [lit]
    followed by a slash: the key name is the segment. *)
Lemma prefix_segment (lit more : string) :
  allOf isWord lit = true ->
  forall w tail : string,
    allOf isWord w = true ->
    (tail = "" \/ exists t, tail = String "/" t) ->
    String.prefix (lit +:+ String "/" more) (w +:+ tail) = true ->
    w = lit /\ exists t, tail = String "/" t /\ String.prefix more t = true.
Proof.
  induction lit as [|a lit IH]; intros Hlit w tail Hw Htail; simpl.
  - destruct w as [|c w]; simpl.
    + destruct Htail as [-> | [t ->]]; [done |].
      rewrite prefix_cons. intros [_ Hp]%andb_prop. eauto.
    + apply andb_prop in Hw as [Hc _].
      rewrite prefix_cons. intros [Hs _]%andb_prop.
      apply bool_decide_eq_true_1 in Hs as <-.
      by apply isWord_not_slash in Hc.
  - apply andb_prop in Hlit as [Ha Hlit].
    destruct w as [|c w]; simpl.
    + destruct Htail as [-> | [t ->]]; [done |].
      rewrite prefix_cons. intros [Hs _]%andb_prop.
      apply bool_decide_eq_true_1 in Hs as ->.
      by apply isWord_not_slash in Ha.
    + apply andb_prop in Hw as [Hc Hw].
      rewrite prefix_cons. intros [Hs Hp]%andb_prop.
      apply bool_decide_eq_true_1 in Hs as <-.
      destruct (IH Hlit w tail Hw Htail Hp) as (-> & Ht). done.
Qed.

Lemma address_cons (t : string) (tags : list string) :
  address (t :: tags) = String "/" (t +:+ address tags).
Proof. unfold address. by rewrite fmap_cons, concat_cons. Qed.

Lemma address_nil_or_slash (tags : list string) :
  address tags = "" \/ exists t, address tags = String "/" t.
Proof. destruct tags as [|t tags]; [by left | right]. rewrite address_cons. eauto. Qed.

(** An address that starts with [/color/blocks/shaders/] belongs to a list
    of key names that starts with these three names and goes on. *)
Lemma address_shader_block (tags : list string) :
  Forall (fun w => isKeyName w = true) tags ->
  String.prefix "/color/blocks/shaders/" (address tags) = true ->
  exists styleName rest,
    tags = "color" :: "blocks" :: "shaders" :: styleName :: rest.
Proof.
  intros Hall Hp.
  assert (Hword : forall w, isKeyName w = true -> allOf isWord w = true).
  { intros w. unfold isKeyName. by intros [_ ?]%andb_prop. }
  destruct tags as [|t0 tags]; [done |].
  apply Forall_cons in Hall as [H0 Hall]. rewrite address_cons in Hp.
  apply (prefix_segment "color" "blocks/shaders/" eq_refl t0 (address tags)
           (Hword _ H0) (address_nil_or_slash tags)) in Hp as (-> & t & Ht & Hp).
  destruct tags as [|t1 tags]; [done |].
  apply Forall_cons in Hall as [H1 Hall].
  rewrite address_cons in Ht. injection Ht as <-.
  apply (prefix_segment "blocks" "shaders/" eq_refl t1 (address tags)
           (Hword _ H1) (address_nil_or_slash tags)) in Hp as (-> & t & Ht & Hp).
  destruct tags as [|t2 tags]; [done |].
  apply Forall_cons in Hall as [H2 Hall].
  rewrite address_cons in Ht. injection Ht as <-.
  apply (prefix_segment "shaders" "" eq_refl t2 (address tags)
           (Hword _ H2) (address_nil_or_slash tags)) in Hp as (-> & t & Ht & Hp).
  destruct tags as [|t3 tags]; [done |]. eauto.
Qed.

Section ColorBlockProofs.
Context `{LineTools} `{Realm}.

Lemma loopPath_keyNames (cm : CodeMirror) :
  forall (path : list string) (n : Z),
    loopPath cm n path = true ->
    Forall (fun w => isKeyName w = true) path.
Proof.
  induction path as [|t path IH]; intros n; simpl; [done |].
  destruct (getLineTag cm n) as [[tag|] | e |] eqn:Htag; try done.
  destruct (getLineTag_name _ _ _ Htag) as (w & Hw & Hkey).
  intros [Hname Hrest]%andb_prop. apply bool_decide_eq_true_1 in Hname.
  assert (w = t) as -> by congruence.
  constructor; [done |].
  destruct (getIndLevel cm (line tag) >? 0); [by eapply IH |].
  by apply bool_decide_eq_true_1 in Hrest as ->.
Qed.

(** C3, which the code does not meet: on a line with no key at or above
    it, [getColorBlockShader] raises the TypeError of [getInverseTags]
    instead of returning an empty object. *)
Theorem getColorBlockShader_without_key (styles : gmap string value)
    (cm : CodeMirror) (nLine : Z) (fuel : nat) :
  0 <= nLine < lineCount cm ->
  (forall i text, 0 <= i <= nLine -> lineInfo cm i = Some text ->
     exec tagRegex text = None) ->
  getColorBlockShader styles (S fuel) cm nLine = Throw TypeError.
Proof.
  intros Hn Hnone. unfold getColorBlockShader.
  by rewrite (getInverseTags_no_key cm nLine fuel Hn Hnone).
Qed.
End ColorBlockProofs.

Lemma getColorBlockShader_without_key_witness :
  getColorBlockShader (H := exampleTools) (H0 := exampleRealm) exampleStyles
    1 noKeyDoc 0
  = Throw TypeError.
Proof.
  apply (getColorBlockShader_without_key (H := exampleTools)
           (H0 := exampleRealm) exampleStyles noKeyDoc 0 0).
  - vm_compute. split; [discriminate | reflexivity].
  - intros i text Hi. replace i with 0 by lia. vm_compute.
    intros [= <-]. reflexivity.
Defined.

(** a line inside a shader block, and a line outside *)
Example getColorBlockShader_shaderDoc :
  getColorBlockShader (H := exampleTools) (H0 := exampleRealm) exampleStyles
    10 shaderDoc 5
  = Ok (VObj {[ "blocks" := VStr "x" ]})
  /\ getColorBlockShader (H := exampleTools) (H0 := exampleRealm)
       exampleStyles 10 shaderDoc 9
     = Ok (VObj ∅).
Proof. split; reflexivity. Qed.

(** A style named as a member that objects inherit is found in
    [scene.styles] though the scene has no such style: the result is the
    [shaders] of the built-in object, not an empty object. *)
Example getColorBlockShader_inherited :
  getColorBlockShader (H := exampleTools) (H0 := exampleRealm) exampleStyles
    10 constructorDoc 4
  = Ok VUndefined.
Proof. reflexivity. Qed.

(** *** [getYAMLContent] *)

Section YamlContentProofs.
Context `{Realm}.

Lemma nullish_truthy (v : value) : truthy v = true -> nullish v = false.
Proof. by destruct v. Qed.

(** the read of a key that names no inherited member *)
Lemma getProp_dataKey (v : value) (k : string) :
  dataKey k ->
  getProp v k = if nullish v then Throw TypeError else Ok (getOwn v k).
Proof.
  intros Hk. unfold getProp, getOwn. destruct (nullish v); [done |].
  destruct (own v k); [done |]. apply Hk.
Qed.

Lemma getYAMLContent_loop_defined (tags : list string) :
  forall (n i : nat) (tmp : value),
    Forall dataKey (drop i tags) ->
    nullish tmp = false ->
    (i + n)%nat = length tags ->
    getYAMLContent_loop tags tmp i n = Ok (nearestContent tmp (drop i tags)).
Proof.
  induction n as [|n IH]; intros i tmp Hkeys Htmp Hlen; simpl.
  - by rewrite drop_ge by lia.
  - destruct (lookup_lt_is_Some_2 tags i) as [t Ht]; [lia |].
    rewrite (drop_S _ _ _ Ht) in Hkeys |- *.
    apply Forall_cons in Hkeys as [Hk Hkeys].
    rewrite Ht. simpl. rewrite (getProp_dataKey _ _ Hk), Htmp. simpl.
    destruct (truthy (getOwn tmp t)) eqn:Hnext; [| done].
    by rewrite IH by (done || by apply nullish_truthy || lia).
Qed.

(** Once the first tag is there, [getYAMLContent] does return the nearest
    content, for tags that name no inherited member. *)
Lemma getYAMLContent_nearest (sceneConfig : value) (t : string)
    (tags : list string) :
  Forall dataKey (t :: tags) ->
  truthy sceneConfig = true ->
  truthy (getOwn sceneConfig t) = true ->
  getYAMLContent sceneConfig (t :: tags)
  = Ok (nearestContent sceneConfig (t :: tags)).
Proof.
  intros [Hk Hkeys]%Forall_cons Hc Ht. unfold getYAMLContent. simpl.
  rewrite (getProp_dataKey _ _ Hk), (nullish_truthy _ Hc). simpl. rewrite Ht.
  rewrite (getYAMLContent_loop_defined (t :: tags));
    [done | done | by apply nullish_truthy | simpl; lia].
Qed.

(** C5, which the code does not meet for the first tag, which is read
    without the test the loop makes for the others. With an absent first
    tag (a name that objects do not inherit either) the nearest content is
    the scene configuration itself; the code raises a TypeError when more
    tags follow and returns [undefined] when none does. *)
Theorem getYAMLContent_first_tag_unchecked :
  inherited (VObj ∅) "a" = Ok VUndefined ->
  getYAMLContent (VObj ∅) ["a"; "b"] = Throw TypeError
  /\ nearestContent (VObj ∅) ["a"; "b"] = VObj ∅
  /\ getYAMLContent (VObj ∅) ["a"] = Ok VUndefined
  /\ nearestContent (VObj ∅) ["a"] = VObj ∅.
Proof.
  intros Ha. unfold getYAMLContent, getProp. simpl. rewrite Ha.
  repeat split; reflexivity.
Qed.

(** The same with a first tag that is there and holds [null]: the code
    reads nothing that could be inherited, and raises the TypeError
    whatever objects inherit. *)
Example getYAMLContent_null_first_tag :
  getYAMLContent (VObj {[ "a" := VNull ]}) ["a"; "b"] = Throw TypeError
  /\ nearestContent (VObj {[ "a" := VNull ]}) ["a"; "b"]
     = VObj {[ "a" := VNull ]}.
Proof. split; vm_compute; reflexivity. Qed.

(** X6: [getYAMLContent] on every input, for tags that name no member a
    value inherits. It raises a TypeError when the scene configuration is
    [undefined] or [null], whatever the tags, and when the value of the
    first tag is and a second tag follows. Otherwise it returns: the value
    of the first tag, whatever it is, when no other tag follows (an empty
    list reads the key ["undefined"]); else the content nearest to the
    remaining tags, from the value of the first tag. *)
Theorem getYAMLContent_answer (sceneConfig : value) (tags : list string) :
  (nullish sceneConfig = true ->
   getYAMLContent sceneConfig tags = Throw TypeError)
  /\ (Forall dataKey (propKey (tags !! 0%nat) :: drop 1 tags) ->
      getYAMLContent sceneConfig tags
      = if nullish sceneConfig then Throw TypeError
        else
          let first := getOwn sceneConfig (propKey (tags !! 0%nat)) in
          if (length tags <=? 1)%nat then Ok first
          else if nullish first then Throw TypeError
          else Ok (nearestContent first (drop 1 tags))).
Proof.
  unfold getYAMLContent. split.
  - intros Hc. unfold getProp. by rewrite Hc.
  - intros [Hk Hkeys]%Forall_cons. rewrite (getProp_dataKey _ _ Hk).
    destruct (nullish sceneConfig); [done |]. simpl.
    destruct (Nat.leb_spec (length tags) 1) as [Hlen | Hlen].
    + by replace (length tags - 1)%nat with 0%nat by lia.
    + destruct (length tags - 1)%nat as [|n] eqn:Hn; [lia |].
      destruct (nullish (getOwn _ _)) eqn:Hfirst.
      * simpl. unfold getProp. by rewrite Hfirst.
      * rewrite <- Hn. apply getYAMLContent_loop_defined; [done | done | lia].
Qed.
End YamlContentProofs.

Lemma getYAMLContent_first_tag_unchecked_witness :
  getYAMLContent (H := exampleRealm) (VObj ∅) ["a"; "b"] = Throw TypeError
  /\ nearestContent (VObj ∅) ["a"; "b"] = VObj ∅
  /\ getYAMLContent (H := exampleRealm) (VObj ∅) ["a"] = Ok VUndefined
  /\ nearestContent (VObj ∅) ["a"] = VObj ∅.
Proof.
  exact (getYAMLContent_first_tag_unchecked (H := exampleRealm) eq_refl).
Defined.

Lemma getYAMLContent_answer_witness :
  getYAMLContent (H := exampleRealm)
    (VObj {[ "sources" := VObj {[ "osm" := VStr "x" ]} ]})
    ["sources"; "osm"; "type"]
  = Ok (VStr "x").
Proof.
  rewrite (proj2 (getYAMLContent_answer (H := exampleRealm)
                    (VObj {[ "sources" := VObj {[ "osm" := VStr "x" ]} ]})
                    ["sources"; "osm"; "type"])); [reflexivity |].
  repeat constructor.
Defined.

(** a tag that names a member objects inherit reads the built-in object *)
Example getYAMLContent_inherited :
  getYAMLContent (H := exampleRealm) (VObj ∅) ["constructor"]
  = Ok (VBuiltin "Object")
  /\ nearestContent (VObj ∅) ["constructor"] = VObj ∅.
Proof. split; reflexivity. Qed.

(** *** [getParentLine] *)

Section ParentLine.
Context `{LineTools}.

Lemma getParentLine_loop_spec (cm : CodeMirror) (level nLine : Z) :
  forall k : nat,
    Z.of_nat k <= nLine ->
    let good j := isEmpty cm j = false /\ getIndLevel cm j = level - 1 in
    let p := getParentLine_loop cm level nLine k in
    (0 <= p < Z.of_nat k /\ good p
     /\ forall j, p < j < Z.of_nat k -> ~ good j)
    \/ (p = nLine /\ forall j, 0 <= j < Z.of_nat k -> ~ good j).
Proof.
  induction k as [|i IH]; intros Hk good p.
  - right. split; [done | intros j Hj; lia].
  - subst p. simpl.
    destruct (isEmpty cm (Z.of_nat i)) eqn:He; simpl.
    + destruct IH as [(Hp & Hg & Hmax) | (Hp & Hnone)]; [lia | left | right].
      * split; [lia |]. split; [done |]. intros j Hj.
        destruct (decide (j = Z.of_nat i)) as [-> | Hne].
        -- intros [Hgood _]. congruence.
        -- apply Hmax. lia.
      * split; [done |]. intros j Hj.
        destruct (decide (j = Z.of_nat i)) as [-> | Hne].
        -- intros [Hgood _]. congruence.
        -- apply Hnone. lia.
    + destruct (Z.eqb_spec (getIndLevel cm (Z.of_nat i)) (level - 1)) as [Hl | Hl].
      * left. split; [lia |]. split; [done |]. intros j Hj. lia.
      * destruct IH as [(Hp & Hg & Hmax) | (Hp & Hnone)]; [lia | left | right].
        -- split; [lia |]. split; [done |]. intros j Hj.
           destruct (decide (j = Z.of_nat i)) as [-> | Hne].
           ++ intros [_ Hgood]. congruence.
           ++ apply Hmax. lia.
        -- split; [done |]. intros j Hj.
           destruct (decide (j = Z.of_nat i)) as [-> | Hne].
           ++ intros [_ Hgood]. congruence.
           ++ apply Hnone. lia.
Qed.

(** C4: with L the indentation level of line [nLine], [getParentLine]
    returns the largest line index below [nLine] that is not empty and has
    level L - 1, and [nLine] itself when there is no such line. *)
Theorem getParentLine_largest (cm : CodeMirror) (nLine : Z) :
  let p := getParentLine cm nLine in
  (parentCandidate cm nLine p
   /\ forall j, p < j -> ~ parentCandidate cm nLine j)
  \/ (p = nLine /\ forall j, ~ parentCandidate cm nLine j).
Proof.
  intros p. subst p. unfold getParentLine, parentCandidate.
  destruct (Z.le_gt_cases 0 nLine) as [Hn | Hn].
  - destruct (getParentLine_loop_spec cm (getIndLevel cm nLine) nLine
                (Z.to_nat nLine)) as [(Hp & Hg & Hmax) | (Hp & Hnone)];
      [lia | left | right].
    + split; [split; [lia | exact Hg] |].
      intros j Hj (Hr & Hgood). apply (Hmax j); [lia | exact Hgood].
    + split; [done |]. intros j (Hr & Hgood). apply (Hnone j); [lia | exact Hgood].
  - right. replace (Z.to_nat nLine) with 0%nat by lia. simpl.
    split; [done |]. intros j (Hr & _). lia.
Qed.
End ParentLine.

Example getParentLine_shaderDoc :
  getParentLine (H := exampleTools) shaderDoc 5 = 4
  /\ getParentLine (H := exampleTools) shaderDoc 9 = 8
  /\ getParentLine (H := exampleTools) shaderDoc 7 = 7.
Proof. repeat split; reflexivity. Qed.

(** *** [endsWith] *)

Lemma prefix_split (a s : string) :
  String.prefix a s = true <-> exists t, s = a +:+ t.
Proof.
  split.
  - revert s. induction a as [|x a IH]; intros s; [by exists s |].
    destruct s as [|y s]; [by rewrite prefix_cons_nil |].
    rewrite prefix_cons. intros [Hx Hp]%andb_prop.
    apply bool_decide_eq_true_1 in Hx as ->.
    destruct (IH s Hp) as [t ->]. by exists t.
  - intros [t ->]. apply prefix_append.
Qed.

Lemma prefix_length (a s : string) :
  String.prefix a s = true -> (String.length a <= String.length s)%nat.
Proof. intros [t ->]%prefix_split. rewrite length_append. lia. Qed.

Lemma indexOf_from_short (needle : string) :
  forall (str : string) (i : Z),
    (String.length str < String.length needle)%nat ->
    indexOf_from i str needle = -1.
Proof.
  induction str as [|c str IH]; intros i Hlen; cbn [indexOf_from];
    destruct (String.prefix needle _) eqn:Hp;
    try (apply prefix_length in Hp; lia); [done |].
  apply IH. simpl in Hlen. lia.
Qed.

Lemma str_take_drop (n : nat) (s : string) : str_take n s +:+ str_drop n s = s.
Proof.
  revert s. induction n as [|n IH]; intros [|c s]; simpl; try done.
  by rewrite IH.
Qed.

Lemma length_str_drop (n : nat) (s : string) :
  String.length (str_drop n s) = (String.length s - n)%nat.
Proof. revert s. induction n as [|n IH]; intros [|c s]; simpl; try done. Qed.

Lemma str_drop_append (s t : string) : str_drop (String.length s) (s +:+ t) = t.
Proof. induction s as [|c s IH]; simpl; [by destruct t | done]. Qed.

Lemma length_nil (s : string) : String.length s = 0%nat -> s = "".
Proof. by destruct s. Qed.

Lemma endsWith_append (pre suffix : string) :
  endsWith (pre +:+ suffix) suffix = true.
Proof.
  unfold endsWith, indexOfAt. rewrite length_append.
  replace (Z.min _ _) with (Z.of_nat (String.length pre)) by lia.
  rewrite Nat2Z.id, str_drop_append.
  destruct suffix as [|c suffix]; cbn [indexOf_from];
    rewrite (proj2 (prefix_split _ _)) by (exists ""; by rewrite append_nil_r);
    apply negb_true_iff, Z.eqb_neq; lia.
Qed.

Lemma endsWith_split (str suffix : string) :
  endsWith str suffix = true -> exists pre, str = pre +:+ suffix.
Proof.
  unfold endsWith, indexOfAt.
  set (start := Z.min _ _). intros Hfound.
  destruct (le_lt_dec (String.length suffix) (String.length str)) as [Hle | Hlt].
  - assert (Hstart : Z.to_nat start
                     = (String.length str - String.length suffix)%nat)
      by (unfold start; lia).
    rewrite Hstart in Hfound.
    exists (str_take (String.length str - String.length suffix) str).
    pose proof (length_str_drop (String.length str - String.length suffix) str)
      as Hlen.
    rewrite <- (str_take_drop (String.length str - String.length suffix) str)
      at 1.
    f_equal. revert Hfound Hlen.
    generalize (str_drop (String.length str - String.length suffix) str).
    intros d Hfound Hlen.
    destruct (String.prefix suffix d) eqn:Hp.
    + apply prefix_split in Hp as [t ->]. rewrite length_append in Hlen.
      rewrite (length_nil t) by lia. apply append_nil_r.
    + destruct d as [|c d]; cbn [indexOf_from] in Hfound; rewrite Hp in Hfound;
        [done |].
      rewrite indexOf_from_short in Hfound by (simpl in Hlen; lia). done.
  - replace (Z.to_nat start) with 0%nat in Hfound by (unfold start; lia).
    simpl in Hfound. by rewrite indexOf_from_short in Hfound.
Qed.

(** X1: [endsWith(str, suffix)] holds exactly when [str] is some text
    followed by [suffix]; a suffix longer than [str], for which the start
    of the search is negative, is never found. *)
Theorem endsWith_suffix (str suffix : string) :
  (endsWith str suffix = true <-> exists pre, str = pre +:+ suffix)
  /\ ((String.length str < String.length suffix)%nat ->
      endsWith str suffix = false).
Proof.
  split; [split; [apply endsWith_split | intros [pre ->]; apply endsWith_append] |].
  intros Hlen. apply not_true_is_false. intros [pre ->]%endsWith_split.
  rewrite length_append in Hlen. lia.
Qed.

Lemma endsWith_suffix_witness :
  endsWith "osm.mvt" "mvt" = true /\ endsWith "vt" "mvt" = false.
Proof.
  split.
  - apply (proj1 (endsWith_suffix "osm.mvt" "mvt")). by exists "osm.".
  - apply (proj2 (endsWith_suffix "vt" "mvt")). simpl. lia.
Defined.

(** *** The lines that hold a key *)

Lemma tagAt_holdsKey (b : option ascii) (text : string) (y : cursor) :
  tagAt b text = Some y ->
  exists w, group1 y = Some w /\ holdsKey text w.
Proof.
  intros Hy. destruct (tagAt_keyName _ _ _ Hy) as (w & Hw & Hkey).
  exists w. split; [done |]. revert Hy. unfold tagAt.
  destruct (at_bol _); [| done].
  destruct (run isWord (skip isSpace text)) as [|c w0] eqn:Hrun; [done |].
  destruct (skip isWord _) as [|c' r'] eqn:Hskip; [done |].
  destruct (isChar ":" c') eqn:Hc; [| done].
  apply Ascii.eqb_eq in Hc as <-. intros [= <-]. simpl in Hw.
  injection Hw as <-.
  exists (run isSpace text), r'. split; [| split; [apply allOf_run | done]].
  rewrite <- Hrun, <- Hskip, !run_skip. done.
Qed.

Lemma holdsKey_tagAt (text w : string) :
  holdsKey text w ->
  exists y, tagAt None text = Some y /\ group1 y = Some w.
Proof.
  intros (ws & more & -> & Hws & Hkey). unfold tagAt.
  unfold isKeyName in Hkey. apply andb_prop in Hkey as [Hne Hw].
  destruct w as [|c w]; [done |]. clear Hne.
  pose proof Hw as Hw'. simpl in Hw'. apply andb_prop in Hw' as [Hc _].
  assert (Hsp : isSpace c = false).
  { destruct (isSpace c) eqn:Hs; [| done].
    by rewrite (isWord_not_space c Hs) in Hc. }
  destruct (run_append_all isSpace ws (String c w +:+ String ":" more) Hws)
    as [_ ->].
  cbn [at_bol before]. cbn [String.append skip]. rewrite Hsp.
  change (String c (w +:+ String ":" more))
    with (String c w +:+ String ":" more).
  destruct (run_append_all isWord (String c w) (String ":" more) Hw)
    as [-> ->].
  cbn [run skip]. replace (isWord ":") with false by (by vm_compute).
  rewrite append_nil_r.
  replace (isChar ":" ":") with true by (by vm_compute).
  by eexists.
Qed.

Lemma exec_from_within_line (s : string) :
  forall (i : nat) (c : ascii),
    isLineTerminator c = false ->
    allOf notTerm s = true ->
    exec_from tagRegex i (Some c) s = None.
Proof.
  induction s as [|c' s IH]; intros i c Hc Hline; cbn [exec_from];
    rewrite matchAt_tagRegex; unfold tagAt, at_bol; cbn [before rest];
    rewrite Hc; [done |].
  simpl in Hline. apply andb_prop in Hline as [Hc' Hline].
  apply IH; [| done]. unfold notTerm in Hc'. by apply negb_true_iff.
Qed.

(** X15: the lines in which [getLineTag] finds a key. On the text of a
    line, which holds no line terminator, the expression of [getLineTag]
    matches and captures [w] exactly when the line is white space, then
    the name [w] of one or more word characters, then a colon, then
    anything; the match starts at the start of the line. *)
Theorem tagRegex_key_line (text w : string) :
  isLine text = true ->
  (exists m, exec tagRegex text = Some m /\ m_group1 m = Some w)
  <-> holdsKey text w.
Proof.
  intros Hline. unfold exec. split.
  - intros (m & Hm & Hg). destruct text as [|c s]; cbn [exec_from] in Hm;
      rewrite matchAt_tagRegex in Hm; cbn [before rest] in Hm.
    + destruct (tagAt None "") as [y|] eqn:Hy; [| done].
      injection Hm as <-. simpl in Hg.
      destruct (tagAt_holdsKey _ _ _ Hy) as (w' & Hw' & Hkey). congruence.
    + destruct (tagAt None (String c s)) as [y|] eqn:Hy.
      * injection Hm as <-. simpl in Hg.
        destruct (tagAt_holdsKey _ _ _ Hy) as (w' & Hw' & Hkey). congruence.
      * unfold isLine in Hline. simpl in Hline.
        apply andb_prop in Hline as [Hc Hline].
        rewrite exec_from_within_line in Hm; [done | | done].
        unfold notTerm in Hc. by apply negb_true_iff.
  - intros (y & Hy & Hg)%holdsKey_tagAt.
    exists (mkMatch 0 (consumed text (rest y)) (group1 y)). split; [| done].
    destruct text as [|c s]; cbn [exec_from]; rewrite matchAt_tagRegex;
      cbn [before rest]; by rewrite Hy.
Qed.

Lemma tagRegex_key_line_witness :
  exists m, exec tagRegex "    mystyle:" = Some m
            /\ m_group1 m = Some "mystyle".
Proof.
  apply (proj2 (tagRegex_key_line "    mystyle:" "mystyle" eq_refl)).
  by exists "    ", "".
Defined.

(** *** [getLineTag], line by line *)

Lemma getLineTag_in_document (cm : CodeMirror) (nLine : Z) (tag : Tag) :
  getLineTag cm nLine = Ok (Some tag) -> 0 <= nLine < lineCount cm.
Proof.
  unfold getLineTag. destruct (Z.to_nat (nLine + 1)) as [|fuel] eqn:Hfuel;
    simpl; destruct (Z.leb_spec 0 nLine) as [Hn | Hn]; try done; try lia.
  unfold lineInfo. destruct (Z.leb_spec 0 nLine); [| lia].
  destruct (Z.ltb_spec nLine (lineCount cm)); [lia | done].
Qed.

Lemma getLineTag_nearestKey (cm : CodeMirror) (nLine : Z) (tag : Tag) :
  getLineTag cm nLine = Ok (Some tag)
  <-> nLine < lineCount cm
      /\ exists w, name tag = Some w /\ nearestKey cm nLine (line tag) w.
Proof.
  pose proof (getLineTag_spec cm nLine) as Hspec. split.
  - intros Htag. split; [apply (getLineTag_in_document _ _ _ Htag) |].
    rewrite Htag in Hspec.
    destruct Hspec as (Hr & (text & m & w & Htext & Hm & Hname & Hg & _) & Hnone).
    exists w. split; [done |]. split; [done |]. split; [| done].
    by exists text, m.
  - intros (Hin & w & Hname & Hr & (text & m & Htext & Hm & Hg) & Hnone).
    destruct (getLineTag cm nLine) as [[tag'|] | e |]; [| | | done].
    + destruct Hspec
        as (Hr' & (text' & m' & w' & Htext' & Hm' & Hname' & Hg' & _) & Hnone').
      assert (Hline : line tag' = line tag).
      { destruct (Z.lt_trichotomy (line tag') (line tag)) as [Hlt | [Heq | Hgt]];
          [| done |].
        - rewrite (Hnone' (line tag) text) in Hm by (done || lia). done.
        - rewrite (Hnone (line tag') text') in Hm' by (done || lia). done. }
      rewrite Hline in Htext'.
      assert (text' = text) as -> by congruence.
      assert (m' = m) as -> by congruence.
      destruct tag as [l n], tag' as [l' n']. simpl in *.
      do 2 f_equal; congruence.
    + destruct Hspec as [_ Hnone'].
      rewrite (Hnone' (line tag) text) in Hm by (done || lia). done.
    + destruct Hspec as [_ Hge]. lia.
Qed.

Lemma getLineTag_stable (cm : CodeMirror) (nLine : Z) (tag : Tag) :
  getLineTag cm nLine = Ok (Some tag) ->
  getLineTag cm (line tag) = Ok (Some tag).
Proof.
  intros (Hin & w & Hname & Hr & Hex & Hnone)%getLineTag_nearestKey.
  apply getLineTag_nearestKey. split; [lia |]. exists w. split; [done |].
  split; [lia |]. split; [done |]. intros i text Hi. lia.
Qed.

(** X2: what [getLineTag] gives at every line number. Below line 0 it gives
    [undefined]; at or beyond the line count it raises a TypeError, since
    [lineInfo] is [null] there; at a line of the document it gives the
    nearest line at or above with a key, and the name of that key, or
    [undefined] when there is none. The recursion always ends, and asking
    again at the line of the tag gives the same tag. *)
Theorem getLineTag_answer (cm : CodeMirror) (nLine : Z) :
  (nLine < 0 -> getLineTag cm nLine = Ok None)
  /\ (0 <= nLine -> lineCount cm <= nLine ->
      getLineTag cm nLine = Throw TypeError)
  /\ (forall tag,
        getLineTag cm nLine = Ok (Some tag)
        <-> nLine < lineCount cm
            /\ exists w, name tag = Some w
                         /\ nearestKey cm nLine (line tag) w)
  /\ (0 <= nLine < lineCount cm ->
      (getLineTag cm nLine = Ok None
       <-> forall i text, 0 <= i <= nLine -> lineInfo cm i = Some text ->
             exec tagRegex text = None))
  /\ getLineTag cm nLine <> Diverge
  /\ (forall tag, getLineTag cm nLine = Ok (Some tag) ->
        getLineTag cm (line tag) = Ok (Some tag)).
Proof.
  pose proof (getLineTag_spec cm nLine) as Hspec.
  split; [| split; [| split; [| split; [| split]]]].
  - intros Hn. unfold getLineTag.
    destruct (Z.to_nat (nLine + 1)); simpl;
      by destruct (Z.leb_spec 0 nLine); [lia |].
  - intros Hn Hge. unfold getLineTag.
    assert (Hinfo : lineInfo cm nLine = None).
    { unfold lineInfo. destruct (Z.ltb_spec nLine (lineCount cm)); [lia |].
      by rewrite andb_false_r. }
    destruct (Z.to_nat (nLine + 1)); simpl; rewrite Hinfo;
      by destruct (Z.leb_spec 0 nLine); [| lia].
  - intros tag. apply getLineTag_nearestKey.
  - intros Hin. split.
    + intros Hnone. rewrite Hnone in Hspec. tauto.
    + intros Hnone.
      destruct (getLineTag cm nLine) as [[tag|] | e |]; [| done | | done].
      * destruct Hspec as (Hr & (text & m & w & Htext & Hm & _) & _).
        rewrite (Hnone (line tag) text) in Hm by (done || lia). done.
      * destruct Hspec as [_ Hge]. lia.
  - intros Hd. by rewrite Hd in Hspec.
  - intros tag. apply getLineTag_stable.
Qed.

Lemma getLineTag_answer_witness :
  getLineTag shaderDoc (-1) = Ok None
  /\ getLineTag shaderDoc 10 = Throw TypeError
  /\ getLineTag shaderDoc (line (mkTag 4 (Some "color")))
     = Ok (Some (mkTag 4 (Some "color"))).
Proof.
  split; [| split].
  - apply (proj1 (getLineTag_answer shaderDoc (-1))). lia.
  - apply (proj1 (proj2 (getLineTag_answer shaderDoc 10))); [lia |].
    vm_compute. discriminate.
  - apply (proj2 (proj2 (proj2 (proj2 (proj2 (getLineTag_answer shaderDoc 6)))))).
    reflexivity.
Defined.

(** *** [getInverseTags], turn by turn *)

Section InverseTags.
Context `{LineTools} `{Realm}.

Lemma getParentLine_cases (cm : CodeMirror) (n : Z) :
  0 <= getParentLine cm n < n
  \/ (getParentLine cm n = n /\ forall j, ~ parentCandidate cm n j).
Proof.
  unfold getParentLine, parentCandidate.
  destruct (Z.le_gt_cases 0 n) as [Hn | Hn].
  - destruct (getParentLine_loop_spec cm (getIndLevel cm n) n (Z.to_nat n))
      as [(Hp & _) | (Hp & Hnone)]; [lia | left; lia | right].
    split; [done |]. intros j (Hr & Hgood). apply (Hnone j); [lia | exact Hgood].
  - right. replace (Z.to_nat n) with 0%nat by lia. simpl.
    split; [done |]. intros j (Hr & _). lia.
Qed.

Lemma getParentLine_none (cm : CodeMirror) (n : Z) :
  (forall j, ~ parentCandidate cm n j) -> getParentLine cm n = n.
Proof.
  intros Hnone. unfold getParentLine.
  destruct (Z.le_gt_cases 0 n) as [Hn | Hn].
  - destruct (getParentLine_loop_spec cm (getIndLevel cm n) n (Z.to_nat n))
      as [(Hp & Hg & _) | (Hp & _)]; [lia | | done].
    destruct (Hnone (getParentLine_loop cm (getIndLevel cm n) n (Z.to_nat n))).
    split; [lia | exact Hg].
  - by replace (Z.to_nat n) with 0%nat by lia.
Qed.

(** A key that is indented and is its own parent line: the loop comes back
    to it at every turn. *)
Lemma getInverseTags_loop_orphan (cm : CodeMirror) (tag : Tag) :
  getLineTag cm (line tag) = Ok (Some tag) ->
  0 < getIndLevel cm (line tag) ->
  getParentLine cm (line tag) = line tag ->
  forall (fuel : nat) (tags : list string) (level : Z),
    0 < level ->
    getInverseTags_loop fuel cm tags (line tag) level = Diverge.
Proof.
  intros Htag Hlevel Hparent.
  destruct (getLineTag_name _ _ _ Htag) as (w & Hw & Hkey).
  induction fuel as [|fuel IH]; intros tags level Hl; simpl;
    destruct (Z.gtb_spec level 0); try lia; [done |].
  rewrite Htag. simpl. rewrite Hw, (truthyName_keyName w Hkey), Hparent.
  by apply IH.
Qed.

Lemma getInverseTags_loop_more (cm : CodeMirror) :
  forall (fuel : nat) (tags : list string) (n level : Z) (inv : list string),
    getInverseTags_loop fuel cm tags n level = Ok inv ->
    getInverseTags_loop (S fuel) cm tags n level = Ok inv.
Proof.
  induction fuel as [|fuel IH]; intros tags n level inv.
  - simpl. by destruct (level >? 0).
  - intros Hinv. cbn [getInverseTags_loop] in Hinv |- *.
    destruct (level >? 0); [| done].
    destruct (getLineTag cm n) as [[tag|] | e |]; simpl in *; try done.
    destruct (truthyName (name tag)); [| done].
    by apply IH.
Qed.

Lemma getInverseTags_loop_fuel (cm : CodeMirror) (fuel fuel' : nat)
    (tags : list string) (n level : Z) (inv : list string) :
  (fuel <= fuel')%nat ->
  getInverseTags_loop fuel cm tags n level = Ok inv ->
  getInverseTags_loop fuel' cm tags n level = Ok inv.
Proof.
  induction 1 as [|fuel' _ IH]; [done |].
  intros Hinv. by apply getInverseTags_loop_more, IH.
Qed.

Lemma getInverseTags_loop_length (cm : CodeMirror) :
  forall (fuel : nat) (tags : list string) (n level : Z) (inv : list string),
    0 < level ->
    getInverseTags_loop fuel cm tags n level = Ok inv ->
    0 <= n < lineCount cm
    /\ (length inv <= length tags + Z.to_nat n + 1)%nat.
Proof.
  induction fuel as [|fuel IH]; intros tags n level inv Hl; simpl;
    destruct (Z.gtb_spec level 0); try lia; [done |].
  destruct (getLineTag cm n) as [[tag|] | e |] eqn:Htag; simpl; try done.
  pose proof (getLineTag_in_document _ _ _ Htag) as Hn.
  pose proof (getLineTag_stable _ _ _ Htag) as Hstable.
  apply getLineTag_nearestKey in Htag as (_ & w & Hw & Hr & _).
  destruct (getLineTag_name _ _ _ Hstable) as (w' & Hw' & Hkey).
  rewrite Hw', (truthyName_keyName w' Hkey). simpl.
  destruct (Z.le_gt_cases (getIndLevel cm (line tag)) 0) as [Hle | Hgt].
  - rewrite getInverseTags_loop_stop by done. intros [= <-].
    split; [done |]. rewrite length_app. simpl. lia.
  - destruct (getParentLine_cases cm (line tag)) as [Hp | [Hp _]].
    + intros Hinv. apply IH in Hinv as [_ Hlen]; [| lia].
      split; [done |]. rewrite length_app in Hlen. simpl in Hlen. lia.
    + rewrite Hp, (getInverseTags_loop_orphan cm tag) by (done || lia). done.
Qed.

(** X3: the loop of [getInverseTags] never ends when the key nearest at or
    above the line is indented and no line above it is a parent candidate:
    [getParentLine] gives the line of the key back, its level is still
    above 0, and every turn finds the same key again. No number of turns
    gives a result. *)
Theorem getInverseTags_orphan_key (cm : CodeMirror) (nLine : Z) (tag : Tag) :
  getLineTag cm nLine = Ok (Some tag) ->
  0 < getIndLevel cm (line tag) ->
  (forall j, ~ parentCandidate cm (line tag) j) ->
  forall fuel, getInverseTags fuel cm nLine = Diverge.
Proof.
  intros Htag Hlevel Hnone fuel. unfold getInverseTags.
  destruct fuel as [|fuel]; [done |]. simpl. rewrite Htag. simpl.
  destruct (getLineTag_name _ _ _ Htag) as (w & Hw & Hkey).
  rewrite Hw, (truthyName_keyName w Hkey), (getParentLine_none _ _ Hnone).
  apply getInverseTags_loop_orphan;
    [by apply getLineTag_stable in Htag | done | | done].
  by apply getParentLine_none.
Qed.

(** X4: what [getInverseTags] returns, when it returns. The list is never
    empty and holds key names only, so the branch that returns at a name
    that is empty or missing is never taken; the line is a line of the
    document; the list has at most [nLine + 1] names, since every turn but
    the last moves to a line above; and every number of turns from the
    length of the list on gives the same list. *)
Theorem getInverseTags_returned (fuel : nat) (cm : CodeMirror) (nLine : Z)
    (inv : list string) :
  getInverseTags fuel cm nLine = Ok inv ->
  inv <> []
  /\ Forall (fun w => isKeyName w = true) inv
  /\ 0 <= nLine < lineCount cm
  /\ (length inv <= Z.to_nat nLine + 1)%nat
  /\ forall fuel', (length inv <= fuel')%nat ->
       getInverseTags fuel' cm nLine = Ok inv.
Proof.
  intros Hinv.
  pose proof (getInverseTags_keyNames _ _ _ _ Hinv) as Hpath.
  split; [by intros -> |].
  split; [by eapply loopPath_keyNames |].
  destruct (getInverseTags_loop_length cm fuel [] nLine 1 inv) as [Hn Hlen];
    [lia | done |].
  split; [done |]. split; [simpl in Hlen; lia |].
  intros fuel' Hfuel. unfold getInverseTags.
  apply (getInverseTags_loop_fuel cm (length inv)); [done |].
  by apply (loopPath_loop cm inv [] nLine 1).
Qed.

(** X5: [getColorBlockShader], case by case. It fails as [getInverseTags]
    fails. When [getInverseTags] returns, the result is an empty object if
    the address of the list does not start with [/color/blocks/shaders/];
    if it does, [getTags] of the same line ends with a style name,
    [shaders], [blocks], [color], and the result is decided by the read of
    [scene.styles[styleName]]: an empty object when the read gives a falsy
    value, and else what the read of [shaders] in the value gives. Both
    reads go through the prototype chain. *)
Theorem getColorBlockShader_in_block (styles : gmap string value)
    (fuel : nat) (cm : CodeMirror) (nLine : Z) :
  (forall e, getInverseTags fuel cm nLine = Throw e ->
             getColorBlockShader styles fuel cm nLine = Throw e)
  /\ (getInverseTags fuel cm nLine = Diverge ->
      getColorBlockShader styles fuel cm nLine = Diverge)
  /\ (forall inv,
        getInverseTags fuel cm nLine = Ok inv ->
        (String.prefix "/color/blocks/shaders/" (tagsToAddress inv) = false ->
         getColorBlockShader styles fuel cm nLine = Ok (VObj ∅))
        /\ (String.prefix "/color/blocks/shaders/" (tagsToAddress inv) = true ->
            exists outer styleName,
              getTags fuel cm nLine
              = Ok (outer ++ [styleName; "shaders"; "blocks"; "color"])
              /\ getColorBlockShader styles fuel cm nLine
                 = (style ← getProp (VObj styles) styleName;
                    if truthy style then getProp style "shaders"
                    else Ok (VObj ∅)))).
Proof.
  unfold getColorBlockShader. rewrite getTags_rev.
  split; [by intros e -> |]. split; [by intros -> |].
  intros inv Hinv. rewrite Hinv. simpl. rewrite indexOf_zero.
  split; intros Hp; rewrite Hp; [done |].
  apply getInverseTags_keyNames, loopPath_keyNames in Hinv.
  rewrite tagsToAddress_is_address in Hp.
  destruct (address_shader_block inv Hinv Hp) as (styleName & rest & ->).
  exists (reverse rest), styleName. split; [| done]. f_equal.
  change ("color" :: "blocks" :: "shaders" :: styleName :: rest)
    with (["color"; "blocks"; "shaders"; styleName] ++ rest).
  by rewrite reverse_app.
Qed.
End InverseTags.

Lemma getInverseTags_orphan_key_witness :
  getInverseTags (H := exampleTools) 7 orphanDoc 0 = Diverge.
Proof.
  apply (getInverseTags_orphan_key (H := exampleTools) orphanDoc 0
           (mkTag 0 (Some "a"))).
  - reflexivity.
  - reflexivity.
  - intros j [Hj _]. simpl in Hj. lia.
Defined.

Lemma getInverseTags_returned_witness :
  (length ["color"; "blocks"; "shaders"; "mystyle"; "styles"]
   <= Z.to_nat 5 + 1)%nat
  /\ getInverseTags (H := exampleTools) 9 shaderDoc 5
     = Ok ["color"; "blocks"; "shaders"; "mystyle"; "styles"].
Proof.
  destruct (getInverseTags_returned (H := exampleTools) 5 shaderDoc 5
              ["color"; "blocks"; "shaders"; "mystyle"; "styles"] eq_refl)
    as (_ & _ & _ & Hlen & Hfuel).
  split; [exact Hlen |]. apply Hfuel. simpl. lia.
Defined.

Lemma getColorBlockShader_in_block_witness :
  getColorBlockShader (H := exampleTools) (H0 := exampleRealm)
    exampleStyles 5 shaderDoc 5
  = Ok (VObj {[ "blocks" := VStr "x" ]}).
Proof.
  destruct (proj2 (proj2 (proj2 (getColorBlockShader_in_block
                                   (H := exampleTools) (H0 := exampleRealm)
                                   exampleStyles 5 shaderDoc 5))
                     _ eq_refl) eq_refl)
    as (outer & styleName & Htags & ->).
  assert (styleName = "mystyle") as ->; [| reflexivity].
  change (getTags 5 shaderDoc 5)
    with (Ok ["styles"; "mystyle"; "shaders"; "blocks"; "color"]) in Htags.
  injection Htags as Htags.
  apply (f_equal reverse) in Htags. rewrite reverse_app in Htags.
  cbv [reverse rev_append app] in Htags. by injection Htags as <- _.
Defined.

(** *** The keys that enclose a line *)

Lemma exec_holdsKey (text w : string) (m : matchResult) :
  isLine text = true ->
  exec tagRegex text = Some m -> m_group1 m = Some w -> holdsKey text w.
Proof.
  unfold exec. intros Hline Hm Hg.
  destruct text as [|c s]; cbn [exec_from] in Hm;
    rewrite matchAt_tagRegex in Hm; cbn [before rest] in Hm.
  - destruct (tagAt None "") as [y|] eqn:Hy; [| done].
    injection Hm as <-. simpl in Hg.
    destruct (tagAt_holdsKey _ _ _ Hy) as (w' & Hw' & Hkey). congruence.
  - destruct (tagAt None (String c s)) as [y|] eqn:Hy.
    + injection Hm as <-. simpl in Hg.
      destruct (tagAt_holdsKey _ _ _ Hy) as (w' & Hw' & Hkey). congruence.
    + unfold isLine in Hline. simpl in Hline.
      apply andb_prop in Hline as [Hc Hline].
      rewrite exec_from_within_line in Hm; [done | | done].
      unfold notTerm in Hc. by apply negb_true_iff.
Qed.

Lemma holdsKey_exec (text w : string) :
  holdsKey text w ->
  exists m, exec tagRegex text = Some m /\ m_group1 m = Some w.
Proof.
  intros (y & Hy & Hg)%holdsKey_tagAt.
  exists (mkMatch 0 (consumed text (rest y)) (group1 y)). split; [| done].
  unfold exec. destruct text as [|c s]; cbn [exec_from];
    rewrite matchAt_tagRegex; cbn [before rest]; by rewrite Hy.
Qed.

Lemma lineInfo_isLine (cm : CodeMirror) (i : Z) (text : string) :
  Forall (fun l => isLine l = true) (cm_lines cm) ->
  lineInfo cm i = Some text -> isLine text = true.
Proof.
  intros Hlines. unfold lineInfo. destruct (_ && _); [| done].
  intros Htext. by apply (Forall_lookup_1 _ _ _ _ Hlines Htext).
Qed.

Section EnclosingKeys.
Context `{LineTools}.

Lemma nearestKey_keyAt (cm : CodeMirror) (n l : Z) (w : string) :
  Forall (fun l => isLine l = true) (cm_lines cm) ->
  n < lineCount cm ->
  nearestKey cm n l w <-> nearestKeyAt cm n l w.
Proof.
  intros Hlines Hn. split.
  - intros (Hl & (text & m & Htext & Hm & Hg) & Hnone).
    split; [done |]. split; [done |]. split.
    + exists text. split; [done |].
      by apply (exec_holdsKey text w m (lineInfo_isLine _ _ _ Hlines Htext)).
    + intros i w' Hi (text' & Htext' & (m' & Hm' & _)%holdsKey_exec).
      by rewrite (Hnone i text' Hi Htext') in Hm'.
  - intros (Hl & _ & (text & Htext & (m & Hm & Hg)%holdsKey_exec) & Hnone).
    split; [done |]. split; [by exists text, m |].
    intros i text' Hi Htext'.
    destruct (exec tagRegex text') as [m'|] eqn:Hm'; [| done].
    destruct (exec_tagRegex _ _ Hm') as (w' & Hw' & _).
    destruct (Hnone i w' Hi). exists text'. split; [done |].
    by apply (exec_holdsKey text' w' m'
                (lineInfo_isLine _ _ _ Hlines Htext')).
Qed.

Lemma getParentLine_parent (cm : CodeMirror) (n : Z) :
  parentOf cm n (getParentLine cm n)
  \/ (getParentLine cm n = n /\ forall j, ~ parentCandidate cm n j).
Proof.
  unfold parentOf, getParentLine, parentCandidate.
  destruct (Z.le_gt_cases 0 n) as [Hn | Hn].
  - destruct (getParentLine_loop_spec cm (getIndLevel cm n) n (Z.to_nat n))
      as [(Hp & Hg & Hmax) | (Hp & Hnone)]; [lia | left | right].
    + split; [split; [lia | exact Hg] |].
      intros j Hj (Hr & Hgood). apply (Hmax j); [lia | exact Hgood].
    + split; [done |]. intros j (Hr & Hgood).
      apply (Hnone j); [lia | exact Hgood].
  - right. replace (Z.to_nat n) with 0%nat by lia. simpl.
    split; [done |]. intros j (Hr & _). lia.
Qed.

Lemma parentOf_getParentLine (cm : CodeMirror) (l p : Z) :
  parentOf cm l p -> getParentLine cm l = p.
Proof.
  intros [Hp Hmax].
  destruct (getParentLine_parent cm l) as [[Hq Hmax'] | [_ Hnone]].
  - destruct (Z.lt_trichotomy (getParentLine cm l) p) as [Hlt | [Heq | Hgt]];
      [| done |].
    + by destruct (Hmax' p Hlt).
    + by destruct (Hmax _ Hgt).
  - by destruct (Hnone p).
Qed.

Lemma getInverseTags_loop_KeyPath (cm : CodeMirror) :
  Forall (fun l => isLine l = true) (cm_lines cm) ->
  forall (fuel : nat) (tags : list string) (n level : Z) (inv : list string),
    0 < level ->
    getInverseTags_loop fuel cm tags n level = Ok inv ->
    exists path, inv = tags ++ path /\ KeyPath cm n path.
Proof.
  intros Hlines.
  induction fuel as [|fuel IH]; intros tags n level inv Hl; simpl;
    destruct (Z.gtb_spec level 0); try lia; [done |].
  destruct (getLineTag cm n) as [[tag|] | e |] eqn:Htag; simpl; try done.
  pose proof (getLineTag_stable _ _ _ Htag) as Hstable.
  destruct (getLineTag_name _ _ _ Htag) as (w & Hw & Hkey).
  apply getLineTag_nearestKey in Htag as (Hn & w' & Hw' & Hnear).
  assert (w' = w) as -> by congruence.
  apply (nearestKey_keyAt cm n (line tag) w Hlines Hn) in Hnear.
  rewrite Hw, (truthyName_keyName w Hkey). simpl.
  destruct (Z.le_gt_cases (getIndLevel cm (line tag)) 0) as [Hle | Hgt].
  - rewrite getInverseTags_loop_stop by done. intros [= <-].
    exists [w]. split; [done |]. by apply (KeyPath_outer cm n (line tag)).
  - destruct (getParentLine_parent cm (line tag)) as [Hp | [Hp _]].
    + intros (path & -> & Hpath)%IH; [| lia].
      exists (w :: path). split; [by rewrite <- app_assoc |].
      by apply (KeyPath_inner cm n (line tag) (getParentLine cm (line tag))).
    + rewrite Hp, (getInverseTags_loop_orphan cm tag) by (done || lia). done.
Qed.

Lemma KeyPath_loop (cm : CodeMirror) :
  Forall (fun l => isLine l = true) (cm_lines cm) ->
  forall (n : Z) (path : list string),
    KeyPath cm n path ->
    forall (tags : list string) (level : Z),
      0 < level ->
      getInverseTags_loop (length path) cm tags n level = Ok (tags ++ path).
Proof.
  intros Hlines n path Hpath.
  induction Hpath as [n l w Hnear Hlevel | n l p w path Hnear Hlevel Hp _ IH];
    intros tags level Hl; simpl;
    destruct (Z.gtb_spec level 0); try lia;
    pose proof Hnear as (_ & Hn & (tx & _ & ws & more & _ & _ & Hkey) & _);
    apply (nearestKey_keyAt cm n l w Hlines Hn) in Hnear;
    rewrite (proj2 (getLineTag_nearestKey cm n (mkTag l (Some w))))
      by (split; [done | by exists w]);
    pose proof (truthyName_keyName w Hkey) as Hname;
    cbn [mbind result_bind name line]; rewrite Hname.
  - by destruct (Z.gtb_spec (getIndLevel cm l) 0); [lia |].
  - rewrite (parentOf_getParentLine cm l p Hp), IH by lia.
    by rewrite <- app_assoc.
Qed.

(** X17: what [getTags] returns, said without the code. On a document
    whose lines hold no line terminator, a list that [getTags] returns,
    read backwards, is the path of the keys that enclose the line: the key
    nearest at or above it, then, as long as the key is indented, the keys
    that enclose the parent line of its line. And when the line has such a
    path, [getTags] returns it, outermost key first, as soon as the loop
    is given as many turns as the path has keys. *)
Theorem getTags_enclosing_keys (cm : CodeMirror) (nLine : Z) :
  Forall (fun l => isLine l = true) (cm_lines cm) ->
  (forall fuel tags,
     getTags fuel cm nLine = Ok tags -> KeyPath cm nLine (reverse tags))
  /\ (forall path fuel,
        KeyPath cm nLine path -> (length path <= fuel)%nat ->
        getTags fuel cm nLine = Ok (reverse path)).
Proof.
  intros Hlines. split.
  - intros fuel tags. rewrite getTags_rev.
    destruct (getInverseTags fuel cm nLine) as [inv | e |] eqn:Hinv;
      simpl; [| done | done].
    intros [= <-]. rewrite reverse_involutive.
    by apply (getInverseTags_loop_KeyPath cm Hlines) in Hinv
      as (path & -> & Hpath); [| lia].
  - intros path fuel Hpath Hfuel. rewrite getTags_rev. unfold getInverseTags.
    rewrite (getInverseTags_loop_fuel cm (length path) fuel [] nLine 1 path);
      [done | done |].
    by apply (KeyPath_loop cm Hlines nLine path Hpath [] 1).
Qed.
End EnclosingKeys.

Lemma getTags_enclosing_keys_witness :
  KeyPath (H := exampleTools) shaderDoc 9 ["type"; "osm"; "sources"].
Proof.
  apply (proj1 (getTags_enclosing_keys (H := exampleTools) shaderDoc 9
                  ltac:(repeat constructor))
           3%nat ["sources"; "osm"; "type"]).
  reflexivity.
Defined.

(** *** [tagsToAddress], read backwards *)

Lemma noSlash_split (t t' a a' : string) :
  noSlash t = true -> noSlash t' = true ->
  (a = "" \/ exists r, a = String "/" r) ->
  (a' = "" \/ exists r, a' = String "/" r) ->
  t +:+ a = t' +:+ a' -> t = t' /\ a = a'.
Proof.
  unfold noSlash. intros Ht Ht' Ha Ha'. revert t' Ht'.
  induction t as [|c t IH]; intros [|c' t'] Ht'; simpl.
  - done.
  - intros ->. destruct Ha as [? | [r [= -> _]]]; [done |].
    apply andb_prop in Ht' as [Hc _]. by vm_compute in Hc.
  - intros <-. destruct Ha' as [? | [r [= -> _]]]; [done |].
    apply andb_prop in Ht as [Hc _]. by vm_compute in Hc.
  - intros [= <- Heq].
    apply andb_prop in Ht as [_ Ht]. apply andb_prop in Ht' as [_ Ht'].
    destruct (IH Ht t' Ht' Heq) as [-> ->]. done.
Qed.

Lemma address_injective (tags : list string) :
  Forall (fun t => noSlash t = true) tags ->
  forall tags',
    Forall (fun t => noSlash t = true) tags' ->
    address tags = address tags' -> tags = tags'.
Proof.
  induction 1 as [|t tags Ht _ IH]; intros tags' Hall'.
  - destruct Hall'; [done |]. by rewrite address_cons.
  - destruct Hall' as [|t' tags' Ht' Hall']; rewrite !address_cons; [done |].
    intros [= Heq].
    destruct (noSlash_split t t' (address tags) (address tags') Ht Ht'
                (address_nil_or_slash _) (address_nil_or_slash _) Heq)
      as [-> Ha].
    f_equal. by apply IH.
Qed.

Lemma isKeyName_noSlash (w : string) : isKeyName w = true -> noSlash w = true.
Proof.
  unfold isKeyName, noSlash. intros [_ Hw]%andb_prop.
  induction w as [|c w IH]; [done |]. simpl in *.
  apply andb_prop in Hw as [Hc Hw]. rewrite IH by done.
  rewrite andb_true_r. apply negb_true_iff.
  destruct (isChar "/" c) eqn:Hs; [| done].
  apply isWord_not_slash in Hc. unfold isChar in Hs.
  by apply Ascii.eqb_eq in Hs.
Qed.

(** X7: the address tells the tag list. Two lists of tags without a slash
    that have the same address are the same list, so the lists of key names
    that [getInverseTags] returns can be read back from their addresses;
    a tag with a slash does not keep this. *)
Theorem tagsToAddress_injective :
  (forall tags tags' : list string,
     Forall (fun t => noSlash t = true) tags ->
     Forall (fun t => noSlash t = true) tags' ->
     tagsToAddress tags = tagsToAddress tags' -> tags = tags')
  /\ (forall w, isKeyName w = true -> noSlash w = true)
  /\ tagsToAddress ["a/b"] = tagsToAddress ["a"; "b"].
Proof.
  split; [| split; [exact isKeyName_noSlash | done]].
  intros tags tags' Hall Hall'. rewrite !tagsToAddress_is_address.
  by apply address_injective.
Qed.

Lemma tagsToAddress_injective_witness :
  Forall (fun t => noSlash t = true) ["color"; "blocks"]
  /\ tagsToAddress ["color"; "blocks"] = "/color/blocks"
  /\ ["color"; "blocks"] = ["color"; "blocks"].
Proof.
  assert (Hall : Forall (fun t => noSlash t = true) ["color"; "blocks"])
    by repeat constructor.
  split; [exact Hall |]. split; [reflexivity |].
  exact (proj1 tagsToAddress_injective _ _ Hall Hall eq_refl).
Defined.

End YamlTangramProofs.

Module EditorProofs.
Import Editor Spec.

(** *** The pattern of [updateContent] *)

Lemma isSpace_not_u (c : ascii) : isSpace c = true -> isChar "u" c = false.
Proof. destruct c as [[] [] [] [] [] [] [] []]; vm_compute; congruence. Qed.

Lemma isSpace_not_urlChar (c : ascii) : isSpace c = true -> urlChar c = false.
Proof. destruct c as [[] [] [] [] [] [] [] []]; vm_compute; congruence. Qed.

Lemma lineLocal_endpointText : lineLocal endpointText = true.
Proof. reflexivity. Qed.

Lemma isEndpoint_nonempty (body : string) : isEndpoint body = true -> body <> "".
Proof. by intros Hb ->. Qed.

(** *** What the pattern reads *)

Lemma lineEnd_line (s : string) :
  allOf notTerm s = true -> lineEnd s = true -> s = "".
Proof.
  destruct s as [|c s]; [done |]. simpl. unfold notTerm.
  intros [Hc _]%andb_prop Ht. by rewrite Ht in Hc.
Qed.

Lemma reads_endpointText (t rem : string) :
  reads endpointText t rem <-> tileEndpoint notTerm t.
Proof.
  unfold endpointText, extension, Dot, tileEndpoint, urlText, tileExt.
  cbn [reads]. split.
  - intros (u1 & t2 & -> & Hu1%reads_PlusC
            & m & t4 & -> & ->%reads_Lit
            & d & t6 & -> & (c & -> & Hc)
            & o & t8 & -> & ->%reads_Lit
            & u2 & ext & -> & Hu2%reads_PlusC & Hext).
    exists u1, c, u2, ext. split; [done |]. split; [done |].
    split; [done |]. split; [done |].
    by destruct Hext as [->%reads_Lit | [->%reads_Lit | ->%reads_Lit]];
      [left | right; left | right; right].
  - intros (u1 & c & u2 & ext & -> & Hu1 & Hc & Hu2 & Hext).
    exists u1, ("mapzen" +:+ String c ("com" +:+ u2 +:+ ext)).
    split; [done |]. split; [by apply reads_PlusC |].
    exists "mapzen", (String c ("com" +:+ u2 +:+ ext)).
    split; [done |]. split; [by apply reads_Lit |].
    exists (String c ""), ("com" +:+ u2 +:+ ext).
    split; [done |]. split; [by exists c |].
    exists "com", (u2 +:+ ext). split; [done |]. split; [by apply reads_Lit |].
    exists u2, ext. split; [done |]. split; [by apply reads_PlusC |].
    by destruct Hext as [-> | [-> | ->]];
      [left | right; left | right; right]; apply reads_Lit.
Qed.

(** On a text without a line terminator the expression of the endpoint
    matches exactly the endpoints with any such character for the dot. *)
Lemma isEndpoint_tileEndpoint (body : string) :
  allOf notTerm body = true ->
  isEndpoint body = true <-> tileEndpoint notTerm body.
Proof.
  intros Hline. unfold isEndpoint, endpoint. split.
  - destruct (bt _ _ _) as [[]|] eqn:Hbt; [intros _ | done].
    apply bt_reads_sound in Hbt as (t & rem & -> & Hreads & _); [| done].
    cbn [reads] in Hreads.
    destruct Hreads as (t1 & t2 & -> & Hreads & -> & Hend).
    rewrite allOf_append in Hline. apply andb_prop in Hline as [_ Hline].
    rewrite (lineEnd_line rem Hline Hend), !append_nil_r.
    by apply reads_endpointText in Hreads.
  - intros Hbody.
    assert (Hbt : bt (Seq endpointText Eol)
                    (mkCursor None (body +:+ "") None)
                    (fun _ => Some tt) <> None).
    { apply bt_reads_complete; [done | | done]. cbn [reads].
      exists body, "". rewrite append_nil_r. split; [done |].
      split; [by apply reads_endpointText | done]. }
    rewrite append_nil_r in Hbt. by destruct (bt _ _ _).
Qed.

(** What the pattern matches at a position: at the start of a line, an
    entry; the position reached is after the entry, group 1 is the entry. *)
Lemma matchAt_pattern (b : option ascii) (s : string) (g0 : option string) :
  match matchAt pattern (mkCursor b s g0) with
  | Some y =>
      at_bol (mkCursor b s g0) = true
      /\ entryEnd s = Some (rest y)
      /\ group1 y = Some (consumed s (rest y))
      /\ at_bol y = false
  | None => at_bol (mkCursor b s g0) = false \/ entryEnd s = None
  end.
Proof.
  unfold matchAt, pattern, entryEnd. cbn [bt before rest].
  destruct (at_bol (mkCursor b s None)) eqn:Hbol;
    change (at_bol (mkCursor b s g0)) with (at_bol (mkCursor b s None));
    rewrite Hbol; [| by left].
  rewrite plus_run.
  2:{ intros b' c s' g Hc. rewrite bt_Lit. simpl. by rewrite (isSpace_not_u c Hc). }
  destruct (String.eqb (run isSpace s) ""); [by right |].
  rewrite bt_Lit. destruct (dropLit "url:" (skip isSpace s)) as [r2|]; [| by right].
  rewrite plus_run.
  2:{ intros b' c s' g Hc. unfold endpoint, endpointText, PlusC. simpl.
      by rewrite (isSpace_not_urlChar c Hc). }
  destruct (String.eqb (run isSpace r2) ""); [by right |].
  set (r3 := skip isSpace r2). set (b3 := lastOf _ (run isSpace r2)).
  replace (mkCursor b3 r3 None)
    with (mkCursor b3 (run notTerm r3 +:+ skip notTerm r3) None)
    by (by rewrite run_skip).
  unfold endpoint at 1. rewrite bt_line.
  2:{ reflexivity. }
  2:{ apply lineEnd_skip_notTerm. }
  rewrite bt_line_end;
    [| apply lineLocal_endpointText | apply allOf_run].
  unfold isEndpoint, endpoint.
  destruct (bt (Seq endpointText Eol) (mkCursor None (run notTerm r3) None)
              (fun _ => Some tt)) as [[]|] eqn:Hend; [| by right].
  assert (Hne : run notTerm r3 <> "").
  { apply isEndpoint_nonempty. unfold isEndpoint, endpoint. by rewrite Hend. }
  cbn [before rest group1 append]. split; [done |]. split; [done |]. split; [done |].
  unfold at_bol. cbn [before].
  pose proof (lastOf_line b3 _ Hne (allOf_run notTerm r3)) as Hlast.
  by destruct (lastOf b3 (run notTerm r3)).
Qed.

(** *** The search of [replace] *)

Lemma replace_from_fuel (r : regex) (repl : option string -> string) :
  forall (fuel fuel' : nat) (s : string) (b : option ascii),
    (String.length s < fuel)%nat -> (String.length s < fuel')%nat ->
    replace_from fuel r repl b s = replace_from fuel' r repl b s.
Proof.
  induction fuel as [|fuel IH]; intros fuel' s b Hf Hf'; [lia |].
  destruct fuel' as [|fuel']; [lia |]. simpl.
  destruct (matchAt r (mkCursor b s None)) as [y|].
  - destruct (Nat.ltb_spec (String.length (rest y)) (String.length s)).
    + by rewrite (IH fuel') by lia.
    + destruct s as [|c s]; [done |]. simpl in *.
      by rewrite (IH fuel') by lia.
  - destruct s as [|c s]; [done |]. simpl in *. by rewrite (IH fuel') by lia.
Qed.

(** at a position where the pattern does not match, the search copies one
    code unit and goes on *)
Lemma scan_skip (b : option ascii) (s : string) :
  at_bol (mkCursor b s None) = false \/ entryEnd s = None ->
  scan b s = match s with
             | String c s' => String c (scan (Some c) s')
             | EmptyString => ""
             end.
Proof.
  intros Hno. unfold scan. simpl.
  pose proof (matchAt_pattern b s None) as Hm.
  destruct (matchAt pattern (mkCursor b s None)) as [y|].
  - destruct Hm as (Hbol & Hend & _). destruct Hno; congruence.
  - by destruct s as [|c s].
Qed.

Lemma scan_nil (b : option ascii) : scan b "" = "".
Proof. apply (scan_skip b ""). by right. Qed.

(** within a line no match begins *)
Lemma scan_line (l t : string) :
  allOf notTerm l = true ->
  forall c, isLineTerminator c = false ->
    exists c', isLineTerminator c' = false
      /\ scan (Some c) (l +:+ t) = l +:+ scan (Some c') t.
Proof.
  induction l as [|x l IH]; intros Hl c Hc; simpl in *.
  - by exists c.
  - apply andb_prop in Hl as [Hx Hl].
    assert (Hx' : isLineTerminator x = false).
    { unfold notTerm in Hx. by destruct (isLineTerminator x). }
    destruct (IH Hl x Hx') as (c' & Hc' & Heq). exists c'. split; [done |].
    rewrite scan_skip by (left; unfold at_bol; simpl; done).
    by rewrite Heq.
Qed.

(** the shape of an entry *)
Lemma entryEnd_split (s r4 : string) :
  entryEnd s = Some r4 ->
  exists ws1 ws2 body,
    s = ws1 +:+ "url:" +:+ ws2 +:+ body +:+ r4
    /\ ws1 <> "" /\ allOf isSpace ws1 = true
    /\ ws2 <> "" /\ allOf isSpace ws2 = true
    /\ allOf notTerm body = true /\ isEndpoint body = true
    /\ (1 <= nonSpaces body)%nat /\ lineEnd r4 = true.
Proof.
  unfold entryEnd.
  destruct (String.eqb_spec (run isSpace s) "") as [| Hws1]; [done |].
  destruct (dropLit "url:" (skip isSpace s)) as [r2|] eqn:Hurl; [| done].
  destruct (String.eqb_spec (run isSpace r2) "") as [| Hws2]; [done |].
  destruct (isEndpoint (run notTerm (skip isSpace r2))) eqn:Hend; [| done].
  intros [= <-].
  exists (run isSpace s), (run isSpace r2), (run notTerm (skip isSpace r2)).
  split.
  { rewrite (run_skip notTerm), (run_skip isSpace r2).
    rewrite <- (dropLit_split _ _ _ Hurl). by rewrite run_skip. }
  repeat split; try done; try apply allOf_run; [| apply lineEnd_skip_notTerm].
  pose proof (skip_head isSpace r2) as Hhead.
  destruct (skip isSpace r2) as [|c r3]; [done |]. simpl in *.
  destruct (notTerm c); [| done]. simpl. rewrite Hhead. lia.
Qed.

Lemma apiKey_length (s : string) :
  String.length (s +:+ apiKey) <> String.length s.
Proof. rewrite length_append. unfold apiKey. simpl. lia. Qed.

(** at the start of a line where an entry begins, the search copies the
    entry, appends the key and goes on after the entry *)
Lemma scan_entry (b : option ascii) (s r4 : string) :
  at_bol (mkCursor b s None) = true ->
  entryEnd s = Some r4 ->
  exists c, isLineTerminator c = false
    /\ scan b s = consumed s r4 +:+ apiKey +:+ scan (Some c) r4.
Proof.
  intros Hbol Hend. unfold scan at 1. cbn [replace_from].
  pose proof (matchAt_pattern b s None) as Hm.
  destruct (matchAt pattern (mkCursor b s None)) as [[b' r g]|];
    [| destruct Hm; congruence].
  destruct Hm as (_ & Hend' & Hg & Hbol'). cbn [before rest group1] in *.
  assert (r = r4) as -> by congruence. subst g.
  destruct b' as [c|]; [| done]. unfold at_bol in Hbol'.
  cbn [before] in Hbol'. exists c. split; [done |].
  destruct (entryEnd_split _ _ Hend) as (ws1 & ws2 & body & Hs & Hne & _).
  assert (Hlen : (String.length r4 < String.length s)%nat).
  { rewrite Hs, !length_append. destruct ws1; [done | simpl; lia]. }
  destruct (Nat.ltb_spec (String.length r4) (String.length s)); [| lia].
  unfold result_. cbn [default]. rewrite append_assoc. do 2 f_equal.
  apply replace_from_fuel; lia.
Qed.

(** *** Entries, said without the matcher *)

Lemma append_inv_tail (a b c : string) : a +:+ c = b +:+ c -> a = b.
Proof.
  intros Heq.
  destruct (append_eq_append _ _ _ _ Heq) as [(e & -> & He) | (e & -> & He)];
    apply (f_equal String.length) in He; rewrite length_append in He;
    rewrite (YamlTangramProofs.length_nil e) by lia; by rewrite append_nil_r.
Qed.

Lemma urlChar_notTerm (c : ascii) : urlChar c = true -> notTerm c = true.
Proof. destruct c as [[] [] [] [] [] [] [] []]; vm_compute; congruence. Qed.

Lemma urlChar_not_space (c : ascii) : urlChar c = true -> isSpace c = false.
Proof.
  intros Hc. destruct (isSpace c) eqn:Hs; [| done].
  by rewrite (isSpace_not_urlChar c Hs) in Hc.
Qed.

Lemma allOf_impl (p q : ascii -> bool) (s : string) :
  (forall c, p c = true -> q c = true) -> allOf p s = true -> allOf q s = true.
Proof.
  intros Hpq. induction s as [|c s IH]; simpl; [done |].
  intros [Hc Hs]%andb_prop. by rewrite (Hpq c Hc), IH.
Qed.

Lemma tileEndpoint_line (dot : ascii -> bool) (body : string) :
  (forall c, dot c = true -> notTerm c = true) ->
  tileEndpoint dot body -> allOf notTerm body = true.
Proof.
  intros Hdot (u1 & c & u2 & ext & -> & [_ Hu1] & Hc & [_ Hu2] & Hext).
  rewrite !allOf_append. cbn [allOf]. rewrite !allOf_append.
  rewrite (allOf_impl _ _ u1 urlChar_notTerm Hu1),
    (allOf_impl _ _ u2 urlChar_notTerm Hu2), (Hdot c Hc).
  by destruct Hext as [-> | [-> | ->]].
Qed.

(** an endpoint begins with seven url characters at least *)
Lemma tileEndpoint_head (dot : ascii -> bool) (body : string) :
  tileEndpoint dot body ->
  exists a z, body = a +:+ z /\ allOf urlChar a = true
              /\ (7 <= String.length a)%nat.
Proof.
  intros (u1 & c & u2 & ext & -> & [Hne Hu1] & _).
  exists (u1 +:+ "mapzen"), (String c ("com" +:+ u2 +:+ ext)).
  split; [by rewrite !append_assoc |].
  rewrite allOf_append, Hu1, length_append.
  split; [done |]. destruct u1; [done | simpl; lia].
Qed.

Lemma dropLit_in_class (p : ascii -> bool) (z : string) :
  forall (lit a s' : string),
    allOf p a = true -> (String.length lit < String.length a)%nat ->
    dropLit lit (a +:+ z) = Some s' ->
    exists c s'', s' = String c s'' /\ p c = true.
Proof.
  induction lit as [|x lit IH]; intros a s' Ha Hlen; simpl.
  - intros [= <-]. destruct a as [|c a]; [simpl in Hlen; lia |].
    simpl in Ha. apply andb_prop in Ha as [Hc _]. by exists c, (a +:+ z).
  - destruct a as [|c a]; [simpl in Hlen; lia |]. simpl in *.
    apply andb_prop in Ha as [_ Ha]. destruct (isChar x c); [| done].
    apply IH; [done | lia].
Qed.

Lemma dropLit_self (lit s : string) : dropLit lit (lit +:+ s) = Some s.
Proof.
  induction lit as [|a lit IH]; simpl; [done |].
  unfold isChar. by rewrite Ascii.eqb_refl.
Qed.

Lemma run_stop (p : ascii -> bool) (c : ascii) (s : string) :
  p c = false -> run p (String c s) = "" /\ skip p (String c s) = String c s.
Proof. intros Hc. simpl. by rewrite Hc. Qed.

(** white space before a text that begins outside white space *)
Lemma run_blanks (w : string) (c : ascii) (s : string) :
  allOf isSpace w = true -> isSpace c = false ->
  run isSpace (w +:+ String c s) = w
  /\ skip isSpace (w +:+ String c s) = String c s.
Proof.
  intros Hw Hc. destruct (run_append_all isSpace w (String c s) Hw) as [-> ->].
  destruct (run_stop isSpace c s Hc) as [-> ->]. by rewrite append_nil_r.
Qed.

Lemma eqb_nonempty (s : string) : s <> "" -> String.eqb s "" = false.
Proof. by destruct s. Qed.

(** an entry followed by the end of a line is found as one *)
Lemma urlEntry_entryEnd (t r : string) :
  urlEntry notTerm t -> lineEnd r = true -> entryEnd (t +:+ r) = Some r.
Proof.
  intros (w1 & w2 & body & -> & [Hne1 Hw1] & [Hne2 Hw2] & Hbody) Hr.
  pose proof (tileEndpoint_line notTerm body (fun c Hc => Hc) Hbody) as Hline.
  pose proof (proj2 (isEndpoint_tileEndpoint body Hline) Hbody) as Hend.
  destruct (tileEndpoint_head _ _ Hbody) as (a & z & -> & Ha & Hlen).
  destruct a as [|c a]; [simpl in Hlen; lia |].
  pose proof Ha as Hc. simpl in Hc. apply andb_prop in Hc as [Hc _].
  apply urlChar_not_space in Hc.
  unfold entryEnd. rewrite !append_assoc.
  change ("url:" +:+ ?x) with (String "u" ("rl:" +:+ x)).
  rewrite (proj1 (run_blanks w1 "u" _ Hw1 eq_refl)),
    (proj2 (run_blanks w1 "u" _ Hw1 eq_refl)), (eqb_nonempty w1 Hne1).
  change (String "u" ("rl:" +:+ ?x)) with ("url:" +:+ x).
  rewrite dropLit_self.
  change (String c a +:+ ?x) with (String c (a +:+ x)).
  rewrite (proj1 (run_blanks w2 c _ Hw2 Hc)),
    (proj2 (run_blanks w2 c _ Hw2 Hc)), (eqb_nonempty w2 Hne2).
  replace (String c (a +:+ z +:+ r)) with ((String c a +:+ z) +:+ r)
    by (by rewrite append_assoc).
  destruct (run_append_all notTerm (String c a +:+ z) r Hline) as [-> ->].
  by rewrite (run_lineEnd r Hr), (skip_lineEnd r Hr), append_nil_r, Hend.
Qed.

Lemma entryEnd_urlEntry (s r : string) :
  entryEnd s = Some r ->
  exists t, s = t +:+ r /\ urlEntry notTerm t /\ lineEnd r = true.
Proof.
  intros (ws1 & ws2 & body & -> & Hne1 & Hw1 & Hne2 & Hw2 & Hline & Hend
          & _ & Hr)%entryEnd_split.
  exists (ws1 +:+ "url:" +:+ ws2 +:+ body).
  split; [by rewrite !append_assoc |]. split; [| done].
  exists ws1, ws2, body. split; [done |]. split; [done |]. split; [done |].
  by apply isEndpoint_tileEndpoint.
Qed.

(** white space and then an endpoint is no entry *)
Lemma entryEnd_at_endpoint (y body r : string) :
  allOf isSpace y = true -> tileEndpoint notTerm body ->
  entryEnd (y +:+ body +:+ r) = None.
Proof.
  intros Hy Hbody.
  destruct (tileEndpoint_head _ _ Hbody) as (a & z & -> & Ha & Hlen).
  destruct a as [|c a]; [simpl in Hlen; lia |].
  pose proof Ha as Hc. simpl in Hc. apply andb_prop in Hc as [Hc _].
  apply urlChar_not_space in Hc.
  unfold entryEnd.
  change ((String c a +:+ z) +:+ r) with (String c ((a +:+ z) +:+ r)).
  rewrite (proj1 (run_blanks y c _ Hy Hc)), (proj2 (run_blanks y c _ Hy Hc)).
  destruct (String.eqb y ""); [done |].
  replace (String c ((a +:+ z) +:+ r)) with (String c a +:+ (z +:+ r))
    by (simpl; by rewrite append_assoc).
  destruct (dropLit "url:" (String c a +:+ (z +:+ r))) as [s'|] eqn:Hdrop;
    [| done].
  apply (dropLit_in_class urlChar) in Hdrop as (c' & s'' & -> & Hc');
    [| done | simpl in *; lia].
  apply urlChar_not_space in Hc'.
  destruct (run_stop isSpace c' s'' Hc') as [-> _]. done.
Qed.

(** *** Lines *)

Lemma joinLines_cons (l : string) (ls : list string) :
  joinLines (l :: ls) = l +:+ tailOf ls.
Proof. destruct ls; simpl; [by rewrite append_nil_r | done]. Qed.

Lemma joinLines_middle (mid : list string) (l : string) (back : list string) :
  joinLines (mid ++ l :: back) = linesText mid +:+ l +:+ tailOf back.
Proof.
  induction mid as [|x mid IH]; [apply joinLines_cons |].
  change ((x :: mid) ++ l :: back) with (x :: (mid ++ l :: back)).
  rewrite joinLines_cons. cbn [linesText]. rewrite append_assoc. f_equal.
  destruct (mid ++ l :: back) eqn:Heq; [by destruct mid |].
  cbn [tailOf]. by rewrite IH.
Qed.

Lemma lineEnd_append (e t : string) :
  allOf notTerm e = true -> lineEnd (e +:+ t) = true -> e = "".
Proof.
  destruct e as [|c e]; [done |]. simpl. unfold notTerm.
  intros [Hc _]%andb_prop. intros Hl. by rewrite Hl in Hc.
Qed.

(** A position of the joined text at which a line ends lies between two
    lines. *)
Lemma joinLines_split (lines : list string) :
  Forall (fun l => isLine l = true) lines ->
  forall m r4 : string,
    lines <> [] ->
    joinLines lines = m +:+ r4 -> lineEnd r4 = true ->
    exists mid l back,
      lines = mid ++ l :: back /\ m = linesText mid +:+ l /\ r4 = tailOf back.
Proof.
  induction 1 as [|l rest Hl Hrest IH]; intros m r4 Hne Heq Hend; [done |].
  rewrite joinLines_cons in Heq.
  destruct (append_eq_append _ _ _ _ Heq) as [(e & -> & Htail) | (e & Hle & ->)].
  - destruct e as [|c e].
    + exists [], l, rest. by rewrite append_nil_r.
    + destruct rest as [|l' rest']; [done |].
      cbn [tailOf] in Htail. injection Htail as <- Htail.
      destruct (IH e r4 ltac:(done) Htail Hend) as (mid & lj & back & Hlines & -> & ->).
      exists (l :: mid), lj, back. rewrite Hlines. split; [done |].
      split; [| done]. cbn [linesText]. by rewrite !append_assoc.
  - assert (e = "") as ->.
    { apply (lineEnd_append e (tailOf rest)); [| done].
      unfold isLine in Hl. rewrite Hle, allOf_append in Hl.
      by apply andb_prop in Hl as [_ ?]. }
    rewrite append_nil_r in Hle. subst m.
    exists [], l, rest. done.
Qed.

(** *** Lines that match the pattern *)

Lemma exec_from_inside (s : string) :
  forall (i : nat) (c : ascii),
    isLineTerminator c = false -> allOf notTerm s = true ->
    exec_from pattern i (Some c) s = None.
Proof.
  induction s as [|x s IH]; intros i c Hc Hs; cbn [exec_from].
  - pose proof (matchAt_pattern (Some c) "" None) as Hm.
    destruct (matchAt pattern _) as [y|]; [| done].
    destruct Hm as (Hbol & _). unfold at_bol in Hbol. simpl in Hbol. congruence.
  - pose proof (matchAt_pattern (Some c) (String x s) None) as Hm.
    destruct (matchAt pattern _) as [y|].
    + destruct Hm as (Hbol & _). unfold at_bol in Hbol. simpl in Hbol. congruence.
    + simpl in Hs. apply andb_prop in Hs as [Hx Hs]. apply IH; [| done].
      unfold notTerm in Hx. by destruct (isLineTerminator x).
Qed.

(** a line matches the pattern when it begins with an entry *)
Lemma matchesPattern_entry (l : string) :
  isLine l = true -> matchesPattern l = true ->
  exists r, entryEnd l = Some r.
Proof.
  unfold matchesPattern, exec, isLine. intros Hl.
  pose proof (matchAt_pattern None l None) as Hm.
  destruct l as [|x l]; cbn [exec_from];
    destruct (matchAt pattern _) as [y|];
    try (destruct Hm as (_ & Hend & _); by eauto).
  - done.
  - simpl in Hl. apply andb_prop in Hl as [Hx Hl].
    rewrite exec_from_inside; [done | | done].
    unfold notTerm in Hx. by destruct (isLineTerminator x).
Qed.

(** an entry on a line is an entry of the joined text, and ends with the
    line *)
Lemma entryEnd_line (l t r : string) :
  isLine l = true -> entryEnd l = Some r -> lineEnd t = true ->
  entryEnd (l +:+ t) = Some t.
Proof.
  unfold entryEnd, isLine. intros Hl Hentry Ht.
  destruct (String.eqb_spec (run isSpace l) "") as [| Hws1]; [done |].
  destruct (dropLit "url:" (skip isSpace l)) as [r2|] eqn:Hurl; [| done].
  destruct (String.eqb_spec (run isSpace r2) "") as [| Hws2]; [done |].
  destruct (isEndpoint (run notTerm (skip isSpace r2))) eqn:Hend; [| done].
  assert (Hl1 : skip isSpace l <> "") by (intros Hnil; by rewrite Hnil in Hurl).
  destruct (run_append_stop isSpace l t Hl1) as [-> ->].
  destruct (String.eqb_spec (run isSpace l) ""); [done |].
  rewrite (dropLit_append _ _ _ t Hurl).
  assert (Hr2 : allOf notTerm r2 = true).
  { pose proof (allOf_skip isSpace notTerm l Hl) as Hsk.
    rewrite (dropLit_split _ _ _ Hurl), allOf_append in Hsk.
    by apply andb_prop in Hsk as [_ ?]. }
  pose proof (allOf_skip isSpace notTerm r2 Hr2) as Hr3.
  destruct (run_all notTerm _ Hr3) as [Hrun Hskip]. rewrite Hrun in Hend.
  assert (Hl2 : skip isSpace r2 <> "") by (intros Hnil; by rewrite Hnil in Hend).
  destruct (run_append_stop isSpace r2 t Hl2) as [-> ->].
  destruct (String.eqb_spec (run isSpace r2) ""); [done |].
  destruct (run_append_all notTerm (skip isSpace r2) t Hr3) as [-> ->].
  by rewrite (run_lineEnd t Ht), (skip_lineEnd t Ht), append_nil_r, Hend.
Qed.

Lemma nonSpaces_append (s t : string) :
  nonSpaces (s +:+ t) = (nonSpaces s + nonSpaces t)%nat.
Proof. induction s as [|c s IH]; simpl; [done | rewrite IH; lia]. Qed.

Lemma nonSpaces_spaces (s : string) : allOf isSpace s = true -> nonSpaces s = 0%nat.
Proof.
  induction s as [|c s IH]; simpl; [done |].
  intros [-> Hs]%andb_prop. by rewrite IH.
Qed.

Lemma nonSpaces_linesText (mid : list string) (l : string) :
  l ∈ mid -> (nonSpaces l <= nonSpaces (linesText mid))%nat.
Proof.
  induction mid as [|x mid IH]; [by intros ?%elem_of_nil |].
  cbn [linesText]. rewrite nonSpaces_append. simpl.
  intros [-> | Hin]%elem_of_cons; [lia |]. specialize (IH Hin). lia.
Qed.

(** a line that matches holds more than [url:] *)
Lemma matchesPattern_nonSpaces (l : string) :
  isLine l = true -> matchesPattern l = true -> (5 <= nonSpaces l)%nat.
Proof.
  intros Hl Hm. destruct (matchesPattern_entry l Hl Hm) as (r & Hr).
  destruct (entryEnd_split _ _ Hr)
    as (ws1 & ws2 & body & -> & _ & Hws1 & _ & Hws2 & _ & _ & Hbody & _).
  rewrite !nonSpaces_append, (nonSpaces_spaces _ Hws1), (nonSpaces_spaces _ Hws2).
  change (nonSpaces "url:") with 4%nat. lia.
Qed.

Lemma lineEnd_tailOf (ls : list string) : lineEnd (tailOf ls) = true.
Proof. by destruct ls. Qed.

Lemma lastOf_linesText (mid : list string) :
  mid <> [] -> forall b, lastOf b (linesText mid) = Some newline.
Proof.
  induction mid as [|x mid IH]; [done |]. intros _ b.
  cbn [linesText]. rewrite lastOf_append. cbn [lastOf].
  destruct mid as [|x' mid]; [done |]. by apply IH.
Qed.

(** the entry that ends a match lies on the last line of the match *)
Lemma entry_last_line (mid : list string) (lj pre body : string) :
  linesText mid +:+ lj = pre +:+ body ->
  allOf notTerm body = true ->
  exists e, pre = linesText mid +:+ e /\ lj = e +:+ body.
Proof.
  intros Heq Hbody.
  destruct (append_eq_append _ _ _ _ Heq) as [(e & -> & ->) | (e & Hmid & ->)];
    [by exists e |].
  rewrite allOf_append in Hbody. apply andb_prop in Hbody as [He Hlj].
  destruct (decide (e = "")) as [-> | Hne].
  { rewrite append_nil_r in Hmid. exists "". by rewrite Hmid, append_nil_r. }
  exfalso. assert (Hmid' : mid <> []).
  { intros ->. simpl in Hmid. symmetry in Hmid.
    by apply append_eq_nil in Hmid as [_ ?]. }
  pose proof (lastOf_linesText mid Hmid' None) as Hlast.
  rewrite Hmid, lastOf_append in Hlast.
  pose proof (lastOf_line (lastOf None pre) e Hne He) as Hline.
  rewrite Hlast in Hline. done.
Qed.

(** the search after a line: the newline is copied and the search goes on
    with the lines that remain *)
Lemma scan_tail (b : option ascii) (rest : list string) :
  at_bol (mkCursor b (tailOf rest) None) = false
  \/ entryEnd (tailOf rest) = None ->
  (forall b', at_bol (mkCursor b' "" None) = true ->
     exists out, scan b' (joinLines rest) = joinLines out
       /\ Forall2 lineResult rest out) ->
  exists out, scan b (tailOf rest) = tailOf out /\ Forall2 lineResult rest out.
Proof.
  intros Hno IH. destruct rest as [|x rest].
  - exists []. split; [apply scan_nil | constructor].
  - destruct (IH (Some newline) eq_refl) as (out & Hscan & Hall).
    exists out. split; [| done]. rewrite scan_skip by done.
    inversion Hall as [|? y ? out' Hy Hout]; subst out.
    unfold tailOf. cbv iota. by rewrite Hscan.
Qed.

Lemma lineResult_kept (l : string) :
  matchesPattern l = false -> lineResult l l.
Proof.
  intros Hm. split; [by left |]. split; [by rewrite Hm |].
  intros Heq. exfalso. apply (apiKey_length l). by rewrite <- Heq.
Qed.

(** The search over the lines of a document, from the start of a line. *)
Lemma scan_lines (n : nat) :
  forall lines : list string,
    (length lines <= n)%nat ->
    Forall (fun l => isLine l = true) lines ->
    forall b, at_bol (mkCursor b "" None) = true ->
      exists out, scan b (joinLines lines) = joinLines out
        /\ Forall2 lineResult lines out.
Proof.
  induction n as [|n IH]; intros lines Hlen Hall b Hbol.
  { destruct lines; [| simpl in Hlen; lia].
    exists []. split; [apply scan_nil | constructor]. }
  destruct lines as [|l rest].
  { exists []. split; [apply scan_nil | constructor]. }
  pose proof Hall as Hall0.
  apply Forall_cons in Hall as [Hl Hrest]. simpl in Hlen.
  rewrite joinLines_cons.
  destruct (entryEnd (l +:+ tailOf rest)) as [r4|] eqn:Hentry.
  - (* a match begins on this line *)
    destruct (scan_entry b (l +:+ tailOf rest) r4 Hbol Hentry)
      as (c & Hc & Hscan).
    destruct (entryEnd_split _ _ Hentry)
      as (ws1 & ws2 & body & Hs & _ & Hws1 & _ & Hws2 & Hbody & Hend & _ & Hr4).
    assert (Hs' : joinLines (l :: rest)
                  = (ws1 +:+ "url:" +:+ ws2 +:+ body) +:+ r4).
    { rewrite joinLines_cons, Hs. by rewrite !append_assoc. }
    destruct (joinLines_split _ Hall0 _ _ ltac:(done) Hs' Hr4)
      as (mid & lj & back & Hlines & Hm & ->).
    assert (Hcons : consumed (l +:+ tailOf rest) (tailOf back)
                    = linesText mid +:+ lj).
    { rewrite <- joinLines_cons, Hs', <- Hm. apply consumed_append. }
    rewrite Hlines in Hall0. apply Forall_app in Hall0 as [Hmid Hback].
    apply Forall_cons in Hback as [Hlj Hback].
    assert (Hlen' : (length back <= n)%nat).
    { apply (f_equal length) in Hlines. rewrite length_app in Hlines.
      simpl in Hlines. lia. }
    destruct (scan_tail (Some c) back) as (out & Hout & Hres).
    { left. unfold at_bol. by simpl. }
    { intros b' Hb'. by apply IH. }
    exists (mid ++ (lj +:+ apiKey) :: out). split.
    + rewrite Hscan, Hcons, Hout, joinLines_middle. by rewrite !append_assoc.
    + rewrite Hlines.
      replace (ws1 +:+ "url:" +:+ ws2 +:+ body)
        with ((ws1 +:+ "url:" +:+ ws2) +:+ body) in Hm
        by (by rewrite !append_assoc).
      symmetry in Hm.
      destruct (entry_last_line mid lj _ body Hm Hbody) as (e & Hpre & Hlast).
      apply Forall2_app; [| constructor; [| done]].
      * apply Forall2_same_length_lookup. split; [done |].
        intros i x x' Hx Hx'. assert (x' = x) as -> by congruence.
        apply lineResult_kept.
        destruct (matchesPattern x) eqn:Hmatch; [| done]. exfalso.
        assert (Hin : x ∈ mid) by (by eapply list_elem_of_lookup_2).
        pose proof (matchesPattern_nonSpaces x
                      (proj1 (Forall_forall _ _) Hmid x Hin) Hmatch) as H5.
        pose proof (nonSpaces_linesText mid x Hin) as Hle.
        apply (f_equal nonSpaces) in Hpre.
        rewrite !nonSpaces_append, (nonSpaces_spaces _ Hws1),
          (nonSpaces_spaces _ Hws2) in Hpre.
        change (nonSpaces "url:") with 4%nat in Hpre. lia.
      * split; [by right |]. split; [done |]. intros _.
        by exists e, body.
  - (* no match begins on this line *)
    assert (Hkept : lineResult l l).
    { apply lineResult_kept. destruct (matchesPattern l) eqn:Hmatch; [| done].
      destruct (matchesPattern_entry l Hl Hmatch) as (r & Hr).
      rewrite (entryEnd_line l (tailOf rest) r Hl Hr (lineEnd_tailOf rest))
        in Hentry. done. }
    assert (IH' : forall b', at_bol (mkCursor b' "" None) = true ->
              exists out, scan b' (joinLines rest) = joinLines out
                /\ Forall2 lineResult rest out).
    { intros b' Hb'. apply IH; [lia | done | done]. }
    destruct l as [|x l].
    + destruct (scan_tail b rest (or_intror Hentry) IH') as (out & Hout & Hres).
      exists ("" :: out). split; [by rewrite joinLines_cons | by constructor].
    + rewrite scan_skip by (by right).
      unfold isLine in Hl. simpl in Hl. apply andb_prop in Hl as [Hx Hl].
      assert (Hx' : isLineTerminator x = false).
      { unfold notTerm in Hx. by destruct (isLineTerminator x). }
      change (String x l +:+ tailOf rest) with (String x (l +:+ tailOf rest)).
      cbv iota beta.
      destruct (scan_line l (tailOf rest) Hl x Hx') as (c' & Hc' & Hline).
      destruct (scan_tail (Some c') rest) as (out & Hout & Hres);
        [left; unfold at_bol; by simpl | done |].
      exists (String x l :: out). split; [| by constructor].
      by rewrite Hline, Hout, joinLines_cons.
Qed.

(** *** The lines that end an entry *)

Lemma joinLines_app (front ls : list string) :
  ls <> [] -> joinLines (front ++ ls) = linesText front +:+ joinLines ls.
Proof.
  destruct ls as [|l back]; [done |]. intros _.
  by rewrite joinLines_middle, joinLines_cons.
Qed.

Lemma linesText_app (front mid : list string) :
  linesText (front ++ mid) = linesText front +:+ linesText mid.
Proof.
  induction front as [|x front IH]; simpl; [done |].
  by rewrite IH, !append_assoc.
Qed.

Lemma joinLines_take (ls : list string) (k : nat) :
  (k < length ls)%nat ->
  joinLines ls = joinLines (take (S k) ls) +:+ tailOf (drop (S k) ls).
Proof.
  intros Hk. destruct (lookup_lt_is_Some_2 ls k Hk) as [l Hl].
  rewrite <- (take_drop_middle ls k l Hl) at 1.
  rewrite joinLines_middle, (take_S_r ls k l Hl), joinLines_middle.
  simpl. by rewrite append_nil_r, !append_assoc.
Qed.

Lemma tailOf_drop_S (ls : list string) (a : nat) :
  (a < length ls)%nat ->
  (String.length (tailOf (drop (S a) ls))
   < String.length (tailOf (drop a ls)))%nat.
Proof.
  intros Ha. destruct (lookup_lt_is_Some_2 ls a Ha) as [l Hl].
  rewrite (drop_S ls l a Hl). cbn [tailOf]. rewrite joinLines_cons.
  cbn [String.length]. rewrite length_append. lia.
Qed.

Lemma tailOf_drop_lt (ls : list string) (a b : nat) :
  (a < b <= length ls)%nat ->
  (String.length (tailOf (drop b ls))
   < String.length (tailOf (drop a ls)))%nat.
Proof.
  intros [Hab Hb]. induction Hab as [|b Hab IH].
  - apply tailOf_drop_S. lia.
  - pose proof (tailOf_drop_S ls b ltac:(lia)). specialize (IH ltac:(lia)).
    lia.
Qed.

Lemma tailOf_drop_inj (ls : list string) (a b : nat) :
  (a <= length ls)%nat -> (b <= length ls)%nat ->
  tailOf (drop a ls) = tailOf (drop b ls) -> a = b.
Proof.
  intros Ha Hb Heq. apply (f_equal String.length) in Heq.
  destruct (Nat.lt_trichotomy a b) as [Hlt | [-> | Hgt]]; [| done |].
  - pose proof (tailOf_drop_lt ls a b ltac:(lia)). lia.
  - pose proof (tailOf_drop_lt ls b a ltac:(lia)). lia.
Qed.

(** the entries of a document are what the search finds at the starts of
    its lines *)
Lemma entryLines_entryEnd (lines : list string) (i j : nat) :
  (i <= j < length lines)%nat ->
  urlEntry notTerm (joinLines (take (S j - i) (drop i lines)))
  <-> entryEnd (joinLines (drop i lines)) = Some (tailOf (drop (S j) lines)).
Proof.
  intros Hij.
  assert (Hjoin : joinLines (drop i lines)
                  = joinLines (take (S j - i) (drop i lines))
                    +:+ tailOf (drop (S j) lines)).
  { rewrite (joinLines_take (drop i lines) (j - i))
      by (rewrite length_drop; lia).
    rewrite drop_drop. replace (i + S (j - i))%nat with (S j) by lia.
    by replace (S j - i)%nat with (S (j - i)) by lia. }
  rewrite Hjoin. split.
  - intros Hentry. apply urlEntry_entryEnd; [done | apply lineEnd_tailOf].
  - intros (t & Heq & Hentry & _)%entryEnd_urlEntry.
    by apply append_inv_tail in Heq as ->.
Qed.

(** a text that ends a line and begins [url:] and white space holds the
    whole of [url:] *)
Lemma url_prefix (e1 y ws2 : string) (b : option ascii) :
  e1 <> "" -> lastOf b e1 = Some newline ->
  "url:" +:+ ws2 = e1 +:+ y ->
  exists e2, e1 = "url:" +:+ e2 /\ ws2 = e2 +:+ y.
Proof.
  intros Hne Hlast Heq.
  destruct e1 as [|c1 e1]; [done |]. injection Heq as <- Heq.
  destruct e1 as [|c2 e1]; [by vm_compute in Hlast |]. injection Heq as <- Heq.
  destruct e1 as [|c3 e1]; [by vm_compute in Hlast |]. injection Heq as <- Heq.
  destruct e1 as [|c4 e1]; [by vm_compute in Hlast |]. injection Heq as <- Heq.
  by exists e1.
Qed.

(** An entry that begins inside an entry ends with it: between the start
    of an entry and its endpoint no other entry begins. *)
Lemma entryEnd_overlap (front mid : list string) (lj : string)
    (back : list string) (r : string) :
  entryEnd (joinLines (front ++ mid ++ lj :: back)) = Some (tailOf back) ->
  Forall (fun l => isLine l = true) (front ++ mid ++ lj :: back) ->
  entryEnd (joinLines (mid ++ lj :: back)) = Some r ->
  r = tailOf back.
Proof.
  intros Hentry Hlines Hinner.
  rewrite joinLines_app in Hentry by (by destruct mid).
  rewrite joinLines_middle in Hentry, Hinner.
  destruct (entryEnd_split _ _ Hentry)
    as (ws1 & ws2 & body & Hs & Hne1 & Hws1 & Hne2 & Hws2 & Hbody & Hend
        & _ & _).
  pose proof (proj1 (isEndpoint_tileEndpoint body Hbody) Hend) as Htile.
  assert (Hs' : linesText (front ++ mid) +:+ lj
                = (ws1 +:+ "url:" +:+ ws2) +:+ body).
  { apply (append_inv_tail _ _ (tailOf back)).
    by rewrite linesText_app, !append_assoc, Hs. }
  destruct (entry_last_line _ _ _ _ Hs' Hbody) as (e & Hpre & ->).
  rewrite linesText_app, append_assoc in Hpre.
  assert (Hinner' : entryEnd ((linesText mid +:+ e) +:+ body +:+ tailOf back)
                    = Some r).
  { rewrite <- Hinner. f_equal. by rewrite !append_assoc. }
  clear Hinner.
  destruct (append_eq_append _ _ _ _ Hpre)
    as [(e1 & Hfront & Hurl) | (e1 & -> & Hmid)].
  - (* the inner start lies after the white space that begins the entry *)
    exfalso. destruct e1 as [|c1 e1].
    { cbn [String.append] in Hurl. rewrite <- Hurl in Hinner'.
      unfold entryEnd in Hinner'.
      change ("url:" +:+ ?x) with (String "u" ("rl:" +:+ x)) in Hinner'.
      change ((String "u" ?x) +:+ ?y) with (String "u" (x +:+ y)) in Hinner'.
      by rewrite (proj1 (run_stop isSpace "u" _ eq_refl)) in Hinner'. }
    assert (Hlast : lastOf None (linesText front) = Some newline).
    { apply lastOf_linesText. intros ->. simpl in Hfront. symmetry in Hfront.
      by apply append_eq_nil in Hfront as [_ ?]. }
    rewrite Hfront, lastOf_append in Hlast.
    assert (exists e2, String c1 e1 = "url:" +:+ e2
              /\ ws2 = e2 +:+ (linesText mid +:+ e)) as (e2 & He2 & Hws).
    { by apply (url_prefix _ _ _ (lastOf None ws1)). }
    rewrite Hws, allOf_append in Hws2. apply andb_prop in Hws2 as [_ Hy].
    by rewrite (entryEnd_at_endpoint _ body (tailOf back) Hy Htile)
      in Hinner'.
  - (* the inner start lies in the white space that begins the entry *)
    rewrite allOf_append in Hws1. apply andb_prop in Hws1 as [_ He1].
    rewrite Hmid in Hinner'.
    destruct e1 as [|c1 e1].
    { unfold entryEnd in Hinner'.
      change ("" +:+ ?x) with x in Hinner'.
      change ("url:" +:+ ?x) with (String "u" ("rl:" +:+ x)) in Hinner'.
      change ((String "u" ?x) +:+ ?y) with (String "u" (x +:+ y)) in Hinner'.
      by rewrite (proj1 (run_stop isSpace "u" _ eq_refl)) in Hinner'. }
    rewrite <- !append_assoc in Hinner'.
    rewrite (urlEntry_entryEnd (((String c1 e1 +:+ "url:") +:+ ws2) +:+ body))
      in Hinner'.
    + by injection Hinner' as <-.
    + exists (String c1 e1), ws2, body. rewrite !append_assoc.
      by repeat split.
    + apply lineEnd_tailOf.
Qed.

(** the entries of the lines that follow a part of the document *)
Lemma entryLines_shift (dot : ascii -> bool) (front back : list string)
    (i j : nat) :
  entryLines dot (front ++ back) (length front + i) (length front + j)
  <-> entryLines dot back i j.
Proof.
  unfold entryLines. rewrite length_app, drop_app_add.
  replace (S (length front + j) - (length front + i))%nat
    with (S j - i)%nat by lia.
  split; intros [Hij Hentry]; (split; [lia | done]).
Qed.

(** Where the search finds an entry at the start of the lines, an entry
    that begins on one of its lines ends on its last line. *)
Lemma entryLines_overlap (mid : list string) (lj : string)
    (back : list string) (i j : nat) :
  Forall (fun l => isLine l = true) (mid ++ lj :: back) ->
  entryEnd (joinLines (mid ++ lj :: back)) = Some (tailOf back) ->
  (i <= length mid)%nat ->
  entryLines notTerm (mid ++ lj :: back) i j -> j = length mid.
Proof.
  intros Hall Hentry Hi [Hij Hin].
  apply entryLines_entryEnd in Hin; [| done].
  assert (Hback : drop (S (length mid)) (mid ++ lj :: back) = back).
  { replace (S (length mid)) with (length mid + 1)%nat by lia.
    by rewrite drop_app_add. }
  rewrite drop_app_le in Hin by done.
  assert (Hsplit : mid ++ lj :: back
                   = take i mid ++ drop i mid ++ lj :: back).
  { by rewrite app_assoc, take_drop. }
  rewrite Hsplit in Hentry, Hall.
  pose proof (entryEnd_overlap _ _ _ _ _ Hentry Hall Hin) as Heq.
  rewrite <- Hback in Heq at 2.
  apply tailOf_drop_inj in Heq; [lia | lia |].
  rewrite length_app. simpl. lia.
Qed.

Lemma keyed_nil (dot : ascii -> bool) : keyed dot [] [].
Proof. split; [done |]. by intros j l Hl. Qed.

(** a line on which the search finds no entry is kept *)
Lemma keyed_kept (l : string) (rest out : list string) :
  entryEnd (joinLines (l :: rest)) = None ->
  keyed notTerm rest out -> keyed notTerm (l :: rest) (l :: out).
Proof.
  intros Hnone [Hlen Hk]. split; [simpl; lia |].
  assert (Hno : forall j, ~ entryLines notTerm (l :: rest) 0 j).
  { intros j [Hij Hin]. apply entryLines_entryEnd in Hin; [| done].
    rewrite drop_0 in Hin. congruence. }
  intros [|j] x Hx.
  - right. injection Hx as <-. split; [| done].
    intros [[|i] Hi]; [by apply (Hno 0%nat) |]. destruct Hi. lia.
  - simpl in Hx. destruct (Hk j x Hx) as [[[i Hi] Ho] | [Hn Ho]].
    + left. split; [| done]. exists (S i).
      by apply (entryLines_shift notTerm [l] rest i j).
    + right. split; [| done].
      intros [[|i] Hi]; [by apply (Hno (S j)) |]. apply Hn. exists i.
      by apply (entryLines_shift notTerm [l] rest i j).
Qed.

(** the lines of an entry that the search finds: the last one gets the
    key, the ones before it are kept *)
Lemma keyed_entry (mid : list string) (lj : string)
    (back out : list string) :
  Forall (fun l => isLine l = true) (mid ++ lj :: back) ->
  entryEnd (joinLines (mid ++ lj :: back)) = Some (tailOf back) ->
  keyed notTerm back out ->
  keyed notTerm (mid ++ lj :: back) (mid ++ (lj +:+ apiKey) :: out).
Proof.
  intros Hall Hentry [Hlen Hk]. split; [rewrite !length_app; simpl; lia |].
  intros j x Hx.
  destruct (Nat.lt_trichotomy j (length mid)) as [Hlt | [-> | Hgt]].
  - right. rewrite lookup_app_l in Hx |- * by done. split; [| done].
    intros [i Hi].
    assert (Hi' : (i <= length mid)%nat) by (destruct Hi; lia).
    pose proof (entryLines_overlap mid lj back i j Hall Hentry Hi' Hi). lia.
  - left. rewrite list_lookup_middle in Hx |- * by done.
    injection Hx as <-. split; [| done]. exists 0%nat.
    split; [rewrite length_app; simpl; lia |].
    apply entryLines_entryEnd; [rewrite length_app; simpl; lia |].
    rewrite drop_0. replace (S (length mid)) with (length mid + 1)%nat by lia.
    by rewrite drop_app_add.
  - assert (Hfront : length (mid ++ [lj]) = S (length mid))
      by (rewrite length_app; simpl; lia).
    assert (Hkeyed : length (mid ++ [lj +:+ apiKey]) = S (length mid))
      by (rewrite length_app; simpl; lia).
    assert (Heq : mid ++ lj :: back = (mid ++ [lj]) ++ back)
      by (by rewrite <- app_assoc).
    assert (Heq' : mid ++ (lj +:+ apiKey) :: out
                   = (mid ++ [lj +:+ apiKey]) ++ out)
      by (by rewrite <- app_assoc).
    assert (Hj : j = (length (mid ++ [lj]) + (j - S (length mid)))%nat)
      by lia.
    rewrite Heq' at 1 2. rewrite Heq in Hx.
    rewrite lookup_app_r in Hx |- * by lia. rewrite Hfront in Hx.
    rewrite Hkeyed.
    destruct (Hk _ x Hx) as [[[i Hi] Ho] | [Hn Ho]].
    + left. split; [| done]. exists (length (mid ++ [lj]) + i)%nat.
      rewrite Hj, Heq. by apply entryLines_shift.
    + right. split; [| done]. intros [i Hi]. apply Hn.
      destruct (decide (i <= length mid)%nat) as [Hle | Hge].
      * pose proof (entryLines_overlap mid lj back i j Hall Hentry Hle Hi).
        lia.
      * exists (i - S (length mid))%nat.
        apply (entryLines_shift notTerm (mid ++ [lj])). rewrite <- Heq, <- Hj.
        by replace (length (mid ++ [lj]) + (i - S (length mid)))%nat
          with i by lia.
Qed.

(** the search after a line, as in [scan_tail] *)
Lemma scan_tail_keyed (b : option ascii) (rest : list string) :
  at_bol (mkCursor b (tailOf rest) None) = false
  \/ entryEnd (tailOf rest) = None ->
  (forall b', at_bol (mkCursor b' "" None) = true ->
     exists out, scan b' (joinLines rest) = joinLines out
       /\ keyed notTerm rest out) ->
  exists out, scan b (tailOf rest) = tailOf out /\ keyed notTerm rest out.
Proof.
  intros Hno IH. destruct rest as [|x rest].
  - exists []. split; [apply scan_nil | apply keyed_nil].
  - destruct (IH (Some newline) eq_refl) as (out & Hscan & Hall).
    exists out. split; [| done]. rewrite scan_skip by done.
    destruct out as [|y out]; [by destruct Hall |].
    unfold tailOf. cbv iota. by rewrite Hscan.
Qed.

(** The search over the lines of a document, from the start of a line:
    the key is appended to the lines that end an entry, and to no
    other. *)
Lemma scan_keyed (n : nat) :
  forall lines : list string,
    (length lines <= n)%nat ->
    Forall (fun l => isLine l = true) lines ->
    forall b, at_bol (mkCursor b "" None) = true ->
      exists out, scan b (joinLines lines) = joinLines out
        /\ keyed notTerm lines out.
Proof.
  induction n as [|n IH]; intros lines Hlen Hall b Hbol.
  { destruct lines; [| simpl in Hlen; lia].
    exists []. split; [apply scan_nil | apply keyed_nil]. }
  destruct lines as [|l rest].
  { exists []. split; [apply scan_nil | apply keyed_nil]. }
  pose proof Hall as Hall0.
  apply Forall_cons in Hall as [Hl Hrest]. simpl in Hlen.
  destruct (entryEnd (joinLines (l :: rest))) as [r4|] eqn:Hentry0.
  - (* a match begins on this line *)
    pose proof Hentry0 as Hentry. rewrite joinLines_cons in Hentry |- *.
    destruct (scan_entry b (l +:+ tailOf rest) r4 Hbol Hentry)
      as (c & Hc & Hscan).
    destruct (entryEnd_split _ _ Hentry)
      as (ws1 & ws2 & body & Hs & _ & Hws1 & _ & Hws2 & Hbody & Hend & _ & Hr4).
    assert (Hs' : joinLines (l :: rest)
                  = (ws1 +:+ "url:" +:+ ws2 +:+ body) +:+ r4).
    { rewrite joinLines_cons, Hs. by rewrite !append_assoc. }
    destruct (joinLines_split _ Hall0 _ _ ltac:(done) Hs' Hr4)
      as (mid & lj & back & Hlines & Hm & ->).
    assert (Hcons : consumed (l +:+ tailOf rest) (tailOf back)
                    = linesText mid +:+ lj).
    { rewrite <- joinLines_cons, Hs', <- Hm. apply consumed_append. }
    assert (Hback : Forall (fun l => isLine l = true) back).
    { rewrite Hlines in Hall0. apply Forall_app in Hall0 as [_ Hall0].
      by apply Forall_cons in Hall0 as [_ ?]. }
    assert (Hlen' : (length back <= n)%nat).
    { apply (f_equal length) in Hlines. rewrite length_app in Hlines.
      simpl in Hlines. lia. }
    destruct (scan_tail_keyed (Some c) back) as (out & Hout & Hres).
    { left. unfold at_bol. by simpl. }
    { intros b' Hb'. by apply IH. }
    exists (mid ++ (lj +:+ apiKey) :: out). split.
    + rewrite Hscan, Hcons, Hout, joinLines_middle. by rewrite !append_assoc.
    + rewrite Hlines in Hall0, Hentry0 |- *. by apply keyed_entry.
  - (* no match begins on this line *)
    pose proof Hentry0 as Hentry. rewrite joinLines_cons in Hentry |- *.
    assert (IH' : forall b', at_bol (mkCursor b' "" None) = true ->
              exists out, scan b' (joinLines rest) = joinLines out
                /\ keyed notTerm rest out).
    { intros b' Hb'. apply IH; [lia | done | done]. }
    destruct l as [|x l].
    + destruct (scan_tail_keyed b rest (or_intror Hentry) IH')
        as (out & Hout & Hres).
      exists ("" :: out). split; [by rewrite joinLines_cons |].
      by apply keyed_kept.
    + rewrite scan_skip by (by right).
      unfold isLine in Hl. simpl in Hl. apply andb_prop in Hl as [Hx Hl].
      assert (Hx' : isLineTerminator x = false).
      { unfold notTerm in Hx. by destruct (isLineTerminator x). }
      change (String x l +:+ tailOf rest) with (String x (l +:+ tailOf rest)).
      cbv iota beta.
      destruct (scan_line l (tailOf rest) Hl x Hx') as (c' & Hc' & Hline).
      destruct (scan_tail_keyed (Some c') rest) as (out & Hout & Hres);
        [left; unfold at_bol; by simpl | done |].
      exists (String x l :: out). split; [| by apply keyed_kept].
      by rewrite Hline, Hout, joinLines_cons.
Qed.

(** an entry with the dot of [mapzen.com] is an entry with any character
    of a line in its place *)
Lemma endsEntry_dot (lines : list string) (j : nat) :
  endsEntry (isChar ".") lines j -> endsEntry notTerm lines j.
Proof.
  intros (i & Hij & w1 & w2 & body & Ht & Hw1 & Hw2
          & u1 & c & u2 & ext & Hbody & Hu1 & Hc & Hu2 & Hext).
  exists i. split; [done |]. exists w1, w2, body.
  split; [done |]. split; [done |]. split; [done |].
  exists u1, c, u2, ext.
  split; [done |]. split; [done |]. split; [| done].
  unfold isChar in Hc. apply Ascii.eqb_eq in Hc. by subst c.
Qed.

(** a text that is an entry is one for the search *)
Lemma urlEntry_found (t : string) :
  urlEntry notTerm t -> entryEnd t = Some "".
Proof.
  intros Hentry. rewrite <- (append_nil_r t) at 1.
  by apply urlEntry_entryEnd.
Qed.

Lemma occursIn_append (s a b : string) : occursIn s (a +:+ s +:+ b) = true.
Proof.
  induction a as [|c a IH].
  - change ("" +:+ s +:+ b) with (s +:+ b).
    assert (Hs : bool_decide (is_Some (dropLit s (s +:+ b))) = true)
      by (apply bool_decide_eq_true_2; by rewrite dropLit_self).
    destruct (s +:+ b); simpl in *; by rewrite Hs.
  - cbn [String.append occursIn]. by rewrite IH, orb_true_r.
Qed.

(** an entry with the dot holds the text [mapzen.com] *)
Lemma urlEntry_mapzen_com (t : string) :
  urlEntry (isChar ".") t -> occursIn "mapzen.com" t = true.
Proof.
  intros (w1 & w2 & body & -> & _ & _
          & u1 & c & u2 & ext & -> & _ & Hc & _ & _).
  unfold isChar in Hc. apply Ascii.eqb_eq in Hc. subst c.
  replace (w1 +:+ "url:" +:+ w2
           +:+ u1 +:+ "mapzen" +:+ String "." ("com" +:+ u2 +:+ ext))
    with ((w1 +:+ "url:" +:+ w2 +:+ u1) +:+ "mapzen.com" +:+ (u2 +:+ ext))
    by (by rewrite !append_assoc).
  apply occursIn_append.
Qed.

(** C10, amended: [updateContent] reads the text of the editor and gives
    the scene a content with the same lines, each one kept or with the key
    appended. An entry is white space, [url:], white space and a
    mapzen.com tile endpoint (url characters, [mapzen.com], url
    characters, and [topojson], [geojson] or [mvt]), read from the start
    of a line to the end of a line; its white space may run over line
    ends. The line that ends an entry has the key appended. A line that
    ends no entry, also when any character of a line is taken for the dot
    of [mapzen.com], is kept. *)
Theorem updateContent_entries (cm : CodeMirror) :
  Forall (fun l => isLine l = true) (cm_lines cm) ->
  exists out,
    updateContent true cm = Some (joinLines out)
    /\ length out = length (cm_lines cm)
    /\ forall j l, cm_lines cm !! j = Some l ->
         (out !! j = Some l \/ out !! j = Some (l +:+ apiKey))
         /\ (endsEntry (isChar ".") (cm_lines cm) j ->
               out !! j = Some (l +:+ apiKey))
         /\ (~ endsEntry notTerm (cm_lines cm) j -> out !! j = Some l).
Proof.
  intros Hall.
  destruct (scan_keyed (length (cm_lines cm)) (cm_lines cm) (le_n _) Hall
              None eq_refl) as (out & Hscan & Hlen & Hk).
  exists out. split; [| split; [done |]].
  { unfold updateContent, getValue, replace. by rewrite <- Hscan. }
  intros j l Hl. destruct (Hk j l Hl) as [[Hin Ho] | [Hn Ho]].
  - split; [by right |]. split; [done |]. by intros [].
  - split; [by left |]. split; [| done].
    intros Hin. by destruct Hn; apply endsEntry_dot.
Qed.

Lemma updateContent_entries_witness :
  endsEntry (isChar ".") (cm_lines sourceDoc) 3
  /\ exists out,
       updateContent true sourceDoc = Some (joinLines out)
       /\ length out = length (cm_lines sourceDoc)
       /\ forall j l, cm_lines sourceDoc !! j = Some l ->
            (out !! j = Some l \/ out !! j = Some (l +:+ apiKey))
            /\ (endsEntry (isChar ".") (cm_lines sourceDoc) j ->
                  out !! j = Some (l +:+ apiKey))
            /\ (~ endsEntry notTerm (cm_lines sourceDoc) j ->
                  out !! j = Some l).
Proof.
  split.
  - exists 3%nat. split; [simpl; lia |].
    exists "        ", " ",
      "https://tile.mapzen.com/mapzen/vector/v1/all/{z}/{x}/{y}.topojson".
    split; [reflexivity |]. split; [by split |]. split; [by split |].
    exists "https://tile.", "."%char, "/mapzen/vector/v1/all/{z}/{x}/{y}.",
      "topojson".
    split; [reflexivity |]. split; [by split |]. split; [reflexivity |].
    split; [by split | by left].
  - apply (updateContent_entries sourceDoc). repeat constructor.
Defined.

Example updateContent_sourceDoc :
  updateContent true sourceDoc
  = Some (joinLines [
      "sources:";
      "    osm:";
      "        type: TopoJSON";
      "        url: https://tile.mapzen.com/mapzen/vector/v1/all/{z}/{x}/{y}.topojson??api_key=vector-tiles-x4i7gmA";
      "cameras:"]).
Proof. vm_compute. reflexivity. Qed.

(** C10 as stated fails: the white space of the pattern runs over line
    ends, so the [url:] line that follows a blank line gets the key though
    it is not indented. No line of the document is an entry by itself,
    also when any character is taken for the dot of [mapzen.com], and
    the content is not the text of the document. *)
Lemma updateContent_blank_line :
  updateContent true blankThenUrl <> Some (statedContent blankThenUrl)
  /\ matchesPattern
       "url: https://tile.mapzen.com/mapzen/vector/v1/all/{z}/{x}/{y}.mvt"
     = false
  /\ updateContent true blankThenUrl
     = Some (joinLines [
         "sources:";
         "    osm:";
         "        type: MVT";
         "";
         "url: https://tile.mapzen.com/mapzen/vector/v1/all/{z}/{x}/{y}.mvt??api_key=vector-tiles-x4i7gmA"])
  /\ (forall l, l ∈ cm_lines blankThenUrl -> ~ urlEntry notTerm l)
  /\ updateContent true blankThenUrl <> Some (getValue blankThenUrl).
Proof.
  split; [vm_compute; discriminate |].
  split; [vm_compute; reflexivity |].
  split; [vm_compute; reflexivity |].
  split; [| vm_compute; discriminate].
  intros l Hl Hentry%urlEntry_found. revert Hentry.
  repeat (apply elem_of_cons in Hl as [-> | Hl];
          [vm_compute; discriminate |]).
  by apply elem_of_nil in Hl.
Qed.

(** X18: the content that [updateContent] gives the scene, line by line:
    the key is appended to the lines that end an entry in which any
    character of a line stands where the dot of [mapzen.com] is expected
    (the dot of the pattern is not escaped), and to no other line. *)
Theorem updateContent_keyed (cm : CodeMirror) :
  Forall (fun l => isLine l = true) (cm_lines cm) ->
  exists out,
    updateContent true cm = Some (joinLines out)
    /\ keyed notTerm (cm_lines cm) out.
Proof.
  intros Hall.
  destruct (scan_keyed (length (cm_lines cm)) (cm_lines cm) (le_n _) Hall
              None eq_refl) as (out & Hscan & Hk).
  exists out. split; [| done].
  unfold updateContent, getValue, replace. by rewrite <- Hscan.
Qed.

Lemma updateContent_keyed_witness :
  ~ endsEntry (isChar ".") (cm_lines otherHostDoc) 2
  /\ exists out,
       updateContent true otherHostDoc = Some (joinLines out)
       /\ keyed notTerm (cm_lines otherHostDoc) out.
Proof.
  split.
  - intros (i & Hij & Hentry%urlEntry_mapzen_com). simpl in Hij.
    destruct i as [|[|[|i]]]; [| | | lia]; by vm_compute in Hentry.
  - apply (updateContent_keyed otherHostDoc). repeat constructor.
Defined.

(** the entry of [otherHostDoc] gets the key *)
Example updateContent_otherHostDoc :
  updateContent true otherHostDoc
  = Some (joinLines [
      "sources:";
      "    osm:";
      "        url: https://mapzen-com.example.org/all/{z}/{x}/{y}.mvt??api_key=vector-tiles-x4i7gmA"]).
Proof. vm_compute. reflexivity. Qed.

(** *** [fixKeyLines] *)

Section FixKeyLinesProofs.
Context `{KeyPairs}.

Lemma setLine_setLine (l l' : Z) (q : Position) :
  setLine l (setLine l' q) = setLine l q.
Proof. done. Qed.

(** what the inner loop leaves at a position object *)
Lemma fixKeys_lookup (line : Z) (keys : list KeyPair) :
  forall (h : store) (p : nat),
    fixKeys line keys h !! p
    = if bool_decide (p ∈ pos <$> keys) then setLine line <$> h !! p
      else h !! p.
Proof.
  unfold fixKeys. induction keys as [|k keys IH]; intros h p.
  - done.
  - rewrite fmap_cons. cbn [foldl]. rewrite IH. rewrite lookup_alter.
    destruct (decide (pos k = p)) as [<- | Hne].
    + rewrite (bool_decide_eq_true_2 (pos k ∈ pos k :: _))
        by (apply elem_of_cons; by left).
      destruct (bool_decide _); [| done].
      destruct (h !! pos k); simpl; [| done]. by rewrite setLine_setLine.
    + rewrite (bool_decide_ext (p ∈ pos k :: (pos <$> keys)) (p ∈ pos <$> keys));
        [done |].
      rewrite elem_of_cons. split; [| by right].
      intros [Heq | Hin]; [by subst | done].
Qed.

Lemma fixKeyLines_loop_untouched (cm : CodeMirror) :
  forall (n : nat) (line : Z) (h : store) (p : nat),
    (forall l, line <= l < line + Z.of_nat n ->
       p ∉ pos <$> getKeyPairs cm l) ->
    fixKeyLines_loop cm line n h !! p = h !! p.
Proof.
  induction n as [|n IH]; intros line h p Hp; simpl; [done |].
  rewrite IH by (intros l Hl; apply Hp; lia).
  rewrite fixKeys_lookup. rewrite bool_decide_eq_false_2; [done |].
  apply Hp. lia.
Qed.

(** After the outer loop a position object records the last line whose
    key pairs hold it. *)
Lemma fixKeyLines_loop_last (cm : CodeMirror) :
  forall (n : nat) (line : Z) (h : store) (p : nat) (l : Z),
    line <= l < line + Z.of_nat n ->
    p ∈ pos <$> getKeyPairs cm l ->
    (forall l', l < l' < line + Z.of_nat n ->
       p ∉ pos <$> getKeyPairs cm l') ->
    fixKeyLines_loop cm line n h !! p = setLine l <$> h !! p.
Proof.
  induction n as [|n IH]; intros line h p l Hl Hin Hlast; [lia |].
  simpl. destruct (decide (l = line)) as [-> | Hne].
  - rewrite fixKeyLines_loop_untouched by (intros l' Hl'; apply Hlast; lia).
    rewrite fixKeys_lookup. by rewrite bool_decide_eq_true_2.
  - rewrite (IH (line + 1) _ p l) by (done || lia || (intros l' Hl'; apply Hlast; lia)).
    rewrite fixKeys_lookup. case_bool_decide; [| done].
    destruct (h !! p); simpl; [| done]. by rewrite setLine_setLine.
Qed.

End FixKeyLinesProofs.


(** *** [fixKeyLines], position by position *)

Section FixKeyLinesFrame.
Context `{KeyPairs}.

(** whether a line from [line] on, of [n] lines, holds the position object,
    and the last one that does *)
Lemma last_holder (cm : CodeMirror) (p : nat) :
  forall (n : nat) (line : Z),
    (forall l, line <= l < line + Z.of_nat n -> p ∉ pos <$> getKeyPairs cm l)
    \/ exists l, line <= l < line + Z.of_nat n
         /\ p ∈ pos <$> getKeyPairs cm l
         /\ forall l', l < l' < line + Z.of_nat n ->
              p ∉ pos <$> getKeyPairs cm l'.
Proof.
  induction n as [|n IH]; intros line; [left; intros l Hl; lia |].
  destruct (decide (p ∈ pos <$> getKeyPairs cm (line + Z.of_nat n)))
    as [Hin | Hout].
  - right. exists (line + Z.of_nat n). split; [lia |]. split; [done |].
    intros l' Hl'. lia.
  - destruct (IH line) as [Hnone | (l & Hl & Hin & Hlast)]; [left | right].
    + intros l Hl. destruct (decide (l = line + Z.of_nat n)) as [-> | Hne];
        [done | apply Hnone; lia].
    + exists l. split; [lia |]. split; [done |]. intros l' Hl'.
      destruct (decide (l' = line + Z.of_nat n)) as [-> | Hne];
        [done | apply Hlast; lia].
Qed.

Lemma fixKeyLines_lookup (cm : CodeMirror) (h : store) (p : nat) :
  ((forall l, 0 <= l < lineCount cm -> p ∉ pos <$> getKeyPairs cm l)
   /\ fixKeyLines cm h !! p = h !! p)
  \/ exists l, 0 <= l < lineCount cm
       /\ p ∈ pos <$> getKeyPairs cm l
       /\ (forall l', l < l' < lineCount cm -> p ∉ pos <$> getKeyPairs cm l')
       /\ fixKeyLines cm h !! p = setLine l <$> h !! p.
Proof.
  unfold fixKeyLines, lineCount.
  destruct (last_holder cm p (length (cm_lines cm)) 0)
    as [Hnone | (l & Hl & Hin & Hlast)]; [left | right].
  - split; [intros l Hl; apply Hnone; lia |].
    by apply fixKeyLines_loop_untouched.
  - exists l. split; [lia |]. split; [done |].
    split; [intros l' Hl'; apply Hlast; lia |].
    by apply fixKeyLines_loop_last.
Qed.

(** What [fixKeyLines_key_lines] asks of [getKeyPairs] is what the key
    lines need: when every key pair records its line after [fixKeyLines],
    every key pair has a position object and the key pairs of different
    lines have different position objects. *)
Lemma KeyLinesFixed_own (cm : CodeMirror) (h : store) :
  KeyLinesFixed cm (fixKeyLines cm h) ->
  (forall line k, 0 <= line < lineCount cm -> k ∈ getKeyPairs cm line ->
     is_Some (h !! pos k))
  /\ (forall l l' k k',
        0 <= l < lineCount cm -> 0 <= l' < lineCount cm ->
        k ∈ getKeyPairs cm l -> k' ∈ getKeyPairs cm l' ->
        pos k = pos k' -> l = l').
Proof.
  intros Hfix. split.
  - intros line k Hline Hk. specialize (Hfix line k Hline Hk).
    destruct (fixKeyLines_lookup cm h (pos k))
      as [[_ Heq] | (l & _ & _ & _ & Heq)]; rewrite Heq in Hfix;
      by destruct (h !! pos k).
  - intros l l' k k' Hl Hl' Hk Hk' Heq.
    pose proof (Hfix l k Hl Hk) as Hline.
    pose proof (Hfix l' k' Hl' Hk') as Hline'.
    rewrite Heq in Hline. congruence.
Qed.

(** X8: what [fixKeyLines] does to the position objects. None is added or
    removed and no [ch] changes; a position object held by no key pair of
    any line is left as it was; one held by key pairs of some line records
    the last line that holds it, whatever it recorded before. *)
Theorem fixKeyLines_positions (cm : CodeMirror) (h : store) (p : nat) :
  (is_Some (fixKeyLines cm h !! p) <-> is_Some (h !! p))
  /\ pos_ch <$> fixKeyLines cm h !! p = pos_ch <$> h !! p
  /\ ((forall l, 0 <= l < lineCount cm -> p ∉ pos <$> getKeyPairs cm l) ->
      fixKeyLines cm h !! p = h !! p)
  /\ (forall l,
        0 <= l < lineCount cm ->
        p ∈ pos <$> getKeyPairs cm l ->
        (forall l', l < l' < lineCount cm -> p ∉ pos <$> getKeyPairs cm l') ->
        fixKeyLines cm h !! p = setLine l <$> h !! p).
Proof.
  destruct (fixKeyLines_lookup cm h p)
    as [[Hnone Heq] | (l & Hl & Hin & Hlast & Heq)]; rewrite Heq.
  - split; [done |]. split; [done |]. split; [done |].
    intros l Hl Hin. by destruct (Hnone l Hl).
  - split; [by rewrite fmap_is_Some |].
    split; [by destruct (h !! p) |].
    split; [intros Hnone; by destruct (Hnone l Hl) |].
    intros l0 Hl0 Hin0 Hlast0.
    destruct (Z.lt_trichotomy l l0) as [Hlt | [-> | Hgt]]; [| done |].
    + by destruct (Hlast l0 ltac:(lia)).
    + by destruct (Hlast0 l ltac:(lia)).
Qed.

(** X9: [fixKeyLines] is idempotent: a second run over the same document
    changes no position object. *)
Theorem fixKeyLines_idempotent (cm : CodeMirror) (h : store) :
  fixKeyLines cm (fixKeyLines cm h) = fixKeyLines cm h.
Proof.
  apply map_eq. intros p.
  destruct (fixKeyLines_lookup cm (fixKeyLines cm h) p)
    as [[_ Heq] | (l & Hl & Hin & Hlast & Heq)]; rewrite Heq; [done |].
  destruct (fixKeyLines_lookup cm h p)
    as [[Hnone _] | (l0 & Hl0 & Hin0 & Hlast0 & Heq0)].
  - by destruct (Hnone l Hl).
  - rewrite Heq0.
    assert (l0 = l) as ->.
    { destruct (Z.lt_trichotomy l l0) as [Hlt | [-> | Hgt]]; [| done |].
      - by destruct (Hlast l0 ltac:(lia)).
      - by destruct (Hlast0 l ltac:(lia)). }
    by destruct (h !! p).
Qed.
End FixKeyLinesFrame.

Lemma fixKeyLines_positions_witness :
  fixKeyLines (H := sharedKeys) twoLines staleStore !! 0%nat
  = setLine 1 <$> staleStore !! 0%nat.
Proof.
  apply (proj2 (proj2 (proj2 (fixKeyLines_positions (H := sharedKeys)
                                twoLines staleStore 0%nat))) 1).
  - vm_compute. split; [discriminate | reflexivity].
  - apply list_elem_of_here.
  - intros l' Hl'. unfold lineCount in Hl'. simpl in Hl'. lia.
Defined.

(** *** [updateContent] and the tile formats *)

(** A match ends at a position ahead in the subject. *)
Lemma star_ahead {A} (p : ascii -> bool) (k : cursor -> option A) :
  forall s b g a,
    star p k b s g = Some a ->
    exists y t, s = t +:+ rest y /\ k y = Some a.
Proof.
  induction s as [|c s IH]; intros b g a; simpl.
  - intros Hk. by exists (mkCursor b "" g), "".
  - destruct (p c).
    + destruct (star p k (Some c) s g) as [a'|] eqn:Hstar; simpl.
      * intros [= <-]. destruct (IH _ _ _ Hstar) as (y & t & -> & Hk).
        by exists y, (String c t).
      * intros Hk. by exists (mkCursor b (String c s) g), "".
    + intros Hk. by exists (mkCursor b (String c s) g), "".
Qed.

Lemma bt_ahead {A} (r : regex) :
  forall x (k : cursor -> option A) a,
    bt r x k = Some a ->
    exists y t, rest x = t +:+ rest y /\ k y = Some a.
Proof.
  induction r as [| | |p|p|r1 IH1 r2 IH2|r1 IH1 r2 IH2|r1 IH1];
    intros x k a; simpl.
  - intros Hk. by exists x, "".
  - destruct (at_bol x); [| done]. intros Hk. by exists x, "".
  - destruct (at_eol x); [| done]. intros Hk. by exists x, "".
  - destruct (rest x) as [|c s] eqn:Hx; [done |].
    destruct (p c); [| done]. intros Hk.
    by exists (mkCursor (Some c) s (group1 x)), (String c "").
  - apply star_ahead.
  - intros (y & t & Hy & (z & u & Hz & Hk)%IH2)%IH1.
    exists z, (t +:+ u). by rewrite Hy, Hz, append_assoc.
  - destruct (bt r1 x k) as [a'|] eqn:H1; simpl.
    + intros [= <-]. by apply IH1.
    + apply IH2.
  - intros (y & t & Hy & Hk)%IH1.
    by exists (mkCursor (before y) (rest y)
                 (Some (consumed (rest x) (rest y)))), t.
Qed.

Lemma bt_Lit_Eol (lit : string) (b : option ascii) (s : string)
    (g : option string) (k : cursor -> option unit) (a : unit) :
  allOf notTerm s = true ->
  bt (Lit lit) (mkCursor b s g) (fun z => bt Eol z k) = Some a ->
  s = lit.
Proof.
  intros Hline. rewrite bt_Lit.
  destruct (dropLit lit s) as [s'|] eqn:Hdrop; [| done].
  apply dropLit_split in Hdrop as ->. simpl.
  destruct (at_eol _) eqn:Heol; [| done]. intros _.
  rewrite allOf_append in Hline. apply andb_prop in Hline as [_ Hline].
  by rewrite (lineEnd_line s' Hline Heol), append_nil_r.
Qed.

(** An endpoint ends with the name of a tile format. *)
Lemma isEndpoint_format (body : string) :
  isLine body = true ->
  isEndpoint body = true ->
  exists pre ext,
    body = pre +:+ ext
    /\ (ext = "topojson" \/ ext = "geojson" \/ ext = "mvt").
Proof.
  unfold isLine, isEndpoint. intros Hline.
  destruct (bt endpoint _ _) as [[]|] eqn:Hbt; [intros _ | done].
  change (bt (Seq (PlusC urlChar)
                (Seq (Lit "mapzen") (Seq Dot (Seq (Lit "com") (PlusC urlChar)))))
            (mkCursor None body None)
            (fun y =>
               orElse (bt (Lit "topojson") y (fun z => bt Eol z (fun _ => Some tt)))
                 (orElse
                    (bt (Lit "geojson") y (fun z => bt Eol z (fun _ => Some tt)))
                    (bt (Lit "mvt") y (fun z => bt Eol z (fun _ => Some tt)))))
          = Some tt) in Hbt.
  apply bt_ahead in Hbt as ([b s g] & pre & Hbody & Hext).
  simpl in Hbody. subst body.
  rewrite allOf_append in Hline. apply andb_prop in Hline as [_ Hline].
  exists pre, s. split; [done |].
  destruct (bt (Lit "topojson") _ _) as [[]|] eqn:H1;
    [left; by eapply bt_Lit_Eol |].
  destruct (bt (Lit "geojson") _ _) as [[]|] eqn:H2;
    [right; left; by eapply bt_Lit_Eol |].
  right; right. by eapply bt_Lit_Eol.
Qed.

Lemma lineResult_no_format (l l' : string) :
  isLine l = true -> tileFormat l = false -> lineResult l l' -> l' = l.
Proof.
  intros Hline Hformat ([-> | Hkey] & _ & Hend); [done |].
  destruct (Hend Hkey) as (pre & body & -> & Hbody).
  unfold isLine in Hline. rewrite allOf_append in Hline.
  apply andb_prop in Hline as [_ Hline].
  destruct (isEndpoint_format body Hline Hbody) as (p & ext & -> & Hext).
  unfold tileFormat in Hformat. rewrite <- append_assoc in Hformat.
  destruct Hext as [-> | [-> | ->]];
    rewrite YamlTangramProofs.endsWith_append in Hformat;
    by rewrite ?orb_true_r in Hformat.
Qed.

(** X10: a document in which no line ends with [topojson], [geojson] or
    [mvt], as the [endsWith] of the common functions tells, goes to the
    scene as it is: no key is injected. *)
Theorem updateContent_no_format (cm : CodeMirror) :
  Forall (fun l => isLine l = true) (cm_lines cm) ->
  Forall (fun l => tileFormat l = false) (cm_lines cm) ->
  updateContent true cm = Some (getValue cm).
Proof.
  intros Hall Hformat.
  destruct (scan_lines (length (cm_lines cm)) (cm_lines cm) (le_n _) Hall
              None eq_refl) as (out & Hscan & Hres).
  unfold updateContent, getValue, replace.
  fold (scan None (joinLines (cm_lines cm))). rewrite Hscan. do 2 f_equal.
  clear Hscan. revert Hall Hformat Hres. generalize (cm_lines cm).
  intros lines Hall Hformat Hres.
  induction Hres as [|l l' lines out Hl _ IH]; [done |].
  apply Forall_cons in Hall as [Hline Hall].
  apply Forall_cons in Hformat as [Hf Hformat].
  by rewrite (lineResult_no_format l l' Hline Hf Hl), IH.
Qed.

Lemma updateContent_no_format_witness :
  updateContent true shaderDoc = Some (getValue shaderDoc).
Proof.
  apply (updateContent_no_format shaderDoc); repeat constructor.
Defined.

End EditorProofs.

Module TangramPlayProofs.
Import TangramPlay Spec.

(** *** [determineScene] *)

Lemma trimStart_empty (s : string) :
  trimStart s = "" <-> allOf isSpace s = true.
Proof.
  induction s as [|c s IH]; simpl; [done |].
  destruct (isSpace c); simpl; [done |]. split; discriminate.
Qed.

Lemma trimStart_head (s : string) :
  match trimStart s with
  | String c _ => isSpace c = false
  | EmptyString => True
  end.
Proof.
  induction s as [|c s IH]; simpl; [done |].
  destruct (isSpace c) eqn:Hc; [done | by simpl].
Qed.

Lemma trimEnd_head (c : ascii) (s : string) :
  isSpace c = false -> trimEnd (String c s) <> "".
Proof. intros Hc. simpl. rewrite Hc. by destruct (trimEnd s). Qed.

(** [str.trim().length > 0] says that [str] holds a code unit that is not
    white space. *)
Lemma trim_length (s : string) :
  (0 <? String.length (trim s))%nat = hasText s.
Proof.
  unfold trim, hasText. pose proof (trimStart_head s) as Hhead.
  destruct (trimStart s) as [|c t] eqn:Ht.
  - apply trimStart_empty in Ht as ->. done.
  - pose proof (trimEnd_head c t Hhead) as Hne.
    destruct (allOf isSpace s) eqn:Hall.
    + apply trimStart_empty in Hall. congruence.
    + destruct (trimEnd (String c t)); [done | done].
Qed.

(** C9 as stated fails: without a scene in the query, a read of the saved
    data that is rejected rejects [determineScene]; nothing resolves to the
    default scene. *)
Lemma determineScene_read_rejected :
  determineScene None (Rejected (Error "The storage cannot be read"))
  = Rejected (Error "The storage cannot be read")
  /\ determineScene None (Rejected (Error "The storage cannot be read"))
     <> Fulfilled (mkScene (Some DEFAULT_SCENE) None None).
Proof. split; [reflexivity | discriminate]. Qed.

(** C9, amended: [determineScene] resolves to the scene of the query string
    when [query.scene] is there, whatever the storage holds; without it,
    and with a read of the storage that is fulfilled, to the saved scene
    data when their contents hold more than white space and to the default
    scene otherwise; without it and with a read that is rejected, it is
    rejected with the error of the read. *)
Theorem determineScene_outcome (query_scene : option string)
    (stored : promise (option Scene)) :
  (truthyStr query_scene = true ->
     determineScene query_scene stored
     = Fulfilled (mkScene query_scene None None))
  /\ (forall sceneData,
        truthyStr query_scene = false -> stored = Fulfilled sceneData ->
        savedContents sceneData = true ->
        exists sd, sceneData = Some sd
          /\ determineScene query_scene stored = Fulfilled sd)
  /\ (forall sceneData,
        truthyStr query_scene = false -> stored = Fulfilled sceneData ->
        savedContents sceneData = false ->
        determineScene query_scene stored
        = Fulfilled (mkScene (Some DEFAULT_SCENE) None None))
  /\ (forall e,
        truthyStr query_scene = false -> stored = Rejected e ->
        determineScene query_scene stored = Rejected e).
Proof.
  unfold determineScene, savedContents.
  split; [by intros -> |].
  split; [| split]; [intros sceneData -> -> .. | by intros e -> ->].
  - destruct sceneData as [sd|]; [| done].
    destruct (contents sd) as [c|] eqn:Hc; [| done]. intros Htext.
    exists sd. split; [done |]. simpl. rewrite trim_length, Htext.
    unfold hasText in Htext. destruct c; [done |]. done.
  - destruct sceneData as [sd|]; [| done].
    destruct (contents sd) as [c|] eqn:Hc; [| done]. intros Htext. simpl.
    by rewrite trim_length, Htext, andb_false_r.
Qed.

Lemma determineScene_outcome_witness :
  determineScene (Some "scenes/a.yaml") (Rejected TypeError)
  = Fulfilled (mkScene (Some "scenes/a.yaml") None None)
  /\ determineScene None (Fulfilled (Some (mkScene None (Some " cameras: ") None)))
     = Fulfilled (mkScene None (Some " cameras: ") None)
  /\ determineScene (Some "") (Fulfilled (Some (mkScene None (Some "  ") None)))
     = Fulfilled (mkScene (Some DEFAULT_SCENE) None None)
  /\ determineScene None (Rejected TypeError) = Rejected TypeError.
Proof.
  split; [| split; [| split]].
  - exact (proj1 (determineScene_outcome (Some "scenes/a.yaml")
             (Rejected TypeError)) eq_refl).
  - destruct (proj1 (proj2 (determineScene_outcome None
             (Fulfilled (Some (mkScene None (Some " cameras: ") None)))))
             _ eq_refl eq_refl eq_refl)
      as (sd & Hsd & ->).
    by injection Hsd as <-.
  - exact (proj1 (proj2 (proj2 (determineScene_outcome (Some "")
             (Fulfilled (Some (mkScene None (Some "  ") None))))))
             _ eq_refl eq_refl eq_refl).
  - exact (proj2 (proj2 (proj2 (determineScene_outcome None
             (Rejected TypeError)))) _ eq_refl eq_refl).
Defined.

(** *** [load] *)

Section LoadProofs.
Context `{Web}.

(** C8: [load] throws exactly when the scene has neither a url nor
    contents, and then the error is [Error('no scene url or contents
    provided')], thrown by the call itself; when the scene has a url and
    the response fetched is not ok, the error handler receives the error
    whose message is chosen by the status, 404 or any other. *)
Theorem load_errors (scene : Scene) (a : App) :
  (forall e, fst (load scene a) = Thrown e <->
     truthyStr (url scene) = false /\ truthyStr (contents scene) = false
     /\ e = Error "no scene url or contents provided")
  /\ (forall sceneUrl a' response,
        truthyStr (url scene) = true ->
        request (prependProtocolToUrl (default "" (url scene))) (started a)
        = (sceneUrl, a', Fulfilled response) ->
        ok response = false ->
        let error := Error (responseMessage (status response)) in
        load scene a = (Returned (Fulfilled tt), onLoadError error a')
        /\ ErrorModal error ∈ events (snd (load scene a))).
Proof.
  split.
  - intros e. unfold load.
    destruct (truthyStr (url scene)) eqn:Hu.
    + destruct (request _ _) as [[sceneUrl a'] fetchPromise].
      split; [| by intros (? & _)].
      destruct fetchPromise as [response | e']; simpl.
      * destruct (checkResponse response) as [c | e']; [| done].
        by destruct (doLoadProcess _ _) as [[e' | [[] | e']] a''].
      * done.
    + destruct (truthyStr (contents scene)) eqn:Hc; simpl.
      * split; [| by intros (_ & ? & _)].
        by destruct (doLoadProcess _ _) as [[e' | p] a''].
      * split; [by intros [= <-] | by intros (_ & _ & ->)].
  - intros sceneUrl a' response Hu Hreq Hok error.
    assert (Hload : load scene a = (Returned (Fulfilled tt), onLoadError error a')).
    { unfold load. rewrite Hu. fold (started a). rewrite Hreq.
      unfold checkResponse. rewrite Hok. simpl. subst error.
      unfold responseMessage. by destruct (status response =? 404). }
    split; [done |]. rewrite Hload. simpl.
    unfold onLoadError.
    destruct (negb _); simpl; rewrite !elem_of_app, !list_elem_of_singleton; tauto.
Qed.
End LoadProofs.

Lemma load_errors_witness :
  fst (load (H := notFoundWeb) (mkScene None (Some "") None) freshApp)
  = Thrown (Error "no scene url or contents provided")
  /\ ErrorModal (Error "The scene you requested could not be found.")
     ∈ events (snd (load (H := notFoundWeb)
                      (mkScene (Some "scenes/a.yaml") None None) freshApp)).
Proof.
  split.
  - apply (proj1 (load_errors (H := notFoundWeb)
                   (mkScene None (Some "") None) freshApp)).
    repeat split; reflexivity.
  - exact (proj2 (proj2 (load_errors (H := notFoundWeb)
                   (mkScene (Some "scenes/a.yaml") None None) freshApp)
                   "scenes/a.yaml" _ notFound eq_refl eq_refl eq_refl)).
Defined.

(** *** The file name of a scene *)

Lemma lastPart_cases (s : string) :
  (noSlash s = true /\ forall acc, lastPart acc s = acc +:+ s)
  \/ exists pre f,
       s = pre +:+ String "/" f /\ noSlash f = true
       /\ forall acc, lastPart acc s = f.
Proof.
  induction s as [|c s IH]; [left; split; [done |] |].
  { intros acc. simpl. by rewrite append_nil_r. }
  unfold noSlash in *. simpl. destruct (isChar "/" c) eqn:Hc; simpl.
  - right. apply Ascii.eqb_eq in Hc as <-.
    destruct IH as [[Hs Hlast] | (pre & f & -> & Hf & Hlast)].
    + exists "", s. split; [done |]. split; [done |]. intros _. apply Hlast.
    + exists (String "/" pre), f. split; [done |]. split; [done |].
      intros _. apply Hlast.
  - destruct IH as [[Hs Hlast] | (pre & f & -> & Hf & Hlast)]; [left | right].
    + split; [done |]. intros acc. by rewrite Hlast, append_assoc.
    + exists (String c pre), f. split; [done |]. split; [done |].
      intros acc. apply Hlast.
Qed.

(** X11: the file name [load] takes from a scene url, the last element of
    [url.split('/')], holds no slash; it is the whole url when the url
    holds none, and otherwise what follows the last slash of the url. *)
Theorem lastPart_filename (sceneUrl : string) :
  noSlash (lastPart "" sceneUrl) = true
  /\ ((noSlash sceneUrl = true /\ lastPart "" sceneUrl = sceneUrl)
      \/ exists pre, sceneUrl = pre +:+ String "/" (lastPart "" sceneUrl)).
Proof.
  destruct (lastPart_cases sceneUrl)
    as [[Hs Hlast] | (pre & f & Hurl & Hf & Hlast)]; rewrite Hlast.
  - split; [done |]. by left.
  - split; [done |]. right. by exists pre.
Qed.

(** *** [load] and the state of the application *)

Section LoadState.
Context `{Web}.

Lemma request_requested (sceneUrl : string) (a : App) :
  requested a (request sceneUrl (started a)).1.2.
Proof.
  unfold request, requested.
  destruct (isGistURL sceneUrl);
    [destruct (getSceneURLFromGistAPI sceneUrl) as [u | e] |]; simpl.
  - exists [FetchUrl u]. split; [done | right; by exists u].
  - exists []. split; [by rewrite app_nil_r | by left].
  - exists [FetchUrl sceneUrl]. split; [done | right; by exists sceneUrl].
Qed.

(** the ways [load] ends: it throws; it fails before [doLoadProcess]; or
    it reaches [doLoadProcess], and then ends with the application that
    [doLoadProcess] leaves, or with the error handler run on it *)
Lemma load_cases (scene : Scene) (a : App) :
  (truthyStr (url scene) = false /\ truthyStr (contents scene) = false
   /\ load scene a = (Thrown (Error "no scene url or contents provided"),
                      started a))
  \/ (exists e a1,
        truthyStr (url scene) = true /\ requested a a1
        /\ load scene a = (Returned (Fulfilled tt), onLoadError e a1))
  \/ (exists sc a1,
        truthyStr (url scene) || truthyStr (contents scene) = true
        /\ requested a a1
        /\ ((exists p, load scene a = (Returned p, (doLoadProcess sc a1).2))
            \/ exists e,
                 load scene a
                 = (Returned (Fulfilled tt),
                    onLoadError e (doLoadProcess sc a1).2))).
Proof.
  unfold load. fold (started a).
  destruct (truthyStr (url scene)) eqn:Hu.
  - pose proof (request_requested
                  (prependProtocolToUrl (default "" (url scene))) a) as Hreq.
    destruct (request _ _) as [[sceneUrl a1] fetchPromise]. simpl in Hreq.
    right.
    destruct fetchPromise as [response | e];
      [destruct (checkResponse response) as [c | e] |].
    + right.
      exists (mkScene (Some sceneUrl) (Some c)
                (Some (lastPart ""
                         (prependProtocolToUrl (default "" (url scene)))))), a1.
      split; [done |]. split; [done |].
      destruct (doLoadProcess _ a1) as [[e | [[] | e]] a2]; simpl;
        [right | left | right]; by eexists.
    + left. by exists e, a1.
    + left. by exists e, a1.
  - destruct (truthyStr (contents scene)) eqn:Hc.
    + right; right. exists scene, (started a). split; [done |].
      split.
      { exists []. split; [| by left]. rewrite app_nil_r. by destruct a. }
      left. destruct (doLoadProcess scene (started a)) as [[e | p] a2];
        by eexists.
    + by left.
Qed.

Lemma load_returns (scene : Scene) (a : App) :
  truthyStr (url scene) || truthyStr (contents scene) = true ->
  exists p, (load scene a).1 = Returned p.
Proof.
  intros Hscene.
  destruct (load_cases scene a)
    as [(Hu & Hc & _)
       | [(e & a1 & _ & _ & ->)
         | (sc & a1 & _ & _ & [[p ->] | [e ->]])]];
    [| by eexists ..].
  by rewrite Hu, Hc in Hscene.
Qed.

(** X12: the scene that [determineScene] resolves to has a url or
    contents, so the [load] that start-up chains to it returns its promise
    and never throws; and [determineScene] rejects only when there is no
    scene in the query and reading the saved content fails. *)
Theorem determineScene_then_load (query_scene : option string)
    (stored : promise (option Scene)) :
  (forall scene,
     determineScene query_scene stored = Fulfilled scene ->
     truthyStr (url scene) || truthyStr (contents scene) = true
     /\ forall a, exists p, (load scene a).1 = Returned p)
  /\ (forall e,
        determineScene query_scene stored = Rejected e
        <-> truthyStr query_scene = false /\ stored = Rejected e).
Proof.
  split.
  - intros scene Hscene.
    assert (Hhas : truthyStr (url scene) || truthyStr (contents scene) = true).
    { unfold determineScene in Hscene.
      destruct (truthyStr query_scene) eqn:Hq.
      { injection Hscene as <-. simpl. by rewrite Hq. }
      destruct stored as [[sd|] | e]; [| by injection Hscene as <- | done].
      destruct (truthyStr (contents sd)) eqn:Hc; simpl in Hscene.
      - destruct (0 <? _)%nat; injection Hscene as <-;
          [by rewrite Hc, orb_true_r | done].
      - by injection Hscene as <-. }
    split; [done |]. intros a. by apply load_returns.
  - intros e. unfold determineScene.
    destruct (truthyStr query_scene); [by split; [| intros [? _]] |].
    destruct stored as [[sd|] | e'].
    + split; [| by intros [_ ?]].
      by destruct (truthyStr (contents sd) && _).
    + by split; [| intros [_ ?]].
    + split; [by intros [= ->] | by intros [_ [= ->]]].
Qed.

Ltac in_log :=
  repeat split; unfold not; intros;
  repeat match goal with Hin : _ ∈ _ |- _ => revert Hin end;
  rewrite ?elem_of_app, ?elem_of_cons, ?elem_of_nil;
  intuition (try discriminate; try congruence).

(** the application [doLoadProcess] and the error handler leave, written
    out *)
Ltac load_ends i Hsent :=
  unfold onLoadError, doLoadProcess; simpl;
  match goal with
  | |- context [loadScene ?sc] => destruct (loadScene sc) as [? | [[] | ?]]
  | _ => idtac
  end;
  simpl; destruct i; simpl;
  (split; [done |]); (split; [done |]);
  eexists; (split; [rewrite <- ?app_assoc; reflexivity |]);
  destruct Hsent as [-> | [? ->]]; in_log.

(** X13: what [load] leaves of the state of the application. An
    application that is initialized stays so; one that is initialized is
    never left with the map marked as not loaded; the log only grows, from
    the clearing of the palette and the loading indicator on; the history
    gets a new state only when the application was initialized before; the
    editor is marked clean only by a failed first load, which leaves the
    map marked as not loaded; and a scene load is announced only with the
    application initialized and the map marked as loaded. This holds
    however the map ends the loading of the scene: [loadScene] may throw,
    and the promise it leaves may be rejected after the scene was
    opened. *)
Theorem load_state (scene : Scene) (a : App) :
  (initialized a = true -> initialized (load scene a).2 = true)
  /\ (initialized a && mapNotLoaded a = false ->
      initialized (load scene a).2 && mapNotLoaded (load scene a).2 = false)
  /\ exists more,
       events (load scene a).2 = events (started a) ++ more
       /\ (forall u, PushHistoryState u ∈ more -> initialized a = true)
       /\ (MarkClean ∈ more ->
           initialized (load scene a).2 = false
           /\ mapNotLoaded (load scene a).2 = true)
       /\ (Emit "tangram:sceneload" ∈ more ->
           initialized (load scene a).2 = true
           /\ mapNotLoaded (load scene a).2 = false).
Proof.
  destruct (load_cases scene a)
    as [(_ & _ & ->)
       | [(e & a1 & _ & (sent & -> & Hsent) & ->)
         | (sc & a1 & _ & (sent & -> & Hsent) & [[p ->] | [e ->]])]];
    destruct a as [i m s ev]; simpl.
  - split; [done |]. split; [done |]. exists [].
    split; [by rewrite app_nil_r |]. in_log.
  - load_ends i Hsent.
  - load_ends i Hsent.
  - load_ends i Hsent.
Qed.


(** X16: the url branch of [load], outcome by outcome. A rejection of the
    Gist API, of the fetch or of the reading of the response text reaches
    the error handler as it is, and a rejection of the Gist API leaves no
    fetch behind. When the text is read, [doLoadProcess] is given the url
    that was fetched, which for a Gist is the one the API gave, and the
    file name of the url as it was before the Gist API was asked; the load
    ends with the application [doLoadProcess] leaves when the promise of
    the map is fulfilled, and with the error handler run on that
    application when [loadScene] throws or the promise is rejected. *)
Theorem load_url_outcomes (scene : Scene) (a : App) :
  truthyStr (url scene) = true ->
  let given := prependProtocolToUrl (default "" (url scene)) in
  (forall e,
     isGistURL given = true ->
     getSceneURLFromGistAPI given = Rejected e ->
     load scene a = (Returned (Fulfilled tt), onLoadError e (started a)))
  /\ (forall fetched e,
        (if isGistURL given
         then getSceneURLFromGistAPI given = Fulfilled fetched
         else fetched = given) ->
        fetch fetched = Rejected e ->
        load scene a
        = (Returned (Fulfilled tt),
           onLoadError e (emit (FetchUrl fetched) (started a))))
  /\ (forall fetched response,
        (if isGistURL given
         then getSceneURLFromGistAPI given = Fulfilled fetched
         else fetched = given) ->
        fetch fetched = Fulfilled response ->
        ok response = true ->
        let a1 := emit (FetchUrl fetched) (started a) in
        (forall e, text response = Rejected e ->
           load scene a = (Returned (Fulfilled tt), onLoadError e a1))
        /\ (forall c, text response = Fulfilled c ->
              let sc := mkScene (Some fetched) (Some c)
                          (Some (lastPart "" given)) in
              (forall e,
                 (doLoadProcess sc a1).1 = Thrown e
                 \/ (doLoadProcess sc a1).1 = Returned (Rejected e) ->
                 load scene a
                 = (Returned (Fulfilled tt),
                    onLoadError e (doLoadProcess sc a1).2))
              /\ (forall u,
                    (doLoadProcess sc a1).1 = Returned (Fulfilled u) ->
                    load scene a
                    = (Returned (Fulfilled tt), (doLoadProcess sc a1).2)))).
Proof.
  intros Hu given. unfold load. rewrite Hu. fold (started a). fold given.
  unfold request. split; [| split].
  - intros e -> ->. done.
  - intros fetched e Hfetched Hfetch.
    destruct (isGistURL given); [rewrite Hfetched | subst fetched];
      by rewrite Hfetch.
  - intros fetched response Hfetched Hfetch Hok.
    set (a1 := emit (FetchUrl fetched) (started a)).
    assert (Hreq :
      (if isGistURL given
       then match getSceneURLFromGistAPI given with
            | Fulfilled u => (u, emit (FetchUrl u) (started a), fetch u)
            | Rejected e => (given, started a, Rejected e)
            end
       else (given, emit (FetchUrl given) (started a), fetch given))
      = (fetched, a1, Fulfilled response)).
    { destruct (isGistURL given); [rewrite Hfetched | subst fetched];
        by rewrite Hfetch. }
    rewrite Hreq. unfold checkResponse. rewrite Hok. simpl. split.
    + by intros e ->.
    + intros c ->.
      destruct (doLoadProcess _ a1) as [[e' | [[] | e']] a2]; simpl.
      * split; [by intros e [[= ->] | [=]] | by intros u [=]].
      * split; [by intros e [[=] | [=]] | done].
      * split; [by intros e [[=] | [= ->]] | by intros u [=]].
Qed.
End LoadState.

Lemma determineScene_then_load_witness :
  exists p,
    (load (H := servedWeb) (mkScene (Some DEFAULT_SCENE) None None) freshApp).1
    = Returned p.
Proof.
  exact (proj2 (proj1 (determineScene_then_load (H := servedWeb) None
                         (Fulfilled None)) _ eq_refl) freshApp).
Defined.

Lemma load_url_outcomes_witness :
  load (H := servedWeb) (mkScene (Some "scenes/a.yaml") None None) freshApp
  = (Returned (Fulfilled tt),
     (doLoadProcess (H := servedWeb)
        (mkScene (Some "scenes/a.yaml") (Some "sources:") (Some "a.yaml"))
        (emit (FetchUrl "scenes/a.yaml") (started freshApp))).2).
Proof.
  exact (proj2 (proj2 (proj2 (proj2 (load_url_outcomes (H := servedWeb)
                         (mkScene (Some "scenes/a.yaml") None None) freshApp
                         eq_refl))
           "scenes/a.yaml" _ eq_refl eq_refl eq_refl) _ eq_refl) tt eq_refl).
Defined.

End TangramPlayProofs.
